(** * Spaced-repetition scheduling of the vocabulary assistant

    A shallow embedding of the scheduling code of [src/index.tsx]
    (the constant [srsIntervalsHours], the state updater of
    [handleQuizComplete], [startReviewSession], the [masteredWords] count
    and the localStorage migration of [App]), and the properties the
    specification states about it.  The file holds two versions of the
    application; the code embedded here is the same in both, except for
    the [masteredWords] count, which only the second has.

    Data.  The list in memory is taken at its declared type,
    [VocabData[]]: dense arrays of complete [Meaning] objects.  What is
    read from localStorage has no such type and is modelled as the JSON
    value it is.

    Numbers.  The program's [number]s are IEEE doubles.  Levels are
    created as 0 and only ever changed by [+ 1], [- 1], [Math.min] and
    [Math.max] against integers; timestamps are [Date.now()] readings
    plus whole milliseconds.  The model therefore takes levels and clock
    readings in [Z] (all magnitudes stay far below 2^53, where doubles
    are exact) and adds the one non-integer value the code can produce
    itself, [NaN], which arises when the interval table is indexed out
    of range. *)

From stdpp Require Import base strings list gmap sorting pretty.
From Stdlib Require Import ZArith Lia Permutation Ascii.

Open Scope Z_scope.

(** ** Numbers *)

Inductive number : Type :=
  | Num (z : Z)
  | NaN.

Global Instance number_eq_dec : EqDecision number.
Proof. solve_decision. Defined.

(** [undefined], read as a number, is [NaN]. *)
Definition toNumber (v : option Z) : number :=
  match v with
  | Some z => Num z
  | None => NaN
  end.

Definition nadd (a b : number) : number :=
  match a, b with
  | Num x, Num y => Num (x + y)
  | _, _ => NaN
  end.

Definition nmul (a b : number) : number :=
  match a, b with
  | Num x, Num y => Num (x * y)
  | _, _ => NaN
  end.

Definition nsub (a b : number) : number :=
  match a, b with
  | Num x, Num y => Num (x - y)
  | _, _ => NaN
  end.

(** [Math.min] and [Math.max] return [NaN] as soon as an argument is. *)
Definition nmin (a b : number) : number :=
  match a, b with
  | Num x, Num y => Num (Z.min x y)
  | _, _ => NaN
  end.

Definition nmax (a b : number) : number :=
  match a, b with
  | Num x, Num y => Num (Z.max x y)
  | _, _ => NaN
  end.

(** [a <= b]: every comparison with [NaN] is false. *)
Definition nle (a b : number) : bool :=
  match a, b with
  | Num x, Num y => x <=? y
  | _, _ => false
  end.

Definition isTimestamp (a : number) : Prop :=
  match a with
  | Num _ => True
  | NaN => False
  end.

(** [arr[i]] for an integer [i]: [undefined] outside [0 .. length - 1]. *)
Definition arrayGet {A : Type} (arr : list A) (i : Z) : option A :=
  if i <? 0 then None else arr !! Z.to_nat i.

(** ** Type definitions *)

Record MultipleChoice : Type := mkMultipleChoice {
  options : list string;
  correct_answer : string
}.

Record Meaning : Type := mkMeaning {
  part_of_speech_english : string;
  part_of_speech_arabic : string;
  one_word_arabic : string;
  explanation_arabic : string;
  example_sentence_english : string;
  example_sentence_arabic : string;
  gap_fill_prompt : string;
  gap_fill_full_sentence : string;
  gap_fill_full_sentence_arabic : string;
  multiple_choice_prompt : string;
  multiple_choice_full_sentence : string;
  multiple_choice_full_sentence_arabic : string;
  multiple_choice : MultipleChoice;
  srs_level : Z;
  next_review_date : number
}.

Record VocabData : Type := mkVocabData {
  id : string;
  word : string;
  meanings : list Meaning
}.

Record ReviewItem : Type := mkReviewItem {
  r_word : string;
  r_meaning : Meaning;
  r_meaningIndex : nat;
  r_wordId : string
}.

Global Instance MultipleChoice_eq_dec : EqDecision MultipleChoice.
Proof. solve_decision. Defined.

Global Instance Meaning_eq_dec : EqDecision Meaning.
Proof. solve_decision. Defined.

Global Instance ReviewItem_eq_dec : EqDecision ReviewItem.
Proof. solve_decision. Defined.

(** ** Constants *)

(** Spaced-repetition intervals in hours, for levels 1 to 8. *)
Definition srsIntervalsHours : list Z :=
  [4; 8; 24; 72; 168; 336; 720; 2160].

Definition maxLevel : Z := Z.of_nat (length srsIntervalsHours).

(** ** [handleQuizComplete]: the update of one meaning *)

(** [meaning.srs_level = lvl; meaning.next_review_date = next] on a copy. *)
Definition setSrs (m : Meaning) (lvl : Z) (next : number) : Meaning :=
  {| part_of_speech_english := part_of_speech_english m;
     part_of_speech_arabic := part_of_speech_arabic m;
     one_word_arabic := one_word_arabic m;
     explanation_arabic := explanation_arabic m;
     example_sentence_english := example_sentence_english m;
     example_sentence_arabic := example_sentence_arabic m;
     gap_fill_prompt := gap_fill_prompt m;
     gap_fill_full_sentence := gap_fill_full_sentence m;
     gap_fill_full_sentence_arabic := gap_fill_full_sentence_arabic m;
     multiple_choice_prompt := multiple_choice_prompt m;
     multiple_choice_full_sentence := multiple_choice_full_sentence m;
     multiple_choice_full_sentence_arabic :=
       multiple_choice_full_sentence_arabic m;
     multiple_choice := multiple_choice m;
     srs_level := lvl;
     next_review_date := next |}.

(** The [if (isCorrect) ... else ...] block applied to the copy of a
    meaning; [now] is the reading of [Date.now()] in the branch taken. *)
Definition recordOutcome (isCorrect : bool) (now : Z) (m : Meaning) : Meaning :=
  if isCorrect then
    let lvl := Z.min (srs_level m + 1) (Z.of_nat (length srsIntervalsHours)) in
    let intervalHours := arrayGet srsIntervalsHours (lvl - 1) in
    setSrs m lvl
      (nadd (Num now)
         (nmul (nmul (nmul (toNumber intervalHours) (Num 60)) (Num 60))
            (Num 1000)))
  else
    let lvl := Z.max 0 (srs_level m - 1) in
    setSrs m lvl (nadd (Num now) (nmul (nmul (Num 5) (Num 60)) (Num 1000))).

(** The scheduling invariant of the data model. *)
Definition levelInRange (m : Meaning) : Prop :=
  0 <= srs_level m <= maxLevel.

Definition sampleMeaning (lvl : Z) (next : number) : Meaning :=
  {| part_of_speech_english := "Noun";
     part_of_speech_arabic := "ism";
     one_word_arabic := "kitab";
     explanation_arabic := "sharh";
     example_sentence_english := "I read a book.";
     example_sentence_arabic := "mithal";
     gap_fill_prompt := "I read a ___.";
     gap_fill_full_sentence := "I read a book.";
     gap_fill_full_sentence_arabic := "jumla";
     multiple_choice_prompt := "She bought a ___.";
     multiple_choice_full_sentence := "She bought a book.";
     multiple_choice_full_sentence_arabic := "jumla";
     multiple_choice :=
       {| options := ["book"; "car"; "tree"; "house"];
          correct_answer := "book" |};
     srs_level := lvl;
     next_review_date := next |}.


(** The life of a meaning: created at level 0, due at once, then changed
    by outcomes only.  [history] lists the outcomes with the times at
    which they were recorded. *)
Definition afterHistory (m : Meaning) (history : list (bool * Z)) : Meaning :=
  foldl (fun m' o => recordOutcome (fst o) (snd o) m') m history.


(** ** [handleQuizComplete]: the update of the list

    [meaningIndex] is an array index, a natural number: every caller
    passes the position at which it found the meaning.

    The updater maps over [currentList].  An item whose [id] is [wordId]
    is rebuilt from a spread copy of its [meanings] in which slot
    [meaningIndex] is assigned the updated copy of the meaning; every
    other item is returned as it is.

    An indexed assignment past the end of a JavaScript array extends it,
    and the spread of [undefined] is the empty object.  The array the
    updater returns can therefore hold, besides full meanings, empty
    slots and one object that carries nothing but the two scheduling
    fields.  [Slot] is what a cell of the returned array holds. *)

Inductive Slot : Type :=
  | Elem (m : Meaning)
  | Empty
  | Bare (lvl next : number).

Record UpdatedItem : Type := mkUpdatedItem {
  u_id : string;
  u_word : string;
  u_meanings : list Slot
}.

(** The [if]/[else] block on [{ ...undefined }]: both scheduling fields
    are read as [undefined]. *)
Definition recordOutcomeBare (isCorrect : bool) (now : Z) : Slot :=
  if isCorrect then
    let lvl :=
      nmin (nadd (toNumber None) (Num 1))
        (Num (Z.of_nat (length srsIntervalsHours))) in
    let intervalHours :=
      match nsub lvl (Num 1) with
      | Num i => arrayGet srsIntervalsHours i
      | NaN => None
      end in
    Bare lvl
      (nadd (Num now)
         (nmul (nmul (nmul (toNumber intervalHours) (Num 60)) (Num 60))
            (Num 1000)))
  else
    let lvl := nmax (Num 0) (nsub (toNumber None) (Num 1)) in
    Bare lvl (nadd (Num now) (nmul (nmul (Num 5) (Num 60)) (Num 1000))).

(** [arr[i] = s]: assignment past the end grows the array, leaving empty
    slots ([hole]) in between. *)
Fixpoint setAt {A : Type} (hole : A) (i : nat) (s : A) (arr : list A)
    : list A :=
  match i, arr with
  | O, [] => [s]
  | O, _ :: rest => s :: rest
  | S i', [] => hole :: setAt hole i' s []
  | S i', x :: rest => x :: setAt hole i' s rest
  end.

(** [arr[i]] on the returned array; an empty slot reads like an index
    past the end. *)
Definition slotAt (i : nat) (arr : list Slot) : Slot :=
  default Empty (arr !! i).

(** An item returned as it is. *)
Definition unchanged (item : VocabData) : UpdatedItem :=
  {| u_id := id item; u_word := word item;
     u_meanings := Elem <$> meanings item |}.

Definition updateItem (wordId : string) (meaningIndex : nat)
    (isCorrect : bool) (now : Z) (item : VocabData) : UpdatedItem :=
  if decide (id item = wordId) then
    let newMeanings := Elem <$> meanings item in
    let meaning :=
      match meanings item !! meaningIndex with
      | Some m => Elem (recordOutcome isCorrect now m)
      | None => recordOutcomeBare isCorrect now
      end in
    {| u_id := id item; u_word := word item;
       u_meanings := setAt Empty meaningIndex meaning newMeanings |}
  else unchanged item.

(** [clock k] is the reading of [Date.now()] while the item at position
    [k] is processed. *)
Definition handleQuizComplete (wordId : string) (meaningIndex : nat)
    (isCorrect : bool) (clock : nat -> Z) (currentList : list VocabData)
    : list UpdatedItem :=
  imap (fun k item => updateItem wordId meaningIndex isCorrect (clock k) item)
    currentList.

(** The returned list read back at the declared type [VocabData[]]:
    possible exactly when every cell holds a full meaning. *)
Definition slotMeaning (s : Slot) : option Meaning :=
  match s with
  | Elem m => Some m
  | _ => None
  end.

Definition asVocabData (u : UpdatedItem) : option VocabData :=
  ms ← mapM slotMeaning (u_meanings u);
  Some {| id := u_id u; word := u_word u; meanings := ms |}.

(** ** The updater on the store

    The same code with the objects it works on made explicit, to see
    which of them it writes to.  The store maps references to objects;
    [fresh] is the first reference not yet in use.  A meaning object
    carries its fields inline (the updater never reaches into
    [multiple_choice]).  An object without content fields stands for
    what [{ ...undefined }] builds; a scheduling field it lacks reads as
    [NaN]. *)

Definition loc : Type := nat.

Inductive object : Type :=
  | OMeaning (m : Meaning)
  | OBare (lvl next : number)
  | OArray (elems : list (option loc))
  | OItem (i w : string) (ms : loc).

Record store : Type := mkStore {
  objects : gmap loc object;
  fresh : loc
}.

Definition alloc (o : object) (h : store) : loc * store :=
  (fresh h, {| objects := <[fresh h := o]> (objects h); fresh := S (fresh h) |}).

(** An assignment to a property of the object at [l]. *)
Definition modify (l : loc) (f : object -> object) (h : store) : store :=
  match objects h !! l with
  | Some o => {| objects := <[l := f o]> (objects h); fresh := fresh h |}
  | None => h
  end.

(** [{ ...src }] *)
Definition copyObject (src : option object) : object :=
  match src with
  | Some (OMeaning m) => OMeaning m
  | Some (OBare lvl next) => OBare lvl next
  | _ => OBare NaN NaN
  end.

(** [meaning.srs_level = Math.min(meaning.srs_level + 1, srsIntervalsHours.length)]
    or [meaning.srs_level = Math.max(0, meaning.srs_level - 1)] *)
Definition assignLevel (isCorrect : bool) (o : object) : object :=
  match o with
  | OMeaning m =>
      OMeaning
        (setSrs m
           (if isCorrect
            then Z.min (srs_level m + 1) (Z.of_nat (length srsIntervalsHours))
            else Z.max 0 (srs_level m - 1))
           (next_review_date m))
  | OBare lvl next =>
      OBare
        (if isCorrect
         then nmin (nadd lvl (Num 1)) (Num (Z.of_nat (length srsIntervalsHours)))
         else nmax (Num 0) (nsub lvl (Num 1)))
        next
  | _ => o
  end.

(** [meaning.next_review_date = Date.now() + intervalHours * 60 * 60 * 1000],
    with [intervalHours = srsIntervalsHours[meaning.srs_level - 1]] read
    from the level just assigned, or
    [meaning.next_review_date = Date.now() + 5 * 60 * 1000] *)
Definition dueDate (isCorrect : bool) (now : Z) (lvl : number) : number :=
  if isCorrect then
    let intervalHours :=
      match nsub lvl (Num 1) with
      | Num i => arrayGet srsIntervalsHours i
      | NaN => None
      end in
    nadd (Num now)
      (nmul (nmul (nmul (toNumber intervalHours) (Num 60)) (Num 60)) (Num 1000))
  else nadd (Num now) (nmul (nmul (Num 5) (Num 60)) (Num 1000)).

Definition assignDate (isCorrect : bool) (now : Z) (o : object) : object :=
  match o with
  | OMeaning m =>
      OMeaning (setSrs m (srs_level m) (dueDate isCorrect now (Num (srs_level m))))
  | OBare lvl next => OBare lvl (dueDate isCorrect now lvl)
  | _ => o
  end.

(** [newMeanings[meaningIndex] = meaning] *)
Definition assignIndex (meaningIndex : nat) (meaning : loc) (o : object)
    : object :=
  match o with
  | OArray elems => OArray (setAt None meaningIndex (Some meaning) elems)
  | _ => o
  end.

(** The callback of [currentList.map] on the item at [item]; it returns
    the reference of the item of the new list.  The branches for a
    reference that holds no item, or an item without an array of
    meanings, are never taken on a store that holds a [VocabData[]]. *)
Definition updateItemOn (wordId : string) (meaningIndex : nat)
    (isCorrect : bool) (now : Z) (item : loc) (h : store) : loc * store :=
  match objects h !! item with
  | Some (OItem i w ms) =>
      if decide (i = wordId) then
        match objects h !! ms with
        | Some (OArray elems) =>
            let '(newMeanings, h1) := alloc (OArray elems) h in
            let src :=
              match elems !! meaningIndex with
              | Some (Some l) => objects h1 !! l
              | _ => None
              end in
            let '(meaning, h2) := alloc (copyObject src) h1 in
            let h3 := modify meaning (assignLevel isCorrect) h2 in
            let h4 := modify meaning (assignDate isCorrect now) h3 in
            let h5 := modify newMeanings (assignIndex meaningIndex meaning) h4 in
            alloc (OItem i w newMeanings) h5
        | _ => (item, h)
        end
      else (item, h)
  | _ => (item, h)
  end.

(** [currentList.map(...)], from position [k] on. *)
Fixpoint mapItemsOn (wordId : string) (meaningIndex : nat) (isCorrect : bool)
    (clock : nat -> Z) (k : nat) (items : list loc) (h : store)
    : list loc * store :=
  match items with
  | [] => ([], h)
  | item :: rest =>
      let '(item', h1) :=
        updateItemOn wordId meaningIndex isCorrect (clock k) item h in
      let '(rest', h2) :=
        mapItemsOn wordId meaningIndex isCorrect clock (S k) rest h1 in
      (item' :: rest', h2)
  end.

Definition handleQuizCompleteOn (wordId : string) (meaningIndex : nat)
    (isCorrect : bool) (clock : nat -> Z) (currentList : list loc) (h : store)
    : list loc * store :=
  mapItemsOn wordId meaningIndex isCorrect clock 0 currentList h.

(** Every object of the store lies below [fresh]. *)
Definition wellFormed (h : store) : Prop :=
  ∀ l, is_Some (objects h !! l) -> (l < fresh h)%nat.

(** [h'] has every object of [h] below [fresh h] as it was. *)
Definition extends (h h' : store) : Prop :=
  (fresh h <= fresh h')%nat ∧
  ∀ l, (l < fresh h)%nat -> objects h' !! l = objects h !! l.

(** What a store holds at the references of a list. *)
Definition holdsMeaning (h : store) (l : option loc) (m : Meaning) : Prop :=
  ∃ l', l = Some l' ∧ objects h !! l' = Some (OMeaning m).

Definition holdsItem (h : store) (l : loc) (item : VocabData) : Prop :=
  ∃ ms elems,
    objects h !! l = Some (OItem (id item) (word item) ms) ∧
    objects h !! ms = Some (OArray elems) ∧
    Forall2 (holdsMeaning h) elems (meanings item).

Definition holdsSlot (h : store) (l : option loc) (s : Slot) : Prop :=
  match s with
  | Elem m => ∃ l', l = Some l' ∧ objects h !! l' = Some (OMeaning m)
  | Empty => l = None
  | Bare lvl next => ∃ l', l = Some l' ∧ objects h !! l' = Some (OBare lvl next)
  end.

Definition holdsUpdated (h : store) (l : loc) (u : UpdatedItem) : Prop :=
  ∃ ms elems,
    objects h !! l = Some (OItem (u_id u) (u_word u) ms) ∧
    objects h !! ms = Some (OArray elems) ∧
    Forall2 (holdsSlot h) elems (u_meanings u).

(** The fields of a meaning other than the two scheduling fields. *)
Definition sameContent (m m' : Meaning) : Prop :=
  part_of_speech_english m' = part_of_speech_english m /\
  part_of_speech_arabic m' = part_of_speech_arabic m /\
  one_word_arabic m' = one_word_arabic m /\
  explanation_arabic m' = explanation_arabic m /\
  example_sentence_english m' = example_sentence_english m /\
  example_sentence_arabic m' = example_sentence_arabic m /\
  gap_fill_prompt m' = gap_fill_prompt m /\
  gap_fill_full_sentence m' = gap_fill_full_sentence m /\
  gap_fill_full_sentence_arabic m' = gap_fill_full_sentence_arabic m /\
  multiple_choice_prompt m' = multiple_choice_prompt m /\
  multiple_choice_full_sentence m' = multiple_choice_full_sentence m /\
  multiple_choice_full_sentence_arabic m'
    = multiple_choice_full_sentence_arabic m /\
  multiple_choice m' = multiple_choice m.

(** ** [startReviewSession] *)

(** [meaning.next_review_date <= now] *)
Definition isDue (now : Z) (meaning : Meaning) : bool :=
  nle (next_review_date meaning) (Num now).

(** The two nested [forEach] loops filling [allDueMeanings]. *)
Definition dueOfItem (now : Z) (item : VocabData) : list ReviewItem :=
  omap (fun x => x)
    (imap (fun index meaning =>
             if isDue now meaning
             then Some {| r_word := word item; r_meaning := meaning;
                          r_meaningIndex := index; r_wordId := id item |}
             else None)
       (meanings item)).

Definition collectDue (vocabList : list VocabData) (now : Z)
    : list ReviewItem :=
  vocabList ≫= dueOfItem now.

(** [wordsForReviewCount]. *)
Definition wordsForReviewCount (vocabList : list VocabData) (now : Z) : nat :=
  foldl (fun count item =>
           (count +
            length (List.filter (isDue now) (meanings item)))%nat)
    0%nat vocabList.

(** [Array.prototype.sort] with a comparator that may read state (the
    shuffle's comparator draws a random number at every call).  For a
    consistent comparator the language fixes the result, the stable
    sorted arrangement, which is what this insertion sort returns
    ([prioritized_sorted], [prioritized_stable]).  For any other
    comparator the sequence of comparisons is left to the engine; the
    insertion sort is then one possible engine, and what is shown of the
    shuffle is shown for every procedure as well
    ([sign_driven_shuffle_not_uniform]). *)
Section ArraySort.
Context {A St : Type}.
Variable comparefn : A -> A -> St -> Z * St.

Fixpoint insertSorted (x : A) (l : list A) (s : St) : list A * St :=
  match l with
  | [] => ([x], s)
  | y :: rest =>
      let '(v, s1) := comparefn x y s in
      if v <=? 0 then (x :: y :: rest, s1)
      else let '(rest', s2) := insertSorted x rest s1 in (y :: rest', s2)
  end.

Fixpoint sortArray (l : list A) (s : St) : list A * St :=
  match l with
  | [] => ([], s)
  | x :: rest =>
      let '(rest', s1) := sortArray rest s in insertSorted x rest' s1
  end.
End ArraySort.

(** [(a, b) => a.meaning.srs_level - b.meaning.srs_level] *)
Definition byLevel (a b : ReviewItem) (s : unit) : Z * unit :=
  (srs_level (r_meaning a) - srs_level (r_meaning b), s).

(** [() => Math.random() - 0.5].  [draws k] is the sign of the value
    at the [k]-th call; the state counts the calls made. *)
Definition randomOrder (draws : nat -> Z) (a b : ReviewItem) (k : nat)
    : Z * nat :=
  (draws k, S k).

Definition levelOf (r : ReviewItem) : Z := srs_level (r_meaning r).

(** Ascending mastery level: lower level, higher priority. *)
Definition levelLe (a b : ReviewItem) : Prop := levelOf a <= levelOf b.

Definition prioritized (dueItems : list ReviewItem) : list ReviewItem :=
  fst (sortArray byLevel dueItems tt).

Definition buildSession (cap : nat) (draws : nat -> Z)
    (dueItems : list ReviewItem) : list ReviewItem :=
  let itemsForReview := take cap (prioritized dueItems) in
  fst (sortArray (randomOrder draws) itemsForReview 0%nat).

Definition startReviewSession (vocabList : list VocabData) (now : Z)
    (draws : nat -> Z) : list ReviewItem :=
  buildSession 10 draws (collectDue vocabList now).

Definition sampleReview (w : string) (lvl : Z) : ReviewItem :=
  {| r_word := w; r_meaning := sampleMeaning lvl (Num 0);
     r_meaningIndex := 0; r_wordId := w |}.

(** ** [masteredWords] *)

Definition MASTERY_THRESHOLD : Z := 6.

(** [word.meanings.every(meaning => meaning.srs_level >= threshold)] *)
Definition isMastered (threshold : Z) (word : VocabData) : bool :=
  forallb (fun meaning => threshold <=? srs_level meaning) (meanings word).

(** The pair [(masteredWords, inProgressWords)]. *)
Definition masteryCounts (vocabList : list VocabData) : nat * nat :=
  if (length vocabList =? 0)%nat then (0%nat, 0%nat)
  else
    let mastered :=
      foldl (fun mastered word =>
               if isMastered MASTERY_THRESHOLD word then S mastered
               else mastered)
        0%nat vocabList in
    (mastered, (length vocabList - mastered)%nat).

(** The shuffle as an experiment.  A call of [Math.random() - 0.5] is
    negative or not with equal chance, so each sequence of [n] signs is
    as likely as any other; [shuffleOutcomes n l] lists the session
    obtained for each of the [2 ^ n] sequences.  A sort that stops
    before it has used [n] draws ignores the rest, which leaves the
    share of each result unchanged. *)
Fixpoint signSequences (n : nat) : list (list bool) :=
  match n with
  | O => [[]]
  | S n' =>
      (cons true <$> signSequences n') ++ (cons false <$> signSequences n')
  end.

Definition drawsOf (negative : list bool) (k : nat) : Z :=
  match negative !! k with
  | Some true => -1
  | _ => 1
  end.

Definition shuffleOutcomes (n : nat) (itemsForReview : list ReviewItem)
    : list (list ReviewItem) :=
  (fun negative =>
     fst (sortArray (randomOrder (drawsOf negative)) itemsForReview 0%nat))
    <$> signSequences n.

(** How many of the sign sequences of length [n] end in the order [p]. *)
Definition timesObtained (n : nat) (itemsForReview p : list ReviewItem) : nat :=
  length (filter (fun q => q = p) (shuffleOutcomes n itemsForReview)).

(** Every arrangement of the session is obtained equally often. *)
Definition uniformShuffle (n : nat) (itemsForReview : list ReviewItem) : Prop :=
  forall p q : list ReviewItem,
    itemsForReview ≡ₚ p -> itemsForReview ≡ₚ q ->
    timesObtained n itemsForReview p = timesObtained n itemsForReview q.

(** ** Loading the list from localStorage *)

(** What [JSON.parse] returns. *)
#[local] Set Warnings "-register-all".
Inductive json : Type :=
  | JNull
  | JBool (b : bool)
  | JNum (n : Z)
  | JStr (s : string)
  | JArr (l : list json)
  | JObj (o : gmap string json).
#[local] Set Warnings "register-all".

(** [v.k], where [v] may itself be [undefined] (the code reads a
    property of a value only after it has checked that the value is an
    object). *)
Definition prop (v : option json) (k : string) : option json :=
  match v with
  | Some (JObj o) => o !! k
  | _ => None
  end.

(** [typeof v === 'object'], which holds of [null] too. *)
Definition typeofObject (v : option json) : bool :=
  match v with
  | Some JNull | Some (JArr _) | Some (JObj _) => true
  | _ => false
  end.

Definition typeofString (v : option json) : bool :=
  match v with
  | Some (JStr _) => true
  | _ => false
  end.

Definition isNull (v : option json) : bool :=
  match v with
  | Some JNull => true
  | _ => false
  end.

Definition isArray (v : option json) : bool :=
  match v with
  | Some (JArr _) => true
  | _ => false
  end.

(** [!v] *)
Definition falsy (v : option json) : bool :=
  match v with
  | None | Some JNull | Some (JBool false) | Some (JNum 0) => true
  | Some (JStr s) => bool_decide (s = "")
  | _ => false
  end.

(** ['k' in m] for an object [m]. *)
Definition hasKey (k : string) (o : gmap string json) : bool :=
  bool_decide (is_Some (o !! k)).

(** The three guards of the callback of [item.meanings.map] that return
    [null]. *)
Definition notAnObject (m : json) : bool :=
  negb (typeofObject (Some m)) || isNull (Some m) || isArray (Some m).

Definition badMultipleChoice (m : json) : bool :=
  let mc := prop (Some m) "multiple_choice" in
  falsy mc || negb (typeofObject mc) || negb (isArray (prop mc "options")).

Definition missingCritical (m : json) : bool :=
  negb (typeofString (prop (Some m) "gap_fill_prompt"))
  || negb (typeofString (prop (Some m) "one_word_arabic")).

Definition rejected (m : json) : bool :=
  notAnObject m || badMultipleChoice m || missingCritical m.

(** The callback of [item.meanings.map]: [None] is the [null] that the
    following [filter(Boolean)] removes. *)
Definition migrateMeaning (now : Z) (m : json) : option json :=
  if notAnObject m then None
  else if badMultipleChoice m then None
  else if missingCritical m then None
  else
    match m with
    | JObj o =>
        let hasSrsData := hasKey "srs_level" o && hasKey "next_review_date" o in
        if hasSrsData then Some m
        else Some (JObj (<["next_review_date" := JNum now]>
                           (<["srs_level" := JNum 0]> o)))
    | _ => None
    end.

(** [clock j] is the reading of [Date.now()] at the meaning of index
    [j]. *)
Definition validMeanings (clock : nat -> Z) (ms : list json) : list json :=
  omap (fun x => x) (imap (fun j m => migrateMeaning (clock j) m) ms).

Definition keepItem (item : json) : bool :=
  typeofObject (Some item) && negb (isNull (Some item))
  && isArray (prop (Some item) "meanings")
  && typeofString (prop (Some item) "word").

Definition migrateItem (clock : nat -> Z) (item : json) : json :=
  match item with
  | JObj o =>
      match o !! "meanings" with
      | Some (JArr ms) => JObj (<["meanings" := JArr (validMeanings clock ms)]> o)
      | _ => item
      end
  | _ => item
  end.

Definition hasMeanings (item : json) : bool :=
  match prop (Some item) "meanings" with
  | Some (JArr ms) => (0 <? length ms)%nat
  | _ => false
  end.

(** [migratedList]; [clock i j] is the reading of [Date.now()] at
    meaning [j] of the [i]-th item kept by the first filter. *)
Definition migratedList (clock : nat -> nat -> Z) (parsedList : list json)
    : list json :=
  List.filter hasMeanings
    (imap (fun i item => migrateItem (clock i) item)
       (List.filter keepItem parsedList)).

(** Sample data. *)
Definition twelveDue : list ReviewItem :=
  [ sampleReview "a" 3; sampleReview "b" 0; sampleReview "c" 5;
    sampleReview "d" 0; sampleReview "e" 2; sampleReview "f" 1;
    sampleReview "g" 4; sampleReview "h" 0; sampleReview "i" 3;
    sampleReview "j" 2; sampleReview "k" 5; sampleReview "l" 1 ].

Definition threeDue : list ReviewItem :=
  [sampleReview "a" 0; sampleReview "b" 1; sampleReview "c" 2].

Definition sampleList : list VocabData :=
  [ {| id := "1700000000001"; word := "book";
       meanings := [sampleMeaning 2 (Num 500); sampleMeaning 0 (Num 2000)] |};
    {| id := "1700000000002"; word := "run";
       meanings := [sampleMeaning 7 (Num 100)] |} ].

Definition emptyStore : store := {| objects := ∅; fresh := 0%nat |}.

Definition allocAll (os : list object) (h : store) : store :=
  foldl (fun h' o => (alloc o h').2) h os.

(** [sampleList] in a store; its two items are at references 3 and 6. *)
Definition sampleStore : store :=
  allocAll
    [ OMeaning (sampleMeaning 2 (Num 500));
      OMeaning (sampleMeaning 0 (Num 2000));
      OArray [Some 0%nat; Some 1%nat];
      OItem "1700000000001" "book" 2%nat;
      OMeaning (sampleMeaning 7 (Num 100));
      OArray [Some 4%nat];
      OItem "1700000000002" "run" 5%nat ]
    emptyStore.

Definition sampleChoice : json :=
  JObj (<["options" := JArr [JStr "book"; JStr "car"]]>
          (<["correct_answer" := JStr "book"]> ∅)).

(** A record saved before the scheduling fields existed. *)
Definition oldRecord : gmap string json :=
  <["gap_fill_prompt" := JStr "I read a ___."]>
    (<["one_word_arabic" := JStr "kitab"]>
       (<["multiple_choice" := sampleChoice]> ∅)).

(** A record with both scheduling fields. *)
Definition savedRecord : gmap string json :=
  <["srs_level" := JNum 3]> (<["next_review_date" := JNum 777]> oldRecord).

(** Records whose [multiple_choice] has no [options] array. *)
Definition brokenOldRecord : gmap string json :=
  <["multiple_choice" := JObj (<["correct_answer" := JStr "book"]> ∅)]>
    oldRecord.

Definition brokenSavedRecord : gmap string json :=
  <["multiple_choice" := JObj (<["correct_answer" := JStr "book"]> ∅)]>
    savedRecord.

(** An item as it is stored: [w] under [word], [records] under
    [meanings]. *)
Definition storedItem (w : json) (records : list json) : gmap string json :=
  <["id" := JStr "1700000000001"]>
    (<["word" := w]> (<["meanings" := JArr records]> ∅)).

Definition storedList : list json :=
  [ JObj (storedItem (JStr "book") [JObj savedRecord; JObj oldRecord]) ].


(** ** Outcomes over time *)

(** The numbers of correct and of incorrect outcomes in a history. *)
Definition correctAnswers (history : list (bool * Z)) : Z :=
  Z.of_nat (length (List.filter (fun o => fst o) history)).

Definition incorrectAnswers (history : list (bool * Z)) : Z :=
  Z.of_nat (length (List.filter (fun o => negb (fst o)) history)).

(** The list [setVocabList] stores after an outcome, read at the
    declared type [VocabData[]]. *)
Definition nextVocabList (wordId : string) (meaningIndex : nat)
    (isCorrect : bool) (clock : nat -> Z) (currentList : list VocabData)
    : option (list VocabData) :=
  mapM asVocabData
    (handleQuizComplete wordId meaningIndex isCorrect clock currentList).

(** An item with the meaning at [meaningIndex] replaced. *)
Definition withMeaning (item : VocabData) (meaningIndex : nat) (m : Meaning)
    : VocabData :=
  {| id := id item; word := word item;
     meanings := <[meaningIndex := m]> (meanings item) |}.

(** ** Saving the list to localStorage *)

(** [JSON.stringify] writes [NaN] as [null]. *)
Definition encodeNumber (n : number) : json :=
  match n with
  | Num z => JNum z
  | NaN => JNull
  end.

Definition encodeChoice (mc : MultipleChoice) : json :=
  JObj (<["options" := JArr (JStr <$> options mc)]>
          (<["correct_answer" := JStr (correct_answer mc)]> ∅)).

Definition encodeMeaning (m : Meaning) : json :=
  JObj
    (<["part_of_speech_english" := JStr (part_of_speech_english m)]>
    (<["part_of_speech_arabic" := JStr (part_of_speech_arabic m)]>
    (<["one_word_arabic" := JStr (one_word_arabic m)]>
    (<["explanation_arabic" := JStr (explanation_arabic m)]>
    (<["example_sentence_english" := JStr (example_sentence_english m)]>
    (<["example_sentence_arabic" := JStr (example_sentence_arabic m)]>
    (<["gap_fill_prompt" := JStr (gap_fill_prompt m)]>
    (<["gap_fill_full_sentence" := JStr (gap_fill_full_sentence m)]>
    (<["gap_fill_full_sentence_arabic" :=
         JStr (gap_fill_full_sentence_arabic m)]>
    (<["multiple_choice_prompt" := JStr (multiple_choice_prompt m)]>
    (<["multiple_choice_full_sentence" :=
         JStr (multiple_choice_full_sentence m)]>
    (<["multiple_choice_full_sentence_arabic" :=
         JStr (multiple_choice_full_sentence_arabic m)]>
    (<["multiple_choice" := encodeChoice (multiple_choice m)]>
    (<["srs_level" := JNum (srs_level m)]>
    (<["next_review_date" := encodeNumber (next_review_date m)]>
       ∅))))))))))))))).

Definition encodeItem (item : VocabData) : json :=
  JObj (<["id" := JStr (id item)]>
          (<["word" := JStr (word item)]>
             (<["meanings" := JArr (encodeMeaning <$> meanings item)]> ∅))).

(** What [JSON.parse] reads back from what the save effect wrote,
    [JSON.stringify(vocabList)]. *)
Definition savedList (vocabList : list VocabData) : json :=
  JArr (encodeItem <$> vocabList).

(** The load effect on the parsed value: [None] when it is not an array
    and the list is left as it is. *)
Definition loadList (clock : nat -> nat -> Z) (parsedData : json)
    : option (list json) :=
  match parsedData with
  | JArr parsedList => Some (migratedList clock parsedList)
  | _ => None
  end.

(** A meaning as the loaded list holds it: accepted by the guards and
    with both scheduling fields. *)
Definition loadedMeaning (m : json) : Prop :=
  rejected m = false ∧
  ∃ o, m = JObj o ∧ hasKey "srs_level" o = true
       ∧ hasKey "next_review_date" o = true.

Definition loadedItem (item : json) : Prop :=
  keepItem item = true ∧
  ∃ o ms, item = JObj o ∧ o !! "meanings" = Some (JArr ms) ∧
          ms ≠ [] ∧ Forall loadedMeaning ms.

(** ** [validateApiResponse]

    The response of the content service, parsed.  The function patches
    the [options] arrays in place and returns the value it was given;
    the model returns, for each meaning of the response, the meaning
    together with its [options] array as it is after the call (or
    nothing where the function does not touch the meaning).  An element
    of a patched array can be [undefined], when the response has no
    [correct_answer]. *)

Inductive ApiError : Type :=
  | MissingMeanings
  | PropertyOfNull.

(** SameValueZero, by which [includes] compares.  An object or array is
    the same as itself only, and the nodes of a parsed value are
    pairwise distinct. *)
Definition sameValueZero (a b : option json) : bool :=
  match a, b with
  | None, None => true
  | Some JNull, Some JNull => true
  | Some (JBool x), Some (JBool y) => bool_decide (x = y)
  | Some (JNum x), Some (JNum y) => x =? y
  | Some (JStr x), Some (JStr y) => bool_decide (x = y)
  | _, _ => false
  end.

Definition includes (arr : list (option json)) (x : option json) : bool :=
  existsb (sameValueZero x) arr.

(** [arr[arr.length - 1] = x].  On the empty array the index is -1,
    which names a property of the array, not an element. *)
Definition assignLast (arr : list (option json)) (x : option json)
    : list (option json) :=
  match length arr with
  | O => arr
  | S n => <[n := x]> arr
  end.

Definition fixOptions (options : list json) (correct_answer : option json)
    : list (option json) :=
  let arr := Some <$> options in
  if negb (includes arr correct_answer) then assignLast arr correct_answer
  else arr.

(** The callback of [data.meanings.forEach]. *)
Definition validateMeaning (meaning : json)
    : ApiError + option (list (option json)) :=
  if isNull (Some meaning) then inl PropertyOfNull
  else
    let mc := prop (Some meaning) "multiple_choice" in
    if negb (falsy mc) && isArray (prop mc "options") then
      match prop mc "options" with
      | Some (JArr options) =>
          inr (Some (fixOptions options (prop mc "correct_answer")))
      | _ => inr None
      end
    else inr None.

Fixpoint validateMeanings (meanings : list json)
    : ApiError + list (json * option (list (option json))) :=
  match meanings with
  | [] => inr []
  | meaning :: rest =>
      match validateMeaning meaning with
      | inl e => inl e
      | inr fixed =>
          match validateMeanings rest with
          | inl e => inl e
          | inr done => inr ((meaning, fixed) :: done)
          end
      end
  end.

Definition validateApiResponse (data : json)
    : ApiError + list (json * option (list (option json))) :=
  if falsy (Some data) || negb (isArray (prop (Some data) "meanings")) then
    inl MissingMeanings
  else
    match prop (Some data) "meanings" with
    | Some (JArr meanings) => validateMeanings meanings
    | _ => inl MissingMeanings
    end.

Definition isPrimitive (v : option json) : bool :=
  match v with
  | Some (JArr _) | Some (JObj _) => false
  | _ => true
  end.

(** ** The multiple-choice quiz *)

(** [handleMcClick] and [handleAnswer]:
    [option === meaning.multiple_choice.correct_answer] *)
Definition mcIsCorrect (meaning : Meaning) (option : string) : bool :=
  bool_decide (option = correct_answer (multiple_choice meaning)).

Definition randomCompare {A : Type} (draws : nat -> Z) (a b : A) (k : nat)
    : Z * nat :=
  (draws k, S k).

(** The options as [MultipleChoiceQuiz] shows them:
    [[...meaning.multiple_choice.options].sort(() => Math.random() - 0.5)] *)
Definition displayedOptions (draws : nat -> Z) (meaning : Meaning)
    : list string :=
  fst (sortArray (randomCompare draws) (options (multiple_choice meaning)) 0%nat).

(** ** [fetchVocabData]: adding the word

    What follows the validation of the response.  [meanings] is
    [vocabData.meanings] at the type the code gives it; [created] is the
    reading of [Date.now()] for the id and [clock j] the reading for
    the meaning of index [j]. *)

Inductive LearnError : Type :=
  | NoDefinition (wordToLearn : string).

Definition newVocab (created : Z) (clock : nat -> Z) (wordToLearn : string)
    (meanings : list Meaning) : VocabData :=
  {| id := pretty created;
     word := wordToLearn;
     meanings := imap (fun j m => setSrs m 0 (Num (clock j))) meanings |}.

(** The list after [setVocabList(prev => [newVocab, ...prev])], or the
    error thrown when the response has no meaning. *)
Definition addLearned (created : Z) (clock : nat -> Z) (wordToLearn : string)
    (meanings : list Meaning) (prev : list VocabData)
    : LearnError + list VocabData :=
  if (length meanings =? 0)%nat then inl (NoDefinition wordToLearn)
  else inr (newVocab created clock wordToLearn meanings :: prev).

(** ** [handleLearnWord], second version

    [trim] and [toLowerCase] are the string methods of the language;
    nothing is assumed of them. *)

Inductive LearnAction : Type :=
  | Ignore
  | ShowExisting (existingEntry : VocabData)
  | Fetch (wordToLearn : string).

(** A request to learn a word: the text of the input, the readings of
    the clock and the meanings the service answers with. *)
Record LearnRequest : Type := mkLearnRequest {
  lr_word : string;
  lr_created : Z;
  lr_clock : nat -> Z;
  lr_meanings : list Meaning
}.

Section LearnWord.
Variables trim toLowerCase : string -> string.

Definition handleLearnWord (word0 : string) (vocabList : list VocabData)
    : LearnAction :=
  let wordToLearn := toLowerCase (trim word0) in
  if bool_decide (wordToLearn = "") then Ignore
  else
    match List.find
            (fun item => bool_decide (toLowerCase (word item) = wordToLearn))
            vocabList with
    | Some existingEntry => ShowExisting existingEntry
    | None => Fetch (trim word0)
    end.

(** The list once the request has been answered with [meanings]:
    [vocabList] is the list when the button was pressed, [prev] the
    list when the answer arrives. *)
Definition learnWord (word0 : string) (vocabList : list VocabData)
    (created : Z) (clock : nat -> Z) (meanings : list Meaning)
    (prev : list VocabData) : list VocabData :=
  match handleLearnWord word0 vocabList with
  | Fetch wordToLearn =>
      match addLearned created clock wordToLearn meanings prev with
      | inr newList => newList
      | inl _ => prev
      end
  | _ => prev
  end.

(** Requests made one after another, each answered before the next is
    made: the input and the button are disabled while a request is
    under way. *)
Definition learnAll (requests : list LearnRequest)
    (vocabList : list VocabData) : list VocabData :=
  foldl (fun l rq =>
           learnWord (lr_word rq) l (lr_created rq) (lr_clock rq)
             (lr_meanings rq) l)
    vocabList requests.
End LearnWord.

(** A list in which a word occurs twice. *)
Definition twiceBook : list VocabData :=
  [ {| id := "1700000000001"; word := "book";
       meanings := [sampleMeaning 2 (Num 500)] |};
    {| id := "1700000000002"; word := "book";
       meanings := [sampleMeaning 0 (Num 2000)] |} ].

(** ** [ReviewSession], second version *)

Record SessionState : Type := mkSessionState {
  currentIndex : nat;
  correctCount : nat;
  isSessionComplete : bool
}.

Definition sessionStart : SessionState :=
  {| currentIndex := 0; correctCount := 0; isSessionComplete := false |}.

(** [handleNext]: the call of [onQuizComplete] it makes and the state
    once the timer has fired.  There is no result when [currentItem] is
    [undefined]: reading its [wordId] throws. *)
Definition handleNext (items : list ReviewItem) (isCorrect : bool)
    (st : SessionState) : option ((string * nat * bool) * SessionState) :=
  match items !! currentIndex st with
  | None => None
  | Some currentItem =>
      let more :=
        Z.of_nat (currentIndex st) <? Z.of_nat (length items) - 1 in
      Some ((r_wordId currentItem, r_meaningIndex currentItem, isCorrect),
            {| currentIndex :=
                 if more then S (currentIndex st) else currentIndex st;
               correctCount :=
                 if isCorrect then S (correctCount st) else correctCount st;
               isSessionComplete :=
                 if more then isSessionComplete st else true |})
  end.

(** A run of the session: one answer per quiz shown.  No quiz is shown
    once the session is complete. *)
Fixpoint runSession (items : list ReviewItem) (answers : list bool)
    (st : SessionState) : option (list (string * nat * bool) * SessionState) :=
  match answers with
  | [] => Some ([], st)
  | isCorrect :: rest =>
      if isSessionComplete st then None
      else
        match handleNext items isCorrect st with
        | None => None
        | Some (call, st1) =>
            match runSession items rest st1 with
            | None => None
            | Some (calls, st2) => Some (call :: calls, st2)
            end
        end
  end.

(** The call [onQuizComplete(currentItem.wordId, currentItem.meaningIndex,
    isCorrect)]. *)
Definition reportOf (r : ReviewItem) (isCorrect : bool) : string * nat * bool :=
  (r_wordId r, r_meaningIndex r, isCorrect).

(** ** [handleExport]: the word list as CSV *)

Definition quoteChar : ascii := "034"%char.
Definition LF : ascii := "010"%char.
Definition CR : ascii := "013"%char.
Definition comma : ascii := ","%char.

(** [replace] of every quote by two quotes. *)
Fixpoint doubleQuotes (s : string) : string :=
  match s with
  | EmptyString => EmptyString
  | String c rest =>
      if Ascii.eqb c quoteChar
      then String quoteChar (String quoteChar (doubleQuotes rest))
      else String c (doubleQuotes rest)
  end.

(** [replace] of every line break by one space: the pair [\r\n] is
    tried first, then [\n], then [\r]. *)
Fixpoint newlinesToSpaces (s : string) : string :=
  match s with
  | EmptyString => EmptyString
  | String c rest =>
      if Ascii.eqb c CR then
        match rest with
        | String c' rest' =>
            if Ascii.eqb c' LF then String " " (newlinesToSpaces rest')
            else String " " (newlinesToSpaces rest)
        | EmptyString => String " " EmptyString
        end
      else if Ascii.eqb c LF then String " " (newlinesToSpaces rest)
      else String c (newlinesToSpaces rest)
  end.

(** The template that puts a string between two quotes. *)
Definition inQuotes (s : string) : string :=
  String quoteChar (s ++ String quoteChar EmptyString).

(** [sanitizeField] of the first version, on a string. *)
Definition sanitizeField (field : string) : string :=
  inQuotes (newlinesToSpaces (doubleQuotes field)).

(** [parts.join(sep)] *)
Fixpoint join (sep : string) (parts : list string) : string :=
  match parts with
  | [] => EmptyString
  | [x] => x
  | x :: rest => x ++ sep ++ join sep rest
  end.

Definition headersV1 : list string :=
  ["English Word"; "Part of Speech (EN)"; "Arabic Meaning";
   "Arabic Explanation"].

(** [csvRows], first version. *)
Definition csvRowsV1 (vocabList : list VocabData) : list string :=
  join "," headersV1
  :: (vocabList ≫= fun item =>
        (fun meaning =>
           join ","
             [ sanitizeField (word item);
               sanitizeField (part_of_speech_english meaning);
               sanitizeField (one_word_arabic meaning);
               sanitizeField (explanation_arabic meaning) ])
          <$> meanings item).

(** [csvContent], first version: [csvRows.join('\n')]. *)
Definition csvContentV1 (vocabList : list VocabData) : string :=
  join (String LF EmptyString) (csvRowsV1 vocabList).

Definition headersV2 : list string :=
  ["Word"; "Part of Speech"; "Arabic Translation"; "Arabic Explanation";
   "Example (English)"; "Example (Arabic)"].

Definition CRLF : string := String CR (String LF EmptyString).

(** The second version: after the prefix [data:text/csv;charset=utf-8,]
    come the header line and one line per meaning, each ended by
    [\r\n].  The first three fields are put in quotes as they are; in
    the last three the quotes are doubled. *)
Definition csvLineV2 (item : VocabData) (m : Meaning) : string :=
  join ","
    [ inQuotes (word item);
      inQuotes (part_of_speech_english m);
      inQuotes (one_word_arabic m);
      inQuotes (doubleQuotes (explanation_arabic m));
      inQuotes (doubleQuotes (example_sentence_english m));
      inQuotes (doubleQuotes (example_sentence_arabic m)) ]
  ++ CRLF.

Definition headerLineV2 : string :=
  "Word,Part of Speech,Arabic Translation,Arabic Explanation,Example (English),Example (Arabic)"
  ++ CRLF.

Definition csvBodyV2 (vocabList : list VocabData) : string :=
  headerLineV2
  ++ foldr String.append EmptyString
       (vocabList ≫= fun item => csvLineV2 item <$> meanings item).

Definition csvContentV2 (vocabList : list VocabData) : string :=
  "data:text/csv;charset=utf-8," ++ csvBodyV2 vocabList.

(** *** [encodeURI]

    A string stands for its UTF-8 bytes.  [encodeURI] leaves the
    letters, the digits and the marks [; / ? : @ & = + $ , - _ . ! ~ *
    ( ) #] and the apostrophe as they are, and writes every other byte
    as a percent sign and two upper-case hexadecimal digits. *)

Definition hashChar : ascii := "#"%char.

Definition uriKept (c : ascii) : bool :=
  let n := N_of_ascii c in
  ((65 <=? n) && (n <=? 90))%N
  || ((97 <=? n) && (n <=? 122))%N
  || ((48 <=? n) && (n <=? 57))%N
  || existsb (Ascii.eqb c)
       [ ";"; "/"; "?"; ":"; "@"; "&"; "="; "+"; "$"; ","; "-"; "_"; ".";
         "!"; "~"; "*"; "'"; "("; ")"; "#" ]%char.

Definition hexDigit (n : N) : ascii :=
  ascii_of_N (if (n <? 10)%N then 48 + n else 55 + n)%N.

Definition encodeChar (c : ascii) : string :=
  if uriKept c then String c EmptyString
  else String "%" (String (hexDigit (N_of_ascii c / 16))
                     (String (hexDigit (N_of_ascii c mod 16)) EmptyString)).

Fixpoint encodeURI (s : string) : string :=
  match s with
  | EmptyString => EmptyString
  | String c rest => encodeChar c ++ encodeURI rest
  end.

(** [encodedUri], the [href] of the link that is clicked. *)
Definition encodedUri (vocabList : list VocabData) : string :=
  encodeURI (csvContentV2 vocabList).

(** *** Reading a [data:] URL

    What is downloaded from a [data:] URL: the fragment, which starts
    at the first [#], is not part of it; the body is what follows the
    first comma, with every percent sign followed by two hexadecimal
    digits read as one byte. *)

Definition hexValue (c : ascii) : option N :=
  let n := N_of_ascii c in
  if ((48 <=? n) && (n <=? 57))%N then Some (n - 48)%N
  else if ((65 <=? n) && (n <=? 70))%N then Some (n - 55)%N
  else if ((97 <=? n) && (n <=? 102))%N then Some (n - 87)%N
  else None.

Fixpoint percentDecode (s : string) : string :=
  match s with
  | EmptyString => EmptyString
  | String c rest =>
      if Ascii.eqb c "%" then
        match rest with
        | String h (String l rest') =>
            match hexValue h, hexValue l with
            | Some x, Some y =>
                String (ascii_of_N (16 * x + y)) (percentDecode rest')
            | _, _ => String c (percentDecode rest)
            end
        | _ => String c (percentDecode rest)
        end
      else String c (percentDecode rest)
  end.

Fixpoint beforeFragment (s : string) : string :=
  match s with
  | EmptyString => EmptyString
  | String c rest =>
      if Ascii.eqb c hashChar then EmptyString
      else String c (beforeFragment rest)
  end.

Fixpoint afterComma (s : string) : option string :=
  match s with
  | EmptyString => None
  | String c rest => if Ascii.eqb c comma then Some rest else afterComma rest
  end.

Definition dataUrlBody (url : string) : option string :=
  match url with
  | String "d" (String "a" (String "t" (String "a" (String ":" rest)))) =>
      percentDecode <$> afterComma (beforeFragment rest)
  | _ => None
  end.

(** *** Reading CSV

    A reader of the format the export aims at: records separated by
    line breaks ([\n] or [\r\n]), fields by commas; a field is plain or
    in quotes, and in quotes a quote is written twice.  The records are
    built from the right: each state returns the records of the rest of
    the text, the first field of the first record being the rest of the
    field under way. *)

Inductive CsvState : Type :=
  | RecordStart
  | FieldStart
  | InPlain
  | InQuoted
  | AfterQuote
  | AfterCR.

Definition addChar (c : ascii) (records : list (list string))
    : list (list string) :=
  match records with
  | (field :: fields) :: rest => (String c field :: fields) :: rest
  | [] :: rest => [String c EmptyString] :: rest
  | [] => [[String c EmptyString]]
  end.

Definition newField (records : list (list string)) : list (list string) :=
  match records with
  | fields :: rest => (EmptyString :: fields) :: rest
  | [] => [[EmptyString; EmptyString]]
  end.

Definition endRecord (records : list (list string)) : list (list string) :=
  [EmptyString] :: records.

Fixpoint parseCsv (st : CsvState) (s : string)
    : option (list (list string)) :=
  match s with
  | EmptyString =>
      match st with
      | RecordStart => Some []
      | FieldStart | InPlain | AfterQuote => Some [[EmptyString]]
      | InQuoted | AfterCR => None
      end
  | String c rest =>
      match st with
      | RecordStart | FieldStart =>
          if Ascii.eqb c quoteChar then parseCsv InQuoted rest
          else if Ascii.eqb c comma then newField <$> parseCsv FieldStart rest
          else if Ascii.eqb c LF then endRecord <$> parseCsv RecordStart rest
          else if Ascii.eqb c CR then parseCsv AfterCR rest
          else addChar c <$> parseCsv InPlain rest
      | InPlain =>
          if Ascii.eqb c quoteChar then None
          else if Ascii.eqb c comma then newField <$> parseCsv FieldStart rest
          else if Ascii.eqb c LF then endRecord <$> parseCsv RecordStart rest
          else if Ascii.eqb c CR then parseCsv AfterCR rest
          else addChar c <$> parseCsv InPlain rest
      | InQuoted =>
          if Ascii.eqb c quoteChar then parseCsv AfterQuote rest
          else addChar c <$> parseCsv InQuoted rest
      | AfterQuote =>
          if Ascii.eqb c quoteChar then addChar c <$> parseCsv InQuoted rest
          else if Ascii.eqb c comma then newField <$> parseCsv FieldStart rest
          else if Ascii.eqb c LF then endRecord <$> parseCsv RecordStart rest
          else if Ascii.eqb c CR then parseCsv AfterCR rest
          else None
      | AfterCR =>
          if Ascii.eqb c LF then endRecord <$> parseCsv RecordStart rest
          else None
      end
  end.

Definition readCsv (s : string) : option (list (list string)) :=
  parseCsv RecordStart s.

(** The records the first version writes, as a reader should find
    them. *)
Definition recordsV1 (vocabList : list VocabData) : list (list string) :=
  headersV1
  :: (vocabList ≫= fun item =>
        (fun meaning =>
           [ newlinesToSpaces (word item);
             newlinesToSpaces (part_of_speech_english meaning);
             newlinesToSpaces (one_word_arabic meaning);
             newlinesToSpaces (explanation_arabic meaning) ])
          <$> meanings item).

Definition recordsV2 (vocabList : list VocabData) : list (list string) :=
  headersV2
  :: (vocabList ≫= fun item =>
        (fun m =>
           [ word item; part_of_speech_english m; one_word_arabic m;
             explanation_arabic m; example_sentence_english m;
             example_sentence_arabic m ])
          <$> meanings item).

Fixpoint hasQuote (s : string) : bool :=
  match s with
  | EmptyString => false
  | String c rest => Ascii.eqb c quoteChar || hasQuote rest
  end.

(** The three fields the second version writes as they are. *)
Definition rawFieldsQuoteFree (item : VocabData) : Prop :=
  hasQuote (word item) = false
  ∧ Forall (fun m =>
      hasQuote (part_of_speech_english m) = false
      ∧ hasQuote (one_word_arabic m) = false) (meanings item).

Fixpoint hasHash (s : string) : bool :=
  match s with
  | EmptyString => false
  | String c rest => Ascii.eqb c hashChar || hasHash rest
  end.

(** The six fields the second version exports. *)
Definition exportedFieldsHashFree (item : VocabData) : Prop :=
  hasHash (word item) = false
  ∧ Forall (fun m =>
      hasHash (part_of_speech_english m) = false
      ∧ hasHash (one_word_arabic m) = false
      ∧ hasHash (explanation_arabic m) = false
      ∧ hasHash (example_sentence_english m) = false
      ∧ hasHash (example_sentence_arabic m) = false) (meanings item).

Fixpoint addString (t : string) (records : list (list string))
    : list (list string) :=
  match t with
  | EmptyString => records
  | String c rest => addChar c (addString rest records)
  end.

(** A field body between quotes and the field it is read as. *)
Definition quotedCode (body val : string) : Prop :=
  ∀ s, parseCsv InQuoted (body ++ String quoteChar s)
       = addString val <$> parseCsv AfterQuote s.

Definition plainChar (c : ascii) : bool :=
  negb (Ascii.eqb c quoteChar) && negb (Ascii.eqb c comma)
  && negb (Ascii.eqb c LF) && negb (Ascii.eqb c CR).

Fixpoint isPlain (s : string) : bool :=
  match s with
  | EmptyString => true
  | String c rest => plainChar c && isPlain rest
  end.

(** A written field and the field it is read as, the reader being left
    in state [endSt]. *)
Definition fieldCode (endSt : CsvState) (enc val : string) : Prop :=
  ∀ st s,
    st = RecordStart ∨ st = FieldStart ->
    parseCsv st (enc +:+ s) = addString val <$> parseCsv endSt s.

(** A written row and the record it is read as, whatever follows. *)
Definition rowCode (row : string) (vals : list string) : Prop :=
  ∀ st tail recs,
    st = RecordStart ∨ st = FieldStart ->
    parseCsv AfterQuote tail = Some ([EmptyString] :: recs) ->
    parseCsv st (row ++ tail) = Some (vals :: recs).

Fixpoint hasLineBreak (s : string) : bool :=
  match s with
  | EmptyString => false
  | String c rest => Ascii.eqb c CR || Ascii.eqb c LF || hasLineBreak rest
  end.

(** A text with quotes, a comma and a line break. *)
Definition trickyText : string :=
  "say " +:+ String quoteChar ("hi" +:+ String quoteChar
    (", then" +:+ String CR (String LF "go"))).

Definition csvSampleMeaning : Meaning :=
  {| part_of_speech_english := "Noun";
     part_of_speech_arabic := "ism";
     one_word_arabic := "kitab";
     explanation_arabic := trickyText;
     example_sentence_english := trickyText;
     example_sentence_arabic := "mithal";
     gap_fill_prompt := "I read a ___.";
     gap_fill_full_sentence := "I read a book.";
     gap_fill_full_sentence_arabic := "jumla";
     multiple_choice_prompt := "She bought a ___.";
     multiple_choice_full_sentence := "She bought a book.";
     multiple_choice_full_sentence_arabic := "jumla";
     multiple_choice :=
       {| options := ["book"; "car"; "tree"; "house"];
          correct_answer := "book" |};
     srs_level := 0;
     next_review_date := Num 0 |}.

Definition csvSampleList : list VocabData :=
  [ {| id := "1"; word := "book";
       meanings := [sampleMeaning 2 (Num 500); csvSampleMeaning] |};
    {| id := "2"; word := "pen"; meanings := [csvSampleMeaning] |} ].

(** A word with a hash sign in it. *)
Definition hashWordList : list VocabData :=
  [ {| id := "1"; word := "c#";
       meanings := [sampleMeaning 0 (Num 0)] |} ].

(** A word with a quote in it. *)
Definition quotedWordList : list VocabData :=
  [ {| id := "1"; word := "o" +:+ String quoteChar "clock";
       meanings := [sampleMeaning 0 (Num 0)] |} ].
(** * Properties *)

(** ** The update of one meaning *)

Example recordOutcome_level2_correct :
  let r := recordOutcome true 1000 (sampleMeaning 2 (Num 0)) in
  srs_level r = 3 /\ next_review_date r = Num (1000 + 24 * 3600000).
Proof. split; reflexivity. Qed.

Example recordOutcome_level3_incorrect :
  let r := recordOutcome false 1000 (sampleMeaning 3 (Num 0)) in
  srs_level r = 2 /\ next_review_date r = Num (1000 + 300000).
Proof. split; reflexivity. Qed.

(** Below level 0 the table is indexed at a negative position: the
    interval is [undefined] and the date becomes [NaN]. *)
Example recordOutcome_negative_level :
  let r := recordOutcome true 1000 (sampleMeaning (-1) (Num 0)) in
  srs_level r = 0 /\ next_review_date r = NaN.
Proof. split; reflexivity. Qed.

Lemma maxLevel_eq : maxLevel = 8.
Proof. reflexivity. Qed.

(** Every level the correct branch can produce from a valid level has
    an entry in the table. *)
Lemma interval_defined (lvl : Z) :
  1 <= lvl <= maxLevel ->
  exists hours, arrayGet srsIntervalsHours (lvl - 1) = Some hours /\ 0 < hours.
Proof.
  rewrite maxLevel_eq. intros Hl.
  assert (Hcases : lvl = 1 \/ lvl = 2 \/ lvl = 3 \/ lvl = 4 \/ lvl = 5
                   \/ lvl = 6 \/ lvl = 7 \/ lvl = 8) by lia.
  destruct Hcases as [-> | [-> | [-> | [-> | [-> | [-> | [-> | ->]]]]]]];
    eexists; (split; [reflexivity | lia]).
Qed.

Lemma recordOutcome_correct_level (m : Meaning) (now : Z) :
  srs_level (recordOutcome true now m) = Z.min (srs_level m + 1) maxLevel.
Proof. reflexivity. Qed.

Lemma recordOutcome_incorrect_level (m : Meaning) (now : Z) :
  srs_level (recordOutcome false now m) = Z.max 0 (srs_level m - 1).
Proof. reflexivity. Qed.

Lemma recordOutcome_correct_date (m : Meaning) (now : Z) :
  next_review_date (recordOutcome true now m) =
  nadd (Num now)
    (nmul (nmul (nmul
       (toNumber (arrayGet srsIntervalsHours
                    (srs_level (recordOutcome true now m) - 1)))
       (Num 60)) (Num 60)) (Num 1000)).
Proof. reflexivity. Qed.

Lemma recordOutcome_incorrect_date (m : Meaning) (now : Z) :
  next_review_date (recordOutcome false now m) = Num (now + 5 * 60 * 1000).
Proof. reflexivity. Qed.

Lemma correct_date_in_range (m : Meaning) (now : Z) :
  0 <= srs_level m <= maxLevel ->
  exists hours,
    arrayGet srsIntervalsHours (srs_level (recordOutcome true now m) - 1)
      = Some hours /\
    0 < hours /\
    next_review_date (recordOutcome true now m)
      = Num (now + hours * 60 * 60 * 1000).
Proof.
  intros Hrange. pose proof maxLevel_eq as Hmax.
  destruct (interval_defined (Z.min (srs_level m + 1) maxLevel))
    as (hours & Hget & Hpos); [lia |].
  exists hours. rewrite recordOutcome_correct_level.
  split; [exact Hget | split; [exact Hpos |]].
  rewrite recordOutcome_correct_date, recordOutcome_correct_level, Hget.
  reflexivity.
Qed.

(** One outcome keeps a valid level valid. *)
Lemma range_step (m : Meaning) (isCorrect : bool) (now : Z) :
  levelInRange m -> levelInRange (recordOutcome isCorrect now m).
Proof.
  unfold levelInRange. intros Hrange. pose proof maxLevel_eq as Hmax.
  destruct isCorrect.
  - rewrite recordOutcome_correct_level. lia.
  - rewrite recordOutcome_incorrect_level. lia.
Qed.

(** One outcome on a valid level sets a due date in the future. *)
Lemma date_step (m : Meaning) (isCorrect : bool) (now : Z) :
  levelInRange m ->
  exists due, next_review_date (recordOutcome isCorrect now m) = Num due /\
              now < due.
Proof.
  intros Hrange. destruct isCorrect.
  - destruct (correct_date_in_range m now Hrange) as (h & _ & Hpos & Hd).
    exists (now + h * 60 * 60 * 1000). split; [exact Hd | lia].
  - rewrite recordOutcome_incorrect_date.
    eexists. split; [reflexivity | lia].
Qed.

(** C1.  For a meaning whose level lies in [0, maxLevel], a correct
    outcome at time [now] gives level [min (level + 1) maxLevel], and a
    due date of [now] plus the table entry of the new level (entry
    [level' - 1], in hours) exactly; at [maxLevel] the level stays at
    [maxLevel]. *)
Theorem recordOutcome_correct (m : Meaning) (now : Z) :
  0 <= srs_level m <= maxLevel ->
  srs_level (recordOutcome true now m) = Z.min (srs_level m + 1) maxLevel /\
  (exists hours,
      arrayGet srsIntervalsHours (srs_level (recordOutcome true now m) - 1)
        = Some hours /\
      next_review_date (recordOutcome true now m)
        = Num (now + hours * 60 * 60 * 1000)) /\
  (srs_level m = maxLevel -> srs_level (recordOutcome true now m) = maxLevel).
Proof.
  intros Hrange.
  split; [apply recordOutcome_correct_level | split].
  - destruct (correct_date_in_range m now Hrange) as (hours & Hget & _ & Hd).
    exists hours. split; [exact Hget | exact Hd].
  - intros Hmax. rewrite recordOutcome_correct_level, Hmax.
    apply Z.min_r. lia.
Qed.

Lemma recordOutcome_correct_witness :
  srs_level (recordOutcome true 1000 (sampleMeaning 8 (Num 0)))
    = Z.min (8 + 1) maxLevel /\
  (exists hours,
      arrayGet srsIntervalsHours
        (srs_level (recordOutcome true 1000 (sampleMeaning 8 (Num 0))) - 1)
        = Some hours /\
      next_review_date (recordOutcome true 1000 (sampleMeaning 8 (Num 0)))
        = Num (1000 + hours * 60 * 60 * 1000)) /\
  (8 = maxLevel ->
   srs_level (recordOutcome true 1000 (sampleMeaning 8 (Num 0))) = maxLevel).
Proof.
  apply (recordOutcome_correct (sampleMeaning 8 (Num 0)) 1000).
  simpl. rewrite maxLevel_eq. lia.
Defined.

(** C2.  For a meaning whose level lies in [0, maxLevel], an incorrect
    outcome at time [now] gives level [max (level - 1) 0] and a due
    date of [now] plus five minutes, whatever the level; at level 0 the
    level stays 0. *)
Theorem recordOutcome_incorrect (m : Meaning) (now : Z) :
  0 <= srs_level m <= maxLevel ->
  srs_level (recordOutcome false now m) = Z.max (srs_level m - 1) 0 /\
  next_review_date (recordOutcome false now m) = Num (now + 5 * 60 * 1000) /\
  (srs_level m = 0 -> srs_level (recordOutcome false now m) = 0).
Proof.
  intros _.
  rewrite recordOutcome_incorrect_level, recordOutcome_incorrect_date.
  split; [apply Z.max_comm | split; [reflexivity |]].
  intros ->. reflexivity.
Qed.

Lemma recordOutcome_incorrect_witness :
  srs_level (recordOutcome false 1000 (sampleMeaning 0 (Num 0)))
    = Z.max (0 - 1) 0 /\
  next_review_date (recordOutcome false 1000 (sampleMeaning 0 (Num 0)))
    = Num (1000 + 5 * 60 * 1000) /\
  (0 = 0 -> srs_level (recordOutcome false 1000 (sampleMeaning 0 (Num 0))) = 0).
Proof.
  apply (recordOutcome_incorrect (sampleMeaning 0 (Num 0)) 1000).
  simpl. rewrite maxLevel_eq. lia.
Defined.

(** Each branch clamps on one side only, so the range is kept, not
    restored: from level 10, a level the program never writes, the
    incorrect branch returns level 9, above [maxLevel]. *)
Lemma recordOutcome_level_escapes :
  srs_level (recordOutcome false 1000 (sampleMeaning 10 (Num 0))) = 9 /\
  ~ (0 <= srs_level (recordOutcome false 1000 (sampleMeaning 10 (Num 0)))
     <= maxLevel).
Proof.
  split; [reflexivity |].
  simpl. rewrite maxLevel_eq. lia.
Qed.

(** One outcome keeps the range: for a meaning whose level lies in
    [0, maxLevel], after either outcome the level lies in [0, maxLevel]
    again, and the due date has been set to a timestamp later than
    [now]. *)
Theorem recordOutcome_preserves_range (m : Meaning) (isCorrect : bool)
    (now : Z) :
  levelInRange m ->
  levelInRange (recordOutcome isCorrect now m) /\
  exists due, next_review_date (recordOutcome isCorrect now m) = Num due /\
              now < due.
Proof.
  intros Hrange. split.
  - by apply range_step.
  - by apply date_step.
Qed.

Lemma recordOutcome_preserves_range_witness :
  levelInRange (recordOutcome true 1000 (sampleMeaning 2 (Num 0))) /\
  exists due,
    next_review_date (recordOutcome true 1000 (sampleMeaning 2 (Num 0)))
      = Num due /\ 1000 < due.
Proof.
  apply (recordOutcome_preserves_range (sampleMeaning 2 (Num 0)) true 1000).
  unfold levelInRange. simpl. rewrite maxLevel_eq. lia.
Defined.

(** A meaning created at level 0 and changed by outcomes only is always
    within range, and its due date is always a timestamp. *)
Lemma lifecycle_invariant (m : Meaning) (created : Z)
    (history : list (bool * Z)) :
  levelInRange (afterHistory (setSrs m 0 (Num created)) history) /\
  isTimestamp (next_review_date (afterHistory (setSrs m 0 (Num created)) history)).
Proof.
  assert (Hgen : forall m0, levelInRange m0 -> isTimestamp (next_review_date m0) ->
                   levelInRange (afterHistory m0 history) /\
                   isTimestamp (next_review_date (afterHistory m0 history))).
  { induction history as [| [c t] history IH]; intros m0 Hr Ht; [done |].
    simpl. destruct (date_step m0 c t Hr) as (d & Hd & _).
    apply IH; [by apply range_step | rewrite Hd; exact I]. }
  apply Hgen; [| exact I].
  unfold levelInRange. simpl. rewrite maxLevel_eq. lia.
Qed.

(** C3.  The level of a meaning is always within [0, maxLevel].  A
    meaning is created at level 0, which is in range; either outcome
    takes a level in range to a level in range; so the level is in
    range after any history of outcomes, and after one more call of
    [recordOutcome], whatever the outcome.  That call sets the due date
    to a timestamp later than [now], whether or not the level has
    changed. *)
Theorem masteryLevel_invariant (m : Meaning) (created : Z)
    (history : list (bool * Z)) (isCorrect : bool) (now : Z) :
  levelInRange (setSrs m 0 (Num created)) ∧
  (∀ m0, levelInRange m0 -> levelInRange (recordOutcome isCorrect now m0)) ∧
  levelInRange (afterHistory (setSrs m 0 (Num created)) history) ∧
  levelInRange
    (recordOutcome isCorrect now
       (afterHistory (setSrs m 0 (Num created)) history)) ∧
  ∃ due,
    next_review_date
      (recordOutcome isCorrect now
         (afterHistory (setSrs m 0 (Num created)) history)) = Num due
    ∧ now < due.
Proof.
  destruct (lifecycle_invariant m created history) as [Hrange _].
  split; [| split; [| split; [| split]]].
  - unfold levelInRange. simpl. rewrite maxLevel_eq. lia.
  - intros m0. apply range_step.
  - exact Hrange.
  - by apply range_step.
  - by apply date_step.
Qed.

(** ** Collecting the due meanings *)

Lemma dueOfItem_elem (now : Z) (item : VocabData) (r : ReviewItem) :
  r ∈ dueOfItem now item ↔
  ∃ index meaning,
    meanings item !! index = Some meaning ∧
    isDue now meaning = true ∧
    r = {| r_word := word item; r_meaning := meaning;
           r_meaningIndex := index; r_wordId := id item |}.
Proof.
  unfold dueOfItem. rewrite list_elem_of_omap. split.
  - intros (o & Hin & Ho). apply elem_of_lookup_imap in Hin.
    destruct Hin as (i & m & Heq & Hlook). subst o.
    destruct (isDue now m) eqn:Hdue; [| done].
    injection Ho as <-. by exists i, m.
  - intros (i & m & Hlook & Hdue & ->).
    eexists. split.
    + apply elem_of_lookup_imap. exists i, m. split; [reflexivity | exact Hlook].
    + simpl. by rewrite Hdue.
Qed.

Lemma dueOfItem_length (now : Z) (item : VocabData) :
  length (dueOfItem now item) = length (List.filter (isDue now) (meanings item)).
Proof.
  unfold dueOfItem.
  generalize (word item) (id item). intros w i.
  assert (Hgen : forall (ms : list Meaning) (k : nat),
    length (omap (fun x => x)
              (imap (fun index meaning =>
                       if isDue now meaning
                       then Some {| r_word := w; r_meaning := meaning;
                                    r_meaningIndex := k + index;
                                    r_wordId := i |}
                       else None) ms))
    = length (List.filter (isDue now) ms)).
  { induction ms as [| m ms IH]; intros k; [reflexivity |].
    simpl. destruct (isDue now m); simpl.
    - f_equal. rewrite <- (IH (S k)). f_equal. f_equal.
      apply imap_ext. intros j x _. simpl.
      by replace (k + S j)%nat with (S k + j)%nat by lia.
    - rewrite <- (IH (S k)). f_equal. f_equal.
      apply imap_ext. intros j x _. simpl.
      by replace (k + S j)%nat with (S k + j)%nat by lia. }
  apply (Hgen (meanings item) 0%nat).
Qed.

Lemma isDue_spec (now : Z) (m : Meaning) :
  isDue now m = true ↔ ∃ due, next_review_date m = Num due ∧ due <= now.
Proof.
  unfold isDue, nle. destruct (next_review_date m) as [d |].
  - rewrite Z.leb_le. split; [intros H; by exists d | intros (d' & [= <-] & H); done].
  - split; [done | intros (d' & [=] & _)].
Qed.

Lemma collectDue_elem (vocabList : list VocabData) (now : Z) (r : ReviewItem) :
  r ∈ collectDue vocabList now ↔
  ∃ item index meaning,
    item ∈ vocabList ∧
    meanings item !! index = Some meaning ∧
    isDue now meaning = true ∧
    r = {| r_word := word item; r_meaning := meaning;
           r_meaningIndex := index; r_wordId := id item |}.
Proof.
  unfold collectDue. rewrite list_elem_of_bind. split.
  - intros (item & Hr & Hitem). apply dueOfItem_elem in Hr.
    destruct Hr as (i & m & Hlook & Hdue & ->). by exists item, i, m.
  - intros (item & i & m & Hitem & Hlook & Hdue & ->).
    exists item. split; [| exact Hitem].
    apply dueOfItem_elem. by exists i, m.
Qed.

Lemma collectDue_length (vocabList : list VocabData) (now : Z) :
  length (collectDue vocabList now)
  = sum_list_with
      (fun item => length (List.filter (isDue now) (meanings item)))
      vocabList.
Proof.
  unfold collectDue. induction vocabList as [| item rest IH]; [reflexivity |].
  simpl. rewrite length_app, dueOfItem_length. by f_equal.
Qed.

Lemma isDue_cases (now : Z) (m : Meaning) :
  isDue now m
  = match next_review_date m with
    | Num due => bool_decide (due <= now)
    | NaN => false
    end.
Proof.
  unfold isDue, nle. destruct (next_review_date m) as [d |]; [| done].
  destruct (Z.leb_spec d now).
  - by rewrite bool_decide_eq_true_2.
  - rewrite bool_decide_eq_false_2; [done | lia].
Qed.

Lemma filter_ext_all {A} (f g : A -> bool) (l : list A) :
  (∀ x, f x = g x) -> List.filter f l = List.filter g l.
Proof.
  intros Hfg. induction l as [| x l IH]; [done |].
  simpl. rewrite Hfg, IH. done.
Qed.

(** C4.  A review item is collected exactly when it is the record
    (word, meaning, index, id) of a meaning of some item of the list
    whose due date is a timestamp [due] with [due <= now], the meaning
    due exactly at [now] included; the record of a meaning with
    [now < due] is not collected; one review item is emitted per
    meaning with [due <= now]; and every collected meaning has
    [due <= now]. *)
Theorem collectDue_exact (vocabList : list VocabData) (now : Z) :
  (∀ r : ReviewItem,
     r ∈ collectDue vocabList now ↔
     ∃ item index meaning due,
       item ∈ vocabList ∧
       meanings item !! index = Some meaning ∧
       next_review_date meaning = Num due ∧
       due <= now ∧
       r = {| r_word := word item; r_meaning := meaning;
              r_meaningIndex := index; r_wordId := id item |}) ∧
  (∀ item index meaning due,
     item ∈ vocabList ->
     meanings item !! index = Some meaning ->
     next_review_date meaning = Num due ->
     now < due ->
     {| r_word := word item; r_meaning := meaning;
        r_meaningIndex := index; r_wordId := id item |}
       ∉ collectDue vocabList now) ∧
  length (collectDue vocabList now)
    = sum_list_with
        (fun item =>
           length
             (List.filter
                (fun meaning =>
                   match next_review_date meaning with
                   | Num due => bool_decide (due <= now)
                   | NaN => false
                   end)
                (meanings item)))
        vocabList ∧
  Forall (fun r => ∃ due, next_review_date (r_meaning r) = Num due ∧ due <= now)
    (collectDue vocabList now).
Proof.
  split; [| split; [| split]].
  - intros r. rewrite collectDue_elem. split.
    + intros (item & i & m & Hitem & Hlook & Hdue & ->).
      apply isDue_spec in Hdue as (due & Hdate & Hle).
      by exists item, i, m, due.
    + intros (item & i & m & due & Hitem & Hlook & Hdate & Hle & ->).
      exists item, i, m. repeat split; try done.
      apply isDue_spec. by exists due.
  - intros item i m due Hitem Hlook Hdate Hlater Hin.
    apply collectDue_elem in Hin
      as (item' & i' & m' & _ & _ & Hdue & Heq).
    injection Heq as _ <- _ _.
    apply isDue_spec in Hdue as (due' & Hdate' & Hle).
    rewrite Hdate in Hdate'. injection Hdate' as <-. lia.
  - rewrite collectDue_length.
    induction vocabList as [| item rest IH]; [done |].
    simpl. rewrite IH. f_equal. f_equal.
    apply filter_ext_all. intros m. apply isDue_cases.
  - apply Forall_forall. intros r Hr. apply collectDue_elem in Hr.
    destruct Hr as (item & i & m & _ & _ & Hdue & ->). simpl.
    by apply isDue_spec.
Qed.

(** The badge count agrees with the collection. *)
Lemma wordsForReviewCount_collectDue (vocabList : list VocabData) (now : Z) :
  wordsForReviewCount vocabList now = length (collectDue vocabList now).
Proof.
  rewrite collectDue_length. unfold wordsForReviewCount.
  assert (Hgen : forall acc : nat,
    foldl (fun count item =>
             (count + length (List.filter (isDue now) (meanings item)))%nat)
      acc vocabList
    = (acc + sum_list_with
               (fun item => length (List.filter (isDue now) (meanings item)))
               vocabList)%nat).
  { induction vocabList as [| item rest IH]; intros acc; simpl; [lia |].
    rewrite IH. lia. }
  apply (Hgen 0%nat).
Qed.

(** ** Sorting *)

Section SortFacts.
Context {A St : Type}.
Variable comparefn : A -> A -> St -> Z * St.

(** Whatever the comparator answers, insertion and sorting only
    rearrange. *)
Lemma insertSorted_perm (x : A) (l : list A) (s : St) :
  (insertSorted comparefn x l s).1 ≡ₚ x :: l.
Proof.
  revert s. induction l as [| y rest IH]; intros s; simpl; [done |].
  destruct (comparefn x y s) as [v s1].
  destruct (v <=? 0); simpl; [done |].
  specialize (IH s1). destruct (insertSorted comparefn x rest s1) as [rest' s2].
  simpl in *. rewrite IH. apply perm_swap.
Qed.

Lemma sortArray_perm (l : list A) (s : St) :
  (sortArray comparefn l s).1 ≡ₚ l.
Proof.
  induction l as [| x rest IH]; simpl; [done |].
  destruct (sortArray comparefn rest s) as [rest' s1]. simpl in IH.
  rewrite insertSorted_perm. by rewrite IH.
Qed.
End SortFacts.

Lemma insertSorted_byLevel_cons (x y : ReviewItem) (rest : list ReviewItem) :
  (insertSorted byLevel x (y :: rest) tt).1
  = if levelOf x - levelOf y <=? 0 then x :: y :: rest
    else y :: (insertSorted byLevel x rest tt).1.
Proof.
  simpl. unfold levelOf.
  destruct (srs_level (r_meaning x) - srs_level (r_meaning y) <=? 0); [done |].
  by destruct (insertSorted byLevel x rest tt).
Qed.

Lemma insertSorted_byLevel_sorted (x : ReviewItem) (l : list ReviewItem) :
  StronglySorted levelLe l ->
  StronglySorted levelLe (insertSorted byLevel x l tt).1.
Proof.
  induction 1 as [| y rest Hsorted IH Hall].
  - repeat constructor.
  - rewrite insertSorted_byLevel_cons.
    destruct (levelOf x - levelOf y <=? 0) eqn:Hcmp.
    + apply Z.leb_le in Hcmp. constructor; [by constructor |].
      constructor; [unfold levelLe; lia |].
      eapply Forall_impl; [exact Hall |].
      unfold levelLe. intros z Hz. lia.
    + apply Z.leb_gt in Hcmp.
      constructor; [exact IH |].
      rewrite insertSorted_perm.
      constructor; [unfold levelLe; lia | exact Hall].
Qed.

Lemma prioritized_sorted (dueItems : list ReviewItem) :
  StronglySorted levelLe (prioritized dueItems).
Proof.
  unfold prioritized. induction dueItems as [| x rest IH]; simpl; [constructor |].
  destruct (sortArray byLevel rest tt) as [rest' []]. simpl in IH.
  by apply insertSorted_byLevel_sorted.
Qed.

Lemma prioritized_perm (dueItems : list ReviewItem) :
  prioritized dueItems ≡ₚ dueItems.
Proof. apply sortArray_perm. Qed.

(** The sort is stable: items of equal level keep their order. *)
Lemma prioritized_stable (lvl : Z) (dueItems : list ReviewItem) :
  filter (fun r => levelOf r = lvl) (prioritized dueItems)
  = filter (fun r => levelOf r = lvl) dueItems.
Proof.
  assert (Hins : forall x l,
    filter (fun r => levelOf r = lvl) (insertSorted byLevel x l tt).1
    = filter (fun r => levelOf r = lvl) (x :: l)).
  { intros x l. induction l as [| y rest IH]; [done |].
    rewrite insertSorted_byLevel_cons.
    destruct (levelOf x - levelOf y <=? 0) eqn:Hcmp; [done |].
    apply Z.leb_gt in Hcmp.
    rewrite (filter_cons _ y), IH, !filter_cons.
    repeat case_decide; try done; lia. }
  unfold prioritized. induction dueItems as [| x rest IH]; simpl; [done |].
  destruct (sortArray byLevel rest tt) as [rest' []]. simpl in IH.
  rewrite Hins, !filter_cons, IH. done.
Qed.

(** ** Building the session *)

Lemma buildSession_perm (cap : nat) (draws : nat -> Z)
    (dueItems : list ReviewItem) :
  buildSession cap draws dueItems ≡ₚ take cap (prioritized dueItems).
Proof. apply sortArray_perm. Qed.

Example twelveDue_cap10 :
  (fun r => (r_word r, levelOf r)) <$> take 10 (prioritized twelveDue)
    = [("b", 0); ("d", 0); ("h", 0); ("f", 1); ("l", 1);
       ("e", 2); ("j", 2); ("a", 3); ("i", 3); ("g", 4)] /\
  (fun r => (r_word r, levelOf r)) <$> drop 10 (prioritized twelveDue)
    = [("c", 5); ("k", 5)].
Proof. split; vm_compute; reflexivity. Qed.

(** C5.  The session is chosen by priority: the due items split into
    the session and the excluded rest; before the shuffle the chosen
    entries are in ascending level; and every item of the session has a
    level at most that of every excluded item. *)
Theorem buildSession_priority (cap : nat) (draws : nat -> Z)
    (dueItems : list ReviewItem) :
  buildSession cap draws dueItems ++ drop cap (prioritized dueItems)
    ≡ₚ dueItems ∧
  StronglySorted levelLe (take cap (prioritized dueItems)) ∧
  Forall (fun a =>
            Forall (fun b => levelOf a <= levelOf b)
              (drop cap (prioritized dueItems)))
    (buildSession cap draws dueItems).
Proof.
  pose proof (prioritized_sorted dueItems) as Hsorted.
  rewrite <- (take_drop cap (prioritized dueItems)) in Hsorted.
  split; [| split].
  - rewrite buildSession_perm, take_drop. apply prioritized_perm.
  - by apply StronglySorted_app_1_l in Hsorted.
  - rewrite buildSession_perm.
    apply Forall_forall. intros a Ha. apply Forall_forall. intros b Hb.
    exact (StronglySorted_app_1_elem_of _ _ _ a b Hsorted Ha Hb).
Qed.

(** With a cap of 10 and twelve due items, no item of level 0 is left
    out once an item of level 3 or more is in. *)
Lemma level0_before_level3 (cap : nat) (draws : nat -> Z)
    (dueItems : list ReviewItem) (a b : ReviewItem) :
  a ∈ buildSession cap draws dueItems ->
  3 <= levelOf a ->
  b ∈ drop cap (prioritized dueItems) ->
  levelOf b ≠ 0.
Proof.
  intros Ha Hlvl Hb. rewrite buildSession_perm in Ha.
  pose proof (prioritized_sorted dueItems) as Hsorted.
  rewrite <- (take_drop cap (prioritized dueItems)) in Hsorted.
  pose proof (StronglySorted_app_1_elem_of _ _ _ a b Hsorted Ha Hb) as Hle.
  unfold levelLe in Hle. lia.
Qed.

(** C6.  The session has at most [cap] items (exactly the smaller of
    [cap] and the number of due items), all taken from the input; with
    the cap of 10 that [startReviewSession] uses, at most ten. *)
Theorem buildSession_bounded (cap : nat) (draws : nat -> Z)
    (dueItems : list ReviewItem) :
  (length (buildSession cap draws dueItems) <= cap)%nat ∧
  length (buildSession cap draws dueItems) = (cap `min` length dueItems)%nat ∧
  Forall (fun r => r ∈ dueItems) (buildSession cap draws dueItems) ∧
  (forall vocabList now,
     (length (startReviewSession vocabList now draws) <= 10)%nat).
Proof.
  assert (Hlen : forall due,
    length (buildSession cap draws due) = (cap `min` length due)%nat).
  { intros due. rewrite buildSession_perm, length_take.
    by rewrite prioritized_perm. }
  split; [rewrite Hlen; lia | split; [apply Hlen | split]].
  - apply Forall_forall. intros r Hr.
    rewrite buildSession_perm in Hr.
    apply elem_of_take in Hr as (i & Hr & _).
    apply list_elem_of_lookup_2 in Hr. by rewrite prioritized_perm in Hr.
  - intros vocabList now. unfold startReviewSession.
    rewrite buildSession_perm, length_take. lia.
Qed.

(** C7, as amended.  Whatever the random draws, the session is a
    rearrangement of the first [cap] prioritized entries: priority
    decides inclusion, the draws decide the order. *)
Theorem buildSession_rearranges (cap : nat) (draws : nat -> Z)
    (dueItems : list ReviewItem) :
  buildSession cap draws dueItems ≡ₚ take cap (prioritized dueItems).
Proof. apply buildSession_perm. Qed.

Example threeDue_session : take 10 (prioritized threeDue) = threeDue.
Proof. reflexivity. Qed.

(** The eight equally likely sign sequences give the six orders with
    shares 2, 2, 1, 1, 1, 1. *)
Example threeDue_outcomes :
  (fmap (M := list) r_word) <$> shuffleOutcomes 3 threeDue
  = [ ["a"; "b"; "c"]; ["a"; "b"; "c"]; ["b"; "a"; "c"]; ["b"; "c"; "a"];
      ["a"; "c"; "b"]; ["a"; "c"; "b"]; ["c"; "a"; "b"]; ["c"; "b"; "a"] ].
Proof. vm_compute. reflexivity. Qed.

(** C7, as stated, fails: the arrangements are not equally likely.  Of
    the eight sign sequences that sorting three items can consume, two
    leave the order as it is and one yields the order b, a, c. *)
Lemma shuffle_not_uniform :
  ~ uniformShuffle 3 (take 10 (prioritized threeDue)).
Proof.
  intros Huniform.
  specialize (Huniform threeDue
    [sampleReview "b" 1; sampleReview "a" 0; sampleReview "c" 2]).
  assert (Hcount :
    timesObtained 3 (take 10 (prioritized threeDue)) threeDue = 2%nat /\
    timesObtained 3 (take 10 (prioritized threeDue))
      [sampleReview "b" 1; sampleReview "a" 0; sampleReview "c" 2] = 1%nat).
  { split; vm_compute; reflexivity. }
  destruct Hcount as [H2 H1]. rewrite H2, H1 in Huniform.
  assert (Hne : 2%nat = 1%nat); [| discriminate Hne].
  apply Huniform.
  - reflexivity.
  - apply perm_swap.
Qed.

(** The bias does not depend on how the engine sorts.  The comparator
    ignores its arguments, so the outcome of the shuffle is a function
    of the signs drawn, whatever the order of the comparisons.  No
    function of [n] fair signs reaches the six orders of three distinct
    items equally often, since 6 does not divide a power of 2. *)

Lemma signSequences_length (n : nat) :
  ∃ k : nat, length (signSequences n) = (3 * k + 1)%nat ∨
             length (signSequences n) = (3 * k + 2)%nat.
Proof.
  induction n as [| n (k & [IH | IH])]; simpl.
  - exists 0%nat. by left.
  - exists (2 * k)%nat. right. rewrite length_app, !length_fmap. lia.
  - exists (2 * k + 1)%nat. left. rewrite length_app, !length_fmap. lia.
Qed.

Lemma count_by_value {S B : Type} `{EqDecision B} (f : S -> B)
    (vals : list B) (L : list S) :
  NoDup vals ->
  (∀ s, s ∈ L -> f s ∈ vals) ->
  length L
  = sum_list_with (fun v => length (filter (fun s => f s = v) L)) vals.
Proof.
  intros Hnd Hin. induction L as [| s L IH].
  - simpl. clear Hnd Hin. induction vals as [| v vals IHv]; [done |].
    exact IHv.
  - assert (Hone : ∀ vs, NoDup vs ->
      sum_list_with (fun v => length (filter (fun s0 => f s0 = v) (s :: L))) vs
      = ((if decide (f s ∈ vs) then 1 else 0)
         + sum_list_with (fun v => length (filter (fun s0 => f s0 = v) L)) vs)%nat).
    { intros vs Hvs. induction vs as [| v vs IHvs]; [done |].
      apply NoDup_cons in Hvs as [Hv Hvs]. simpl.
      rewrite (IHvs Hvs), filter_cons.
      destruct (decide (f s = v)) as [<- | Hne].
      - rewrite (decide_True (P := f s ∈ f s :: vs)) by left.
        rewrite (decide_False (P := f s ∈ vs)) by done. simpl. lia.
      - destruct (decide (f s ∈ vs)) as [Hmem | Hmem].
        + rewrite (decide_True (P := f s ∈ v :: vs)) by (by right). lia.
        + rewrite (decide_False (P := f s ∈ v :: vs)); [lia |].
          intros [? | ?]%elem_of_cons; done. }
    rewrite (Hone vals Hnd).
    rewrite decide_True by (apply Hin; left).
    simpl. f_equal. apply IH. intros s0 Hs0. apply Hin. by right.
Qed.

Lemma sign_driven_shuffle_not_uniform (n : nat)
    (shuffle : list bool -> list ReviewItem) (a b c : ReviewItem) :
  a ≠ b -> a ≠ c -> b ≠ c ->
  (∀ signs, shuffle signs ≡ₚ [a; b; c]) ->
  ¬ (∀ p q : list ReviewItem,
       [a; b; c] ≡ₚ p -> [a; b; c] ≡ₚ q ->
       length (filter (fun signs => shuffle signs = p) (signSequences n))
       = length (filter (fun signs => shuffle signs = q) (signSequences n))).
Proof.
  intros Hab Hac Hbc Hperm Huniform.
  pose proof (count_by_value shuffle (permutations [a; b; c]) (signSequences n))
    as Hcount.
  assert (Hnd : NoDup (permutations [a; b; c])).
  { simpl. repeat (apply NoDup_cons; split); try apply NoDup_nil_2;
      rewrite ?elem_of_cons, elem_of_nil; intuition congruence. }
  specialize (Hcount Hnd).
  assert (Hin : ∀ s, s ∈ signSequences n -> shuffle s ∈ permutations [a; b; c]).
  { intros s _. apply permutations_Permutation. symmetry. apply Hperm. }
  specialize (Hcount Hin). clear Hin Hnd.
  assert (Heq : ∀ p, p ∈ permutations [a; b; c] ->
    length (filter (fun signs => shuffle signs = p) (signSequences n))
    = length (filter (fun signs => shuffle signs = [a; b; c]) (signSequences n))).
  { intros p Hp. apply Huniform; [by apply permutations_Permutation | done]. }
  assert (Hsix : Forall (fun p =>
    length (filter (fun signs => shuffle signs = p) (signSequences n))
    = length (filter (fun signs => shuffle signs = [a; b; c]) (signSequences n)))
    (permutations [a; b; c])).
  { apply Forall_forall. exact Heq. }
  simpl in Hcount, Hsix.
  repeat (apply Forall_cons in Hsix as [? Hsix]).
  destruct (signSequences_length n) as (k & [Hk | Hk]); lia.
Qed.

(** ** The update of the list *)

Lemma setAt_lookup_same {A : Type} (hole : A) (i : nat) (s : A)
    (arr : list A) :
  setAt hole i s arr !! i = Some s.
Proof.
  revert arr. induction i as [| i IH]; intros [| x rest]; simpl; auto.
Qed.

Lemma setAt_other (i j : nat) (s : Slot) (arr : list Slot) :
  j ≠ i -> slotAt j (setAt Empty i s arr) = slotAt j arr.
Proof.
  unfold slotAt. revert j arr.
  induction i as [| i IH]; intros [| j] [| x rest] Hne; simpl;
    rewrite ?lookup_nil; try done.
  - rewrite IH by lia. by rewrite lookup_nil.
  - apply IH. lia.
Qed.

(** Within the array the assignment is an ordinary update. *)
Lemma setAt_in_range {A : Type} (hole : A) (i : nat) (s : A) (arr : list A) :
  (i < length arr)%nat -> setAt hole i s arr = <[i := s]> arr.
Proof.
  revert arr. induction i as [| i IH]; intros [| x rest] Hlt; simpl in *;
    try lia; [done |].
  f_equal. apply IH. lia.
Qed.

Lemma recordOutcome_sameContent (isCorrect : bool) (now : Z) (m : Meaning) :
  sameContent m (recordOutcome isCorrect now m).
Proof. destruct isCorrect; repeat split. Qed.

Lemma updateItem_other (wordId : string) (meaningIndex : nat)
    (isCorrect : bool) (now : Z) (item : VocabData) :
  id item ≠ wordId ->
  updateItem wordId meaningIndex isCorrect now item = unchanged item.
Proof. intros Hne. unfold updateItem. by rewrite decide_False. Qed.

Lemma handleQuizComplete_lookup (wordId : string) (meaningIndex : nat)
    (isCorrect : bool) (clock : nat -> Z) (currentList : list VocabData)
    (k : nat) :
  handleQuizComplete wordId meaningIndex isCorrect clock currentList !! k
  = updateItem wordId meaningIndex isCorrect (clock k) <$> currentList !! k.
Proof. unfold handleQuizComplete. by rewrite list_lookup_imap. Qed.

Example handleQuizComplete_sample :
  handleQuizComplete "1700000000001" 1 true (fun _ => 5000) sampleList
  = [ {| u_id := "1700000000001"; u_word := "book";
         u_meanings := [Elem (sampleMeaning 2 (Num 500));
                        Elem (sampleMeaning 1 (Num (5000 + 4 * 3600000)))] |};
      {| u_id := "1700000000002"; u_word := "run";
         u_meanings := [Elem (sampleMeaning 7 (Num 100))] |} ].
Proof. reflexivity. Qed.

(** An index past the end: the array grows by an empty slot and an
    object with the two scheduling fields only, its level [NaN]. *)
Example handleQuizComplete_past_the_end :
  handleQuizComplete "1700000000002" 2 false (fun _ => 5000) sampleList
  = [ unchanged {| id := "1700000000001"; word := "book";
                   meanings := [sampleMeaning 2 (Num 500);
                                sampleMeaning 0 (Num 2000)] |};
      {| u_id := "1700000000002"; u_word := "run";
         u_meanings := [Elem (sampleMeaning 7 (Num 100)); Empty;
                        Bare NaN (Num 305000)] |} ].
Proof. reflexivity. Qed.


(** *** On the store *)

(** The two assignments together are [recordOutcome]. *)
Lemma assign_recordOutcome (isCorrect : bool) (now : Z) (m : Meaning) :
  assignDate isCorrect now (assignLevel isCorrect (OMeaning m))
  = OMeaning (recordOutcome isCorrect now m).
Proof. destruct isCorrect; reflexivity. Qed.

Lemma assign_recordOutcomeBare (isCorrect : bool) (now : Z) :
  ∃ lvl next,
    recordOutcomeBare isCorrect now = Bare lvl next ∧
    assignDate isCorrect now (assignLevel isCorrect (OBare NaN NaN))
    = OBare lvl next.
Proof. destruct isCorrect; eexists _, _; split; reflexivity. Qed.

Lemma extends_refl (h : store) : extends h h.
Proof. by split. Qed.

Lemma extends_trans (h1 h2 h3 : store) :
  extends h1 h2 -> extends h2 h3 -> extends h1 h3.
Proof.
  intros [Hf1 Ho1] [Hf2 Ho2]. split; [lia |].
  intros l Hl. rewrite Ho2 by lia. by apply Ho1.
Qed.

Lemma alloc_extends (o : object) (h : store) : extends h (alloc o h).2.
Proof.
  split; simpl; [lia |]. intros l Hl. apply lookup_insert_ne. lia.
Qed.

Lemma modify_extends (h0 h : store) (l : loc) (f : object -> object) :
  (fresh h0 <= l)%nat -> extends h0 h -> extends h0 (modify l f h).
Proof.
  intros Hl [Hf Ho]. unfold modify.
  destruct (objects h !! l); [| by split].
  split; simpl; [done |].
  intros l' Hl'. rewrite lookup_insert_ne by lia. by apply Ho.
Qed.

Lemma alloc_wellFormed (o : object) (h : store) :
  wellFormed h -> wellFormed (alloc o h).2.
Proof.
  intros Hwf l. simpl. destruct (decide (l = fresh h)) as [-> | Hne]; [lia |].
  rewrite lookup_insert_ne by done. intros Hl. apply Hwf in Hl. lia.
Qed.

Lemma modify_wellFormed (l : loc) (f : object -> object) (h : store) :
  wellFormed h -> wellFormed (modify l f h).
Proof.
  intros Hwf. unfold modify. destruct (objects h !! l) eqn:Hl; [| done].
  intros l'. simpl. destruct (decide (l' = l)) as [-> | Hne].
  - intros _. apply Hwf. by eexists.
  - rewrite lookup_insert_ne by done. apply Hwf.
Qed.

Lemma updateItemOn_extends (wordId : string) (meaningIndex : nat)
    (isCorrect : bool) (now : Z) (item : loc) (h : store) :
  extends h (updateItemOn wordId meaningIndex isCorrect now item h).2.
Proof.
  unfold updateItemOn.
  destruct (objects h !! item) as [[| | | i w ms] |]; try apply extends_refl.
  destruct (decide (i = wordId)); [| apply extends_refl].
  destruct (objects h !! ms) as [[| | elems |] |]; try apply extends_refl.
  eapply extends_trans; [| apply alloc_extends].
  apply modify_extends; [simpl; lia |].
  apply modify_extends; [simpl; lia |].
  apply modify_extends; [simpl; lia |].
  eapply extends_trans; apply alloc_extends.
Qed.

Lemma updateItemOn_wellFormed (wordId : string) (meaningIndex : nat)
    (isCorrect : bool) (now : Z) (item : loc) (h : store) :
  wellFormed h ->
  wellFormed (updateItemOn wordId meaningIndex isCorrect now item h).2.
Proof.
  intros Hwf. unfold updateItemOn.
  destruct (objects h !! item) as [[| | | i w ms] |]; try done.
  destruct (decide (i = wordId)); [| done].
  destruct (objects h !! ms) as [[| | elems |] |]; try done.
  apply alloc_wellFormed. do 3 apply modify_wellFormed.
  by do 2 apply alloc_wellFormed.
Qed.

Lemma mapItemsOn_extends (wordId : string) (meaningIndex : nat)
    (isCorrect : bool) (clock : nat -> Z) (items : list loc) :
  ∀ k h, extends h (mapItemsOn wordId meaningIndex isCorrect clock k items h).2.
Proof.
  induction items as [| item rest IH]; intros k h; simpl; [apply extends_refl |].
  pose proof (updateItemOn_extends wordId meaningIndex isCorrect (clock k) item h)
    as Hstep.
  destruct (updateItemOn wordId meaningIndex isCorrect (clock k) item h)
    as [item' h1].
  specialize (IH (S k) h1).
  destruct (mapItemsOn wordId meaningIndex isCorrect clock (S k) rest h1)
    as [rest' h2].
  simpl in *. by eapply extends_trans.
Qed.

(** The updater never writes to an object of the list it is given: every
    object of the store is the same after the call. *)
Lemma handleQuizCompleteOn_never_in_place (wordId : string)
    (meaningIndex : nat) (isCorrect : bool) (clock : nat -> Z)
    (currentList : list loc) (h : store) (l : loc) (o : object) :
  wellFormed h ->
  objects h !! l = Some o ->
  objects (handleQuizCompleteOn wordId meaningIndex isCorrect clock
             currentList h).2 !! l = Some o.
Proof.
  intros Hwf Hl.
  destruct (mapItemsOn_extends wordId meaningIndex isCorrect clock currentList
              0%nat h) as [_ Hold].
  unfold handleQuizCompleteOn. rewrite Hold; [done |].
  apply Hwf. by eexists.
Qed.

Lemma holdsMeaning_extends (h h' : store) (l : option loc) (m : Meaning) :
  wellFormed h -> extends h h' -> holdsMeaning h l m -> holdsMeaning h' l m.
Proof.
  intros Hwf [_ Hold] (l' & -> & Hl). exists l'. split; [done |].
  rewrite Hold; [done |]. apply Hwf. by eexists.
Qed.

Lemma holdsSlot_extends (h h' : store) (l : option loc) (s : Slot) :
  wellFormed h -> extends h h' -> holdsSlot h l s -> holdsSlot h' l s.
Proof.
  intros Hwf [_ Hold]. destruct s as [m | | lvl next]; simpl; [| done |].
  - intros (l' & -> & Hl). exists l'. split; [done |].
    rewrite Hold; [done |]. apply Hwf. by eexists.
  - intros (l' & -> & Hl). exists l'. split; [done |].
    rewrite Hold; [done |]. apply Hwf. by eexists.
Qed.

Lemma holdsItem_extends (h h' : store) (l : loc) (item : VocabData) :
  wellFormed h -> extends h h' -> holdsItem h l item -> holdsItem h' l item.
Proof.
  intros Hwf Hext (ms & elems & Hl & Hms & Hall).
  exists ms, elems. destruct Hext as [Hf Hold].
  split; [| split].
  - rewrite Hold; [done |]. apply Hwf. by eexists.
  - rewrite Hold; [done |]. apply Hwf. by eexists.
  - eapply Forall2_impl; [exact Hall |].
    intros lm m. by apply holdsMeaning_extends.
Qed.

Lemma holdsUpdated_extends (h h' : store) (l : loc) (u : UpdatedItem) :
  wellFormed h -> extends h h' -> holdsUpdated h l u -> holdsUpdated h' l u.
Proof.
  intros Hwf Hext (ms & elems & Hl & Hms & Hall).
  exists ms, elems. destruct Hext as [Hf Hold].
  split; [| split].
  - rewrite Hold; [done |]. apply Hwf. by eexists.
  - rewrite Hold; [done |]. apply Hwf. by eexists.
  - eapply Forall2_impl; [exact Hall |].
    intros lm s. by apply holdsSlot_extends.
Qed.

Lemma holdsItem_unchanged (h : store) (l : loc) (item : VocabData) :
  holdsItem h l item -> holdsUpdated h l (unchanged item).
Proof.
  intros (ms & elems & Hl & Hms & Hall). exists ms, elems.
  split; [done | split; [done |]]. simpl.
  apply Forall2_fmap_r. eapply Forall2_impl; [exact Hall |]. done.
Qed.

Lemma Forall2_setAt {A B : Type} (R : A -> B -> Prop) (holeA : A) (holeB : B)
    (i : nat) (x : A) (y : B) (l1 : list A) (l2 : list B) :
  R holeA holeB -> R x y -> Forall2 R l1 l2 ->
  Forall2 R (setAt holeA i x l1) (setAt holeB i y l2).
Proof.
  intros Hhole Hxy Hall. revert i.
  induction Hall as [| a b l1 l2 Hab Hall IH]; intros i.
  - induction i as [| i IHi]; simpl; by constructor.
  - destruct i as [| i]; simpl; by constructor.
Qed.

Lemma modify_at (l : loc) (f : object -> object) (h : store) (o : object) :
  objects h !! l = Some o ->
  modify l f h = {| objects := <[l := f o]> (objects h); fresh := fresh h |}.
Proof. intros Hl. unfold modify. by rewrite Hl. Qed.

Lemma updateItemOn_target (wordId : string) (meaningIndex : nat)
    (isCorrect : bool) (now : Z) (item : loc) (h : store)
    (i w : string) (ms : loc) (elems : list (option loc)) :
  objects h !! item = Some (OItem i w ms) ->
  i = wordId ->
  objects h !! ms = Some (OArray elems) ->
  let src := match elems !! meaningIndex with
             | Some (Some l0) => <[fresh h := OArray elems]> (objects h) !! l0
             | _ => None
             end in
  updateItemOn wordId meaningIndex isCorrect now item h
  = (S (S (fresh h)),
     {| objects :=
          <[S (S (fresh h)) := OItem i w (fresh h)]>
            (<[fresh h := OArray (setAt None meaningIndex (Some (S (fresh h))) elems)]>
               (<[S (fresh h) :=
                    assignDate isCorrect now
                      (assignLevel isCorrect (copyObject src))]>
                  (<[fresh h := OArray elems]> (objects h))));
        fresh := S (S (S (fresh h))) |}).
Proof.
  intros Hitem Hid Hms src. unfold updateItemOn.
  rewrite Hitem, (decide_True _ _ Hid), Hms.
  cbv beta iota zeta delta [alloc]. cbn [objects fresh].
  fold src.
  rewrite (modify_at (S (fresh h)) (assignLevel isCorrect) _ (copyObject src))
    by (cbn [objects]; apply lookup_insert_eq).
  cbn [objects fresh].
  rewrite (modify_at (S (fresh h)) (assignDate isCorrect now) _
             (assignLevel isCorrect (copyObject src)))
    by (cbn [objects]; apply lookup_insert_eq).
  cbn [objects fresh].
  rewrite (modify_at (fresh h) _ _ (OArray elems))
    by (cbn [objects]; rewrite !lookup_insert_ne by lia; apply lookup_insert_eq).
  cbn [objects fresh assignIndex].
  rewrite !insert_insert_eq. reflexivity.
Qed.

(** On a store that holds the item, the callback builds the item that
    [updateItem] describes. *)
Lemma updateItemOn_refines (wordId : string) (meaningIndex : nat)
    (isCorrect : bool) (now : Z) (l : loc) (item : VocabData) (h : store) :
  wellFormed h ->
  holdsItem h l item ->
  holdsUpdated (updateItemOn wordId meaningIndex isCorrect now l h).2
    (updateItemOn wordId meaningIndex isCorrect now l h).1
    (updateItem wordId meaningIndex isCorrect now item).
Proof.
  intros Hwf Hitem. pose proof Hitem as (ms & elems & Hl & Hms & Hall).
  assert (Hlt : ∀ l' o, objects h !! l' = Some o -> (l' < fresh h)%nat).
  { intros l' o Ho. apply Hwf. by eexists. }
  unfold updateItem.
  destruct (decide (id item = wordId)) as [Heq | Hne].
  2: { unfold updateItemOn. rewrite Hl, decide_False by done.
       by apply holdsItem_unchanged. }
  rewrite (updateItemOn_target _ _ _ _ _ _ _ _ _ _ Hl Heq Hms).
  cbn [fst snd].
  exists (fresh h), (setAt None meaningIndex (Some (S (fresh h))) elems).
  cbn [objects u_id u_word u_meanings].
  split; [apply lookup_insert_eq | split].
  { rewrite lookup_insert_ne by lia. apply lookup_insert_eq. }
  apply Forall2_setAt.
  - done.
  - destruct (meanings item !! meaningIndex) as [m |] eqn:Hm.
    + destruct (Forall2_lookup_r _ _ _ _ _ Hall Hm) as (lm & Hlm & l' & -> & Hl').
      rewrite Hlm. rewrite (lookup_insert_ne _ (fresh h) l')
        by (apply Hlt in Hl'; lia).
      rewrite Hl'. cbn [copyObject]. rewrite assign_recordOutcome.
      exists (S (fresh h)). split; [done |]. cbn [objects].
      rewrite !lookup_insert_ne by lia. apply lookup_insert_eq.
    + assert (Hnone : elems !! meaningIndex = None).
      { apply lookup_ge_None. apply lookup_ge_None in Hm.
        by rewrite (Forall2_length _ _ _ Hall). }
      rewrite Hnone. change (copyObject None) with (OBare NaN NaN).
      destruct (assign_recordOutcomeBare isCorrect now) as (lvl & next & -> & ->).
      exists (S (fresh h)). split; [done |]. cbn [objects].
      rewrite !lookup_insert_ne by lia. apply lookup_insert_eq.
  - apply Forall2_fmap_r. eapply Forall2_impl; [exact Hall |].
    intros lm m (l' & -> & Hl'). exists l'. split; [done |].
    pose proof (Hlt _ _ Hl'). cbn [objects].
    rewrite !lookup_insert_ne by lia. done.
Qed.

Lemma mapItemsOn_wellFormed (wordId : string) (meaningIndex : nat)
    (isCorrect : bool) (clock : nat -> Z) (items : list loc) :
  ∀ k h, wellFormed h ->
         wellFormed (mapItemsOn wordId meaningIndex isCorrect clock k items h).2.
Proof.
  induction items as [| item rest IH]; intros k h Hwf; simpl; [done |].
  pose proof (updateItemOn_wellFormed wordId meaningIndex isCorrect (clock k)
                item h Hwf) as Hstep.
  destruct (updateItemOn wordId meaningIndex isCorrect (clock k) item h)
    as [item' h1].
  specialize (IH (S k) h1 Hstep).
  by destruct (mapItemsOn wordId meaningIndex isCorrect clock (S k) rest h1).
Qed.

Lemma mapItemsOn_refines (wordId : string) (meaningIndex : nat)
    (isCorrect : bool) (clock : nat -> Z) (items : list loc)
    (vocab : list VocabData) :
  ∀ k h,
    wellFormed h ->
    Forall2 (holdsItem h) items vocab ->
    Forall2
      (holdsUpdated (mapItemsOn wordId meaningIndex isCorrect clock k items h).2)
      (mapItemsOn wordId meaningIndex isCorrect clock k items h).1
      (imap (fun j item =>
               updateItem wordId meaningIndex isCorrect (clock (k + j)%nat) item)
         vocab).
Proof.
  revert vocab. induction items as [| l rest IH]; intros vocab k h Hwf Hall.
  - apply Forall2_nil_inv_l in Hall as ->. constructor.
  - apply Forall2_cons_inv_l in Hall as (item & vocab' & Hitem & Hrest & ->).
    simpl.
    pose proof (updateItemOn_refines wordId meaningIndex isCorrect (clock k)
                  l item h Hwf Hitem) as Hhead.
    pose proof (updateItemOn_extends wordId meaningIndex isCorrect (clock k) l h)
      as Hext.
    pose proof (updateItemOn_wellFormed wordId meaningIndex isCorrect (clock k)
                  l h Hwf) as Hwf1.
    destruct (updateItemOn wordId meaningIndex isCorrect (clock k) l h)
      as [l' h1].
    cbn [fst snd] in *.
    assert (Hrest1 : Forall2 (holdsItem h1) rest vocab').
    { eapply Forall2_impl; [exact Hrest |].
      intros l0 it. by apply holdsItem_extends. }
    specialize (IH vocab' (S k) h1 Hwf1 Hrest1).
    pose proof (mapItemsOn_extends wordId meaningIndex isCorrect clock rest
                  (S k) h1) as Hext2.
    destruct (mapItemsOn wordId meaningIndex isCorrect clock (S k) rest h1)
      as [rest' h2].
    cbn [fst snd] in *. constructor.
    + replace (k + 0)%nat with k by lia.
      by apply (holdsUpdated_extends h1 h2).
    + erewrite imap_ext; [exact IH |].
      intros j x _. simpl. by replace (k + S j)%nat with (S k + j)%nat by lia.
Qed.

(** The store after the call holds, at the references returned, the
    list that [handleQuizComplete] describes. *)
Lemma handleQuizCompleteOn_refines (wordId : string) (meaningIndex : nat)
    (isCorrect : bool) (clock : nat -> Z) (items : list loc)
    (currentList : list VocabData) (h : store) :
  wellFormed h ->
  Forall2 (holdsItem h) items currentList ->
  Forall2
    (holdsUpdated
       (handleQuizCompleteOn wordId meaningIndex isCorrect clock items h).2)
    (handleQuizCompleteOn wordId meaningIndex isCorrect clock items h).1
    (handleQuizComplete wordId meaningIndex isCorrect clock currentList).
Proof.
  intros Hwf Hall.
  exact (mapItemsOn_refines wordId meaningIndex isCorrect clock items
           currentList 0%nat h Hwf Hall).
Qed.

Example sampleStore_after :
  let r := handleQuizCompleteOn "1700000000001" 1 true (fun _ => 5000)
             [3; 6]%nat sampleStore in
  r.1 = [9; 6]%nat /\
  objects r.2 !! 9%nat = Some (OItem "1700000000001" "book" 7%nat) /\
  objects r.2 !! 7%nat = Some (OArray [Some 0%nat; Some 8%nat]) /\
  objects r.2 !! 8%nat
    = Some (OMeaning (sampleMeaning 1 (Num (5000 + 4 * 3600000)))) /\
  objects r.2 !! 3%nat = Some (OItem "1700000000001" "book" 2%nat) /\
  objects r.2 !! 2%nat = Some (OArray [Some 0%nat; Some 1%nat]) /\
  objects r.2 !! 1%nat = Some (OMeaning (sampleMeaning 0 (Num 2000))).
Proof. vm_compute. repeat split. Qed.

(** C8.  The updater has no error case (it is a total function) and no
    effect but the list it returns.  In that list: the length is kept;
    each item keeps its id and word; an item whose id differs from
    [wordId] is returned as it is; in an item whose id is [wordId] every
    cell at an index other than [meaningIndex] reads as before, and the
    targeted meaning is the outcome of [recordOutcome], the same in
    every field but level and due date; when no id matches the list is
    returned as it is.  On the store: whatever store holds the list,
    every object in it is the same after the call (nothing is changed
    in place), and the references returned hold the list described. *)
Theorem handleQuizComplete_frame (wordId : string) (meaningIndex : nat)
    (isCorrect : bool) (clock : nat -> Z) (currentList : list VocabData) :
  length (handleQuizComplete wordId meaningIndex isCorrect clock currentList)
    = length currentList ∧
  (∀ k item, currentList !! k = Some item ->
     ∃ item',
       handleQuizComplete wordId meaningIndex isCorrect clock currentList !! k
         = Some item' ∧
       u_id item' = id item ∧
       u_word item' = word item ∧
       (id item ≠ wordId -> item' = unchanged item) ∧
       (∀ j, j ≠ meaningIndex ->
          slotAt j (u_meanings item') = slotAt j (Elem <$> meanings item)) ∧
       (∀ m, id item = wordId -> meanings item !! meaningIndex = Some m ->
          ∃ m', u_meanings item' !! meaningIndex = Some (Elem m') ∧
                m' = recordOutcome isCorrect (clock k) m ∧
                sameContent m m')) ∧
  ((∀ item, item ∈ currentList -> id item ≠ wordId) ->
   handleQuizComplete wordId meaningIndex isCorrect clock currentList
     = unchanged <$> currentList) ∧
  (∀ (h : store) (items : list loc),
     wellFormed h ->
     Forall2 (holdsItem h) items currentList ->
     (∀ l o, objects h !! l = Some o ->
        objects (handleQuizCompleteOn wordId meaningIndex isCorrect clock
                   items h).2 !! l = Some o) ∧
     Forall2
       (holdsUpdated
          (handleQuizCompleteOn wordId meaningIndex isCorrect clock items h).2)
       (handleQuizCompleteOn wordId meaningIndex isCorrect clock items h).1
       (handleQuizComplete wordId meaningIndex isCorrect clock currentList)).
Proof.
  split; [apply length_imap | split; [| split]].
  - intros k item Hk.
    exists (updateItem wordId meaningIndex isCorrect (clock k) item).
    rewrite handleQuizComplete_lookup, Hk. split; [done |].
    unfold updateItem. destruct (decide (id item = wordId)) as [Heq | Hne].
    + simpl. split; [done | split; [done | split; [done | split]]].
      * intros j Hj. by apply setAt_other.
      * intros m _ Hm. rewrite Hm.
        exists (recordOutcome isCorrect (clock k) m).
        split; [apply setAt_lookup_same | split; [done |]].
        apply recordOutcome_sameContent.
    + split; [done | split; [done | split; [done | split]]].
      * done.
      * intros m Heq. done.
  - intros Hnone. unfold handleQuizComplete.
    apply list_eq. intros k. rewrite list_lookup_imap, list_lookup_fmap.
    destruct (currentList !! k) as [item |] eqn:Hk; [| done]. simpl.
    f_equal. apply updateItem_other. apply Hnone.
    by apply list_elem_of_lookup_2 in Hk.
  - intros h items Hwf Hholds. split.
    + intros l o Hl. by apply handleQuizCompleteOn_never_in_place.
    + by apply handleQuizCompleteOn_refines.
Qed.

Lemma allocAll_wellFormed (os : list object) (h : store) :
  wellFormed h -> wellFormed (allocAll os h).
Proof.
  revert h. induction os as [| o os IH]; intros h Hwf; [done |].
  apply IH. by apply alloc_wellFormed.
Qed.

Lemma sampleStore_holds : Forall2 (holdsItem sampleStore) [3; 6]%nat sampleList.
Proof.
  repeat constructor.
  - exists 2%nat, [Some 0%nat; Some 1%nat].
    split; [reflexivity | split; [reflexivity |]].
    repeat constructor; eexists; (split; [reflexivity |]); reflexivity.
  - exists 5%nat, [Some 4%nat].
    split; [reflexivity | split; [reflexivity |]].
    repeat constructor; eexists; (split; [reflexivity |]); reflexivity.
Qed.

Lemma handleQuizComplete_frame_witness :
  (∃ item',
     handleQuizComplete "1700000000001" 1 true (fun _ => 5000) sampleList
       !! 0%nat = Some item' ∧
     u_id item' = "1700000000001" ∧
     u_word item' = "book" ∧
     slotAt 0 (u_meanings item') = Elem (sampleMeaning 2 (Num 500)) ∧
     ∃ m', u_meanings item' !! 1%nat = Some (Elem m') ∧
           sameContent (sampleMeaning 0 (Num 2000)) m') ∧
  objects (handleQuizCompleteOn "1700000000001" 1 true (fun _ => 5000)
             [3; 6]%nat sampleStore).2 !! 1%nat
    = Some (OMeaning (sampleMeaning 0 (Num 2000))).
Proof.
  destruct (handleQuizComplete_frame "1700000000001" 1 true (fun _ => 5000)
              sampleList) as (_ & Hitems & _ & Hstore).
  split.
  - destruct (Hitems 0%nat
                {| id := "1700000000001"; word := "book";
                   meanings := [sampleMeaning 2 (Num 500);
                                sampleMeaning 0 (Num 2000)] |} eq_refl)
      as (item' & Hlook & Hid & Hword & _ & Hothers & Htarget).
    exists item'. split; [exact Hlook |].
    split; [exact Hid | split; [exact Hword | split]].
    + apply (Hothers 0%nat). lia.
    + destruct (Htarget (sampleMeaning 0 (Num 2000)) eq_refl eq_refl)
        as (m' & Hm' & _ & Hsame).
      exists m'. split; [exact Hm' | exact Hsame].
  - destruct (Hstore sampleStore [3; 6]%nat) as [Hold _].
    + apply allocAll_wellFormed. intros l [o Hl]. simpl in Hl.
      by rewrite lookup_empty in Hl.
    + exact sampleStore_holds.
    + apply Hold. reflexivity.
Defined.

(** When every item named [wordId] has a meaning at [meaningIndex], the
    returned list is again a list of full items. *)
Lemma handleQuizComplete_typed (wordId : string) (meaningIndex : nat)
    (isCorrect : bool) (clock : nat -> Z) (currentList : list VocabData) :
  (∀ item, item ∈ currentList -> id item = wordId ->
           (meaningIndex < length (meanings item))%nat) ->
  ∃ newList,
    mapM asVocabData
      (handleQuizComplete wordId meaningIndex isCorrect clock currentList)
      = Some newList ∧
    length newList = length currentList.
Proof.
  intros Hrange.
  assert (Hone : ∀ now item, item ∈ currentList ->
            is_Some (asVocabData (updateItem wordId meaningIndex isCorrect now item))).
  { intros now item Hin. unfold updateItem, asVocabData.
    destruct (decide (id item = wordId)) as [Heq | Hne]; simpl.
    - pose proof (Hrange item Hin Heq) as Hlt.
      destruct (lookup_lt_is_Some_2 _ _ Hlt) as [m Hm]. rewrite Hm.
      rewrite setAt_in_range by (by rewrite length_fmap).
      assert (Hall : mapM slotMeaning
                (<[meaningIndex := Elem (recordOutcome isCorrect now m)]>
                   (Elem <$> meanings item))
              = Some (<[meaningIndex := recordOutcome isCorrect now m]>
                        (meanings item))).
      { apply mapM_Some. rewrite <- list_fmap_insert.
        apply Forall2_fmap_l. apply Forall_Forall2_diag.
        by apply Forall_forall. }
      rewrite Hall. by eexists.
    - assert (Hall : mapM slotMeaning (Elem <$> meanings item)
                     = Some (meanings item)).
      { apply mapM_Some. apply Forall2_fmap_l. apply Forall_Forall2_diag.
        by apply Forall_forall. }
      rewrite Hall. by eexists. }
  assert (Hsome : is_Some (mapM asVocabData
    (handleQuizComplete wordId meaningIndex isCorrect clock currentList))).
  { apply mapM_is_Some. apply Forall_forall. intros u Hu.
    unfold handleQuizComplete in Hu. apply elem_of_lookup_imap in Hu.
    destruct Hu as (k & item & -> & Hk). apply Hone.
    by apply list_elem_of_lookup_2 in Hk. }
  destruct Hsome as [newList Hnew]. exists newList. split; [exact Hnew |].
  apply length_mapM in Hnew. rewrite <- Hnew. apply length_imap.
Qed.

(** ** Mastered words *)

Lemma mastered_count (threshold : Z) (vocabList : list VocabData) (acc : nat) :
  foldl (fun mastered word =>
           if isMastered threshold word then S mastered else mastered)
    acc vocabList
  = (acc + length (List.filter (isMastered threshold) vocabList))%nat.
Proof.
  revert acc. induction vocabList as [| w rest IH]; intros acc; simpl; [lia |].
  rewrite IH. destruct (isMastered threshold w); simpl; lia.
Qed.

Example isMastered_sample :
  isMastered 6 {| id := "1"; word := "run";
                  meanings := [sampleMeaning 7 (Num 0); sampleMeaning 6 (Num 0)] |}
    = true /\
  isMastered 6 {| id := "2"; word := "book";
                  meanings := [sampleMeaning 7 (Num 0); sampleMeaning 5 (Num 0)] |}
    = false /\
  masteryCounts sampleList = (1%nat, 1%nat).
Proof. repeat split. Qed.

(** C9.  An item is mastered at a threshold exactly when every one of
    its meanings has a level of at least the threshold; the count of
    mastered words is the number of items mastered at the threshold 6,
    the rest being in progress. *)
Theorem isMastered_iff (threshold : Z) (item : VocabData) :
  (isMastered threshold item = true ↔
   ∀ meaning, meaning ∈ meanings item -> threshold <= srs_level meaning) ∧
  MASTERY_THRESHOLD = 6 ∧
  (∀ vocabList,
     (masteryCounts vocabList).1
       = length (List.filter (isMastered 6) vocabList) ∧
     ((masteryCounts vocabList).1 + (masteryCounts vocabList).2)%nat
       = length vocabList).
Proof.
  split; [| split; [reflexivity |]].
  - unfold isMastered. rewrite forallb_forall. split.
    + intros H m Hm. apply Z.leb_le, H. by apply list_elem_of_In.
    + intros H m Hm. apply Z.leb_le, H. by apply list_elem_of_In.
  - intros vocabList. unfold masteryCounts.
    destruct vocabList as [| w rest]; [done |].
    change (length (w :: rest) =? 0)%nat with false. cbv iota.
    rewrite mastered_count. change MASTERY_THRESHOLD with 6.
    pose proof (List.filter_length_le (isMastered 6) (w :: rest)) as Hle.
    generalize dependent (List.filter (isMastered 6) (w :: rest)).
    intros mastered Hle. cbn [fst snd length] in *. lia.
Qed.

(** ** Loading the list *)

Lemma migrateMeaning_rejected (now : Z) (m : json) :
  rejected m = true -> migrateMeaning now m = None.
Proof.
  unfold rejected, migrateMeaning. intros H.
  destruct (notAnObject m); [done |].
  destruct (badMultipleChoice m); [done |].
  destruct (missingCritical m); [done | discriminate].
Qed.

Lemma migrateMeaning_accepted (now : Z) (m : json) :
  rejected m = false ->
  ∃ o, m = JObj o ∧
       migrateMeaning now m
       = if hasKey "srs_level" o && hasKey "next_review_date" o
         then Some (JObj o)
         else Some (JObj (<["next_review_date" := JNum now]>
                            (<["srs_level" := JNum 0]> o))).
Proof.
  unfold rejected, migrateMeaning. intros H.
  destruct (notAnObject m) eqn:Hobj; [done |].
  destruct (badMultipleChoice m); [done |].
  destruct (missingCritical m); [done |].
  destruct m as [| | | | | o]; try done.
  by exists o.
Qed.

(** The meanings kept for an item are the records the callback
    accepts, each as the callback returns it. *)
Lemma validMeanings_elem (clock : nat -> Z) (ms : list json) (r : json) :
  r ∈ validMeanings clock ms ↔
  ∃ j m, ms !! j = Some m ∧ migrateMeaning (clock j) m = Some r.
Proof.
  unfold validMeanings. rewrite list_elem_of_omap. split.
  - intros (o & Hin & Ho). apply elem_of_lookup_imap in Hin.
    destruct Hin as (j & m & -> & Hj). by exists j, m.
  - intros (j & m & Hj & Hm). exists (Some r). split; [| done].
    apply elem_of_lookup_imap. exists j, m. by rewrite Hm.
Qed.

Example migrateMeaning_old :
  migrateMeaning 1000 (JObj oldRecord)
  = Some (JObj (<["next_review_date" := JNum 1000]>
                  (<["srs_level" := JNum 0]> oldRecord))).
Proof. reflexivity. Qed.

Example migrateMeaning_saved :
  migrateMeaning 1000 (JObj savedRecord) = Some (JObj savedRecord).
Proof. reflexivity. Qed.

(** A record with only one of the two fields is reset as a whole: a
    saved level without a date is overwritten by 0. *)
Example migrateMeaning_level_only :
  (migrateMeaning 1000 (JObj (<["srs_level" := JNum 3]> oldRecord)))
    ≫= (fun m => prop (Some m) "srs_level")
  = Some (JNum 0).
Proof. vm_compute. reflexivity. Qed.

(** The guards on the shape of a record come before the scheduling
    fields are looked at: a record without an [options] array is
    dropped, whether it lacks the two scheduling fields or has them. *)
Lemma migrateMeaning_drops_malformed :
  (brokenOldRecord !! "srs_level" = None ∧
   brokenOldRecord !! "next_review_date" = None ∧
   migrateMeaning 1000 (JObj brokenOldRecord) = None) ∧
  (brokenSavedRecord !! "srs_level" = Some (JNum 3) ∧
   brokenSavedRecord !! "next_review_date" = Some (JNum 777) ∧
   migrateMeaning 1000 (JObj brokenSavedRecord) = None).
Proof. repeat split; vm_compute; reflexivity. Qed.

(** The callback on a record that passes the guards: with both
    scheduling fields it is returned as it is; with neither it is
    returned with level 0 and due date [now], every other field as it
    was. *)
Lemma migrateMeaning_scheduling (now : Z) (o : gmap string json) :
  rejected (JObj o) = false ->
  (is_Some (o !! "srs_level") -> is_Some (o !! "next_review_date") ->
   migrateMeaning now (JObj o) = Some (JObj o)) ∧
  (o !! "srs_level" = None -> o !! "next_review_date" = None ->
   ∃ o', migrateMeaning now (JObj o) = Some (JObj o') ∧
         o' !! "srs_level" = Some (JNum 0) ∧
         o' !! "next_review_date" = Some (JNum now) ∧
         ∀ k, k ≠ "srs_level" -> k ≠ "next_review_date" -> o' !! k = o !! k).
Proof.
  intros Hok. destruct (migrateMeaning_accepted now _ Hok) as (o0 & [= <-] & ->).
  unfold hasKey. split.
  - intros Hl Hd. by rewrite !bool_decide_eq_true_2.
  - intros Hl Hd. rewrite (bool_decide_eq_false_2 (is_Some (o !! "srs_level")))
      by (rewrite Hl; by intros [? ?]).
    simpl. eexists. split; [reflexivity |].
    split; [| split].
    + rewrite lookup_insert_ne by done. apply lookup_insert_eq.
    + apply lookup_insert_eq.
    + intros k Hk1 Hk2. by rewrite !lookup_insert_ne.
Qed.







(** What the sample list loads as: the stored record kept, the old one
    defaulted. *)
Example load_storedList :
  loadList (fun _ _ => 1000) (JArr storedList)
  = Some [ JObj (storedItem (JStr "book")
                   [ JObj savedRecord;
                     JObj (<["next_review_date" := JNum 1000]>
                             (<["srs_level" := JNum 0]> oldRecord)) ]) ].
Proof. vm_compute. reflexivity. Qed.

(** * Further properties of the code *)

(** ** Outcomes over time *)

Lemma afterHistory_cons (m : Meaning) (o : bool * Z) (history : list (bool * Z)) :
  afterHistory m (o :: history)
  = afterHistory (recordOutcome (fst o) (snd o) m) history.
Proof. reflexivity. Qed.

Lemma answers_cons (o : bool * Z) (history : list (bool * Z)) :
  correctAnswers (o :: history)
    = (if fst o then 1 else 0) + correctAnswers history ∧
  incorrectAnswers (o :: history)
    = (if fst o then 0 else 1) + incorrectAnswers history.
Proof.
  unfold correctAnswers, incorrectAnswers. simpl.
  destruct (fst o); simpl; lia.
Qed.

Lemma level_bounds (m : Meaning) (history : list (bool * Z)) :
  levelInRange m ->
  srs_level m - incorrectAnswers history <= srs_level (afterHistory m history)
  ∧ srs_level (afterHistory m history) <= srs_level m + correctAnswers history.
Proof.
  revert m. induction history as [| [c t] history IH]; intros m Hrange.
  - unfold correctAnswers, incorrectAnswers, afterHistory. simpl. lia.
  - rewrite afterHistory_cons.
    destruct (answers_cons (c, t) history) as [-> ->].
    destruct (IH (recordOutcome c t m) (range_step m c t Hrange)) as [Hlo Hhi].
    cbn [fst snd] in *. unfold levelInRange in Hrange. pose proof maxLevel_eq.
    destruct c.
    + rewrite recordOutcome_correct_level in *. lia.
    + rewrite recordOutcome_incorrect_level in *. lia.
Qed.

(** X1.  On a valid level each outcome moves the level by at most one:
    after any history the level is at least the starting level minus
    the number of incorrect outcomes and at most the starting level
    plus the number of correct ones.  A meaning that starts at level 0
    is therefore at the mastery threshold only after six correct
    outcomes or more. *)
Theorem level_moves_one_step_per_answer (m : Meaning)
    (history : list (bool * Z)) :
  levelInRange m ->
  srs_level m - incorrectAnswers history <= srs_level (afterHistory m history)
  ∧ srs_level (afterHistory m history) <= srs_level m + correctAnswers history
  ∧ (srs_level m = 0 ->
     MASTERY_THRESHOLD <= srs_level (afterHistory m history) ->
     6 <= correctAnswers history).
Proof.
  intros Hrange. destruct (level_bounds m history Hrange) as [Hlo Hhi].
  split; [exact Hlo | split; [exact Hhi |]].
  unfold MASTERY_THRESHOLD. lia.
Qed.

Lemma level_moves_one_step_per_answer_witness :
  6 <= correctAnswers
         [(true, 1); (true, 2); (true, 3); (true, 4); (true, 5); (true, 6)].
Proof.
  destruct (level_moves_one_step_per_answer (sampleMeaning 0 (Num 0))
              [(true, 1); (true, 2); (true, 3); (true, 4); (true, 5); (true, 6)])
    as (_ & _ & Hsix).
  - unfold levelInRange. simpl. rewrite maxLevel_eq. lia.
  - apply Hsix; [reflexivity |]. vm_compute. discriminate.
Defined.

(** X2.  On a valid level, a slip followed by a correct answer brings
    the level back (to 1 from level 0), and a correct answer followed
    by a slip brings it back (to [maxLevel - 1] from [maxLevel]). *)
Theorem slip_and_recover (m : Meaning) (t1 t2 : Z) :
  levelInRange m ->
  srs_level (recordOutcome true t2 (recordOutcome false t1 m))
    = Z.max 1 (srs_level m) ∧
  srs_level (recordOutcome false t2 (recordOutcome true t1 m))
    = Z.min (maxLevel - 1) (srs_level m).
Proof.
  unfold levelInRange. intros Hrange. pose proof maxLevel_eq as Hmax.
  rewrite !recordOutcome_correct_level, !recordOutcome_incorrect_level.
  rewrite recordOutcome_correct_level. lia.
Qed.

Lemma slip_and_recover_witness :
  srs_level (recordOutcome true 2000
               (recordOutcome false 1000 (sampleMeaning 3 (Num 0))))
    = Z.max 1 3 ∧
  srs_level (recordOutcome false 2000
               (recordOutcome true 1000 (sampleMeaning 3 (Num 0))))
    = Z.min (maxLevel - 1) 3.
Proof.
  apply (slip_and_recover (sampleMeaning 3 (Num 0)) 1000 2000).
  unfold levelInRange. simpl. rewrite maxLevel_eq. lia.
Defined.

(** The table grows with the level. *)
Lemma intervals_increase (i j : Z) (hi hj : Z) :
  i <= j ->
  arrayGet srsIntervalsHours i = Some hi ->
  arrayGet srsIntervalsHours j = Some hj ->
  hi <= hj.
Proof.
  intros Hij Hi Hj.
  assert (Hirange : 0 <= i < 8).
  { unfold arrayGet in Hi. destruct (i <? 0) eqn:Hneg; [done |].
    apply Z.ltb_ge in Hneg. apply lookup_lt_Some in Hi. simpl in Hi. lia. }
  assert (Hjrange : 0 <= j < 8).
  { unfold arrayGet in Hj. destruct (j <? 0) eqn:Hneg; [done |].
    apply Z.ltb_ge in Hneg. apply lookup_lt_Some in Hj. simpl in Hj. lia. }
  assert (Hi' : i = 0 ∨ i = 1 ∨ i = 2 ∨ i = 3 ∨ i = 4 ∨ i = 5 ∨ i = 6 ∨ i = 7)
    by lia.
  assert (Hj' : j = 0 ∨ j = 1 ∨ j = 2 ∨ j = 3 ∨ j = 4 ∨ j = 5 ∨ j = 6 ∨ j = 7)
    by lia.
  destruct Hi' as [-> | [-> | [-> | [-> | [-> | [-> | [-> | ->]]]]]]];
    injection Hi as <-;
    destruct Hj' as [-> | [-> | [-> | [-> | [-> | [-> | [-> | ->]]]]]]];
    injection Hj as <-; lia.
Qed.

(** X3.  On valid levels a correct answer postpones the review further
    than an incorrect one, and the higher the level the later the date:
    for two meanings answered correctly at the same time, the one at
    the higher level is due no earlier. *)
Theorem higher_level_later_review (m m' : Meaning) (now : Z) :
  levelInRange m -> levelInRange m' -> srs_level m <= srs_level m' ->
  ∃ slip due due',
    next_review_date (recordOutcome false now m) = Num slip ∧
    next_review_date (recordOutcome true now m) = Num due ∧
    next_review_date (recordOutcome true now m') = Num due' ∧
    now < slip ∧ slip < due ∧ due <= due'.
Proof.
  intros Hm Hm' Hle. pose proof maxLevel_eq as Hmax. unfold levelInRange in *.
  destruct (correct_date_in_range m now Hm) as (h & Hget & Hpos & Hd).
  destruct (correct_date_in_range m' now Hm') as (h' & Hget' & Hpos' & Hd').
  exists (now + 5 * 60 * 1000), (now + h * 60 * 60 * 1000),
    (now + h' * 60 * 60 * 1000).
  split; [apply recordOutcome_incorrect_date | split; [exact Hd | split; [exact Hd' |]]].
  assert (Hfirst : 4 <= h).
  { apply (intervals_increase 0 (srs_level (recordOutcome true now m) - 1) 4 h);
      [rewrite recordOutcome_correct_level; lia | reflexivity | exact Hget]. }
  assert (Hmono : h <= h').
  { apply (intervals_increase (srs_level (recordOutcome true now m) - 1)
             (srs_level (recordOutcome true now m') - 1));
      [rewrite !recordOutcome_correct_level; lia | exact Hget | exact Hget']. }
  lia.
Qed.

Lemma higher_level_later_review_witness :
  ∃ slip due due',
    next_review_date (recordOutcome false 1000 (sampleMeaning 2 (Num 0)))
      = Num slip ∧
    next_review_date (recordOutcome true 1000 (sampleMeaning 2 (Num 0)))
      = Num due ∧
    next_review_date (recordOutcome true 1000 (sampleMeaning 5 (Num 0)))
      = Num due' ∧
    1000 < slip ∧ slip < due ∧ due <= due'.
Proof.
  apply (higher_level_later_review (sampleMeaning 2 (Num 0))
           (sampleMeaning 5 (Num 0)) 1000);
    unfold levelInRange; simpl; rewrite ?maxLevel_eq; lia.
Defined.

(** X4.  A meaning just answered is not due again at once: on a valid
    level it is due no earlier than five minutes after the outcome was
    recorded, and after an incorrect outcome exactly from then on. *)
Theorem not_due_right_after_outcome (m : Meaning) (isCorrect : bool)
    (now t : Z) :
  levelInRange m ->
  (isDue t (recordOutcome isCorrect now m) = true -> now + 5 * 60 * 1000 <= t) ∧
  (isDue t (recordOutcome false now m) = true ↔ now + 5 * 60 * 1000 <= t).
Proof.
  intros Hrange.
  assert (Hslip : isDue t (recordOutcome false now m) = true
                  ↔ now + 5 * 60 * 1000 <= t).
  { unfold isDue. rewrite recordOutcome_incorrect_date. simpl. apply Z.leb_le. }
  split; [| exact Hslip].
  destruct isCorrect; [| apply Hslip].
  destruct (correct_date_in_range m now Hrange) as (h & Hget & _ & Hd).
  assert (Hfirst : 4 <= h).
  { apply (intervals_increase 0 (srs_level (recordOutcome true now m) - 1) 4 h);
      [| reflexivity | exact Hget].
    unfold levelInRange in Hrange. rewrite recordOutcome_correct_level.
    pose proof maxLevel_eq. lia. }
  unfold isDue. rewrite Hd. simpl. rewrite Z.leb_le. lia.
Qed.

Lemma not_due_right_after_outcome_witness :
  (isDue 1000 (recordOutcome true 1000 (sampleMeaning 2 (Num 0))) = true ->
   1000 + 5 * 60 * 1000 <= 1000) ∧
  (isDue 1000 (recordOutcome false 1000 (sampleMeaning 2 (Num 0))) = true
   ↔ 1000 + 5 * 60 * 1000 <= 1000).
Proof.
  apply (not_due_right_after_outcome (sampleMeaning 2 (Num 0)) true 1000 1000).
  unfold levelInRange. simpl. rewrite maxLevel_eq. lia.
Defined.

(** ** The review session and the list *)

Lemma isDue_later (now now' : Z) (m : Meaning) :
  now <= now' -> isDue now m = true -> isDue now' m = true.
Proof.
  intros Hle. rewrite !isDue_spec. intros (d & Hd & Hdue).
  exists d. split; [done | lia].
Qed.

Lemma omap_imap_sublist {A B : Type} (f g : nat -> A -> option B)
    (l : list A) :
  (∀ i x y, f i x = Some y -> g i x = Some y) ->
  omap (fun o => o) (imap f l) `sublist_of` omap (fun o => o) (imap g l).
Proof.
  revert f g. induction l as [| x l IH]; intros f g Hfg; [done |].
  simpl. destruct (f 0%nat x) as [y |] eqn:Hf.
  - rewrite (Hfg _ _ _ Hf). apply sublist_skip, IH.
    intros i. apply Hfg.
  - destruct (g 0%nat x); [apply sublist_cons |]; apply IH; intros i; apply Hfg.
Qed.

Lemma dueOfItem_later (now now' : Z) (item : VocabData) :
  now <= now' -> dueOfItem now item `sublist_of` dueOfItem now' item.
Proof.
  intros Hle. unfold dueOfItem. apply omap_imap_sublist.
  intros i m r. destruct (isDue now m) eqn:Hdue; [| done].
  by rewrite (isDue_later now now' m Hle Hdue).
Qed.

Lemma collectDue_later (vocabList : list VocabData) (now now' : Z) :
  now <= now' ->
  collectDue vocabList now `sublist_of` collectDue vocabList now'.
Proof.
  intros Hle. unfold collectDue.
  induction vocabList as [| item rest IH]; [done |].
  simpl. apply sublist_app; [by apply dueOfItem_later | exact IH].
Qed.

(** X5.  What is due stays due: for a given list, the meanings collected
    at one time are collected, in the same order, at every later time,
    so the count shown on the review button, computed when the list
    last changed, never overstates what a session started later
    finds. *)
Theorem due_stays_due (vocabList : list VocabData) (now now' : Z) :
  now <= now' ->
  collectDue vocabList now `sublist_of` collectDue vocabList now' ∧
  (wordsForReviewCount vocabList now <= wordsForReviewCount vocabList now')%nat.
Proof.
  intros Hle. split; [by apply collectDue_later |].
  rewrite !wordsForReviewCount_collectDue.
  apply sublist_length. by apply collectDue_later.
Qed.

Lemma due_stays_due_witness :
  collectDue sampleList 1000 `sublist_of` collectDue sampleList 3000 ∧
  (wordsForReviewCount sampleList 1000 <= wordsForReviewCount sampleList 3000)%nat.
Proof. apply (due_stays_due sampleList 1000 3000). lia. Defined.

Lemma startReviewSession_perm (vocabList : list VocabData) (now : Z)
    (draws : nat -> Z) :
  startReviewSession vocabList now draws
  ≡ₚ take 10 (prioritized (collectDue vocabList now)).
Proof. apply buildSession_perm. Qed.

(** X6.  A session holds ten items, or all the meanings due when it
    starts if these are fewer, and then it is a rearrangement of all of
    them.  The count on the review button is computed when the list
    last changed, at [shown], and the session reads the clock afresh,
    at [now]: for the same list the session holds at least as many
    items as the smaller of 10 and the count shown, and it can hold
    more. *)
Theorem session_takes_all_when_few (vocabList : list VocabData)
    (shown now : Z) (draws : nat -> Z) :
  shown <= now ->
  length (startReviewSession vocabList now draws)
    = (10 `min` length (collectDue vocabList now))%nat ∧
  (10 `min` wordsForReviewCount vocabList shown
   <= length (startReviewSession vocabList now draws))%nat ∧
  ((length (collectDue vocabList now) <= 10)%nat ->
   startReviewSession vocabList now draws ≡ₚ collectDue vocabList now).
Proof.
  intros Hlater.
  assert (length (startReviewSession vocabList now draws)
          = (10 `min` length (collectDue vocabList now))%nat) as Hlen.
  { rewrite startReviewSession_perm, length_take.
    by rewrite prioritized_perm. }
  split; [exact Hlen | split].
  - rewrite Hlen, wordsForReviewCount_collectDue.
    pose proof (sublist_length _ _
                  (collectDue_later vocabList shown now Hlater)).
    lia.
  - intros Hfew. rewrite startReviewSession_perm.
    rewrite take_ge; [apply prioritized_perm |].
    by rewrite prioritized_perm.
Qed.

(** The count shown can fall short of the session: two meanings of the
    sample list are due at 1000, the session started at 3000 holds
    three. *)
Lemma session_takes_all_when_few_witness :
  wordsForReviewCount sampleList 1000 = 2%nat ∧
  length (startReviewSession sampleList 3000 (fun _ => 1)) = 3%nat ∧
  startReviewSession sampleList 3000 (fun _ => 1) ≡ₚ collectDue sampleList 3000.
Proof.
  destruct (session_takes_all_when_few sampleList 1000 3000 (fun _ => 1))
    as (Hlen & _ & Hall); [lia |].
  split; [reflexivity | split].
  - rewrite Hlen. reflexivity.
  - apply Hall. vm_compute. lia.
Defined.

(** X7.  Every item of a session names a meaning of the list: there is
    an item in the list with the id and the word the review item
    carries, whose meaning at the index carried is the meaning carried,
    and that meaning is due. *)
Theorem session_items_are_due_meanings (vocabList : list VocabData)
    (now : Z) (draws : nat -> Z) :
  Forall (fun r =>
            ∃ item, item ∈ vocabList ∧
                    id item = r_wordId r ∧
                    word item = r_word r ∧
                    meanings item !! r_meaningIndex r = Some (r_meaning r) ∧
                    isDue now (r_meaning r) = true)
    (startReviewSession vocabList now draws).
Proof.
  apply Forall_forall. intros r Hr.
  rewrite startReviewSession_perm in Hr.
  apply elem_of_take in Hr as (i & Hr & _).
  apply list_elem_of_lookup_2 in Hr. rewrite prioritized_perm in Hr.
  apply collectDue_elem in Hr as (item & j & m & Hitem & Hm & Hdue & ->).
  exists item. simpl. by repeat split.
Qed.

Lemma mapM_slotMeaning_Elem (ms : list Meaning) :
  mapM slotMeaning (Elem <$> ms) = Some ms.
Proof.
  apply mapM_Some. apply Forall2_fmap_l. apply Forall_Forall2_diag.
  by apply Forall_forall.
Qed.

(** The item the callback returns, read at the declared type; there is
    none when the item is named but has no meaning at the index. *)
Lemma asVocabData_updateItem (wordId : string) (meaningIndex : nat)
    (isCorrect : bool) (now : Z) (item : VocabData) :
  asVocabData (updateItem wordId meaningIndex isCorrect now item)
  = if decide (id item = wordId) then
      (fun m => withMeaning item meaningIndex (recordOutcome isCorrect now m))
        <$> meanings item !! meaningIndex
    else Some item.
Proof.
  unfold updateItem, asVocabData.
  destruct (decide (id item = wordId)) as [Heq | Hne]; simpl.
  - destruct (meanings item !! meaningIndex) as [m |] eqn:Hm; simpl.
    + rewrite setAt_in_range
        by (rewrite length_fmap; by apply lookup_lt_Some in Hm).
      rewrite <- list_fmap_insert, mapM_slotMeaning_Elem. done.
    + assert (Hnone : mapM slotMeaning
                (setAt Empty meaningIndex (recordOutcomeBare isCorrect now)
                   (Elem <$> meanings item)) = None).
      { apply mapM_None, Exists_exists.
        exists (recordOutcomeBare isCorrect now). split.
        - apply list_elem_of_lookup. exists meaningIndex.
          apply setAt_lookup_same.
        - by destruct isCorrect. }
      by rewrite Hnone.
  - rewrite mapM_slotMeaning_Elem. simpl. by destruct item.
Qed.

(** X8.  Recording the outcome of a session item changes that meaning
    and nothing else.  When the ids of the list are pairwise distinct,
    the list stored after the outcome of a collected review item is the
    list before with one item replaced: the item the review item came
    from, with the outcome applied to the meaning at its index. *)
Theorem review_updates_one_meaning (vocabList : list VocabData) (now : Z)
    (r : ReviewItem) (isCorrect : bool) (clock : nat -> Z) :
  NoDup (id <$> vocabList) ->
  r ∈ collectDue vocabList now ->
  ∃ k item,
    vocabList !! k = Some item ∧
    id item = r_wordId r ∧
    meanings item !! r_meaningIndex r = Some (r_meaning r) ∧
    nextVocabList (r_wordId r) (r_meaningIndex r) isCorrect clock vocabList
    = Some (<[k := withMeaning item (r_meaningIndex r)
                     (recordOutcome isCorrect (clock k) (r_meaning r))]>
              vocabList).
Proof.
  intros Hnd Hr.
  apply collectDue_elem in Hr as (item & idx & m & Hitem & Hm & _ & ->).
  apply list_elem_of_lookup in Hitem as [k Hk].
  exists k, item. simpl. split; [exact Hk | split; [done | split; [exact Hm |]]].
  unfold nextVocabList, handleQuizComplete.
  apply mapM_Some. apply Forall2_same_length_lookup.
  split; [by rewrite length_imap, length_insert |].
  intros i u item' Hu Hitem'.
  rewrite list_lookup_imap in Hu.
  destruct (vocabList !! i) as [it |] eqn:Hi; [| done].
  injection Hu as <-. rewrite asVocabData_updateItem.
  destruct (decide (i = k)) as [-> | Hne].
  - rewrite list_lookup_insert_eq in Hitem' by (by apply lookup_lt_Some in Hk).
    injection Hitem' as <-. rewrite Hk in Hi. injection Hi as <-.
    rewrite decide_True by done. by rewrite Hm.
  - rewrite list_lookup_insert_ne in Hitem' by done.
    rewrite Hi in Hitem'. injection Hitem' as <-.
    rewrite decide_False; [done |].
    intros Hid. apply Hne.
    apply (NoDup_lookup (id <$> vocabList) i k (id it)); [exact Hnd | |].
    + by rewrite list_lookup_fmap, Hi.
    + by rewrite list_lookup_fmap, Hk, Hid.
Qed.

Lemma review_updates_one_meaning_witness :
  ∃ k item,
    sampleList !! k = Some item ∧
    id item = "1700000000002" ∧
    meanings item !! 0%nat = Some (sampleMeaning 7 (Num 100)) ∧
    nextVocabList "1700000000002" 0 true (fun _ => 5000) sampleList
    = Some (<[k := withMeaning item 0
                     (recordOutcome true 5000 (sampleMeaning 7 (Num 100)))]>
              sampleList).
Proof.
  apply (review_updates_one_meaning sampleList 1000
           {| r_word := "run"; r_meaning := sampleMeaning 7 (Num 100);
              r_meaningIndex := 0; r_wordId := "1700000000002" |}
           true (fun _ => 5000)).
  - simpl. repeat constructor; rewrite ?elem_of_cons, ?elem_of_nil;
      intuition discriminate.
  - vm_compute. repeat constructor.
Defined.

(** ** Saving and loading *)

Lemma omap_imap_all {A B : Type} (f : nat -> A -> option B) (g : A -> B)
    (l : list A) :
  (∀ i x, l !! i = Some x -> f i x = Some (g x)) ->
  omap (fun o => o) (imap f l) = g <$> l.
Proof.
  revert f. induction l as [| x l IH]; intros f Hf; [done |].
  simpl. rewrite (Hf 0%nat x eq_refl). simpl. f_equal.
  apply IH. intros i y Hy. apply (Hf (S i)). exact Hy.
Qed.

Lemma imap_fixed {A : Type} (f : nat -> A -> A) (l : list A) :
  (∀ i x, l !! i = Some x -> f i x = x) -> imap f l = l.
Proof.
  revert f. induction l as [| x l IH]; intros f Hf; [done |].
  simpl. rewrite (Hf 0%nat x eq_refl). f_equal.
  apply IH. intros i y Hy. apply (Hf (S i)). exact Hy.
Qed.

Lemma filter_all {A : Type} (p : A -> bool) (l : list A) :
  Forall (fun x => p x = true) l -> List.filter p l = l.
Proof.
  induction 1 as [| x l Hx _ IH]; [done |]. simpl. by rewrite Hx, IH.
Qed.

Lemma filter_fmap {A B : Type} (p : B -> bool) (f : A -> B) (l : list A) :
  List.filter p (f <$> l) = f <$> List.filter (fun x => p (f x)) l.
Proof.
  induction l as [| x l IH]; [done |]. simpl.
  destruct (p (f x)); simpl; [f_equal |]; exact IH.
Qed.

Lemma encodeMeaning_accepted (m : Meaning) : rejected (encodeMeaning m) = false.
Proof. reflexivity. Qed.

Lemma migrateMeaning_encodeMeaning (now : Z) (m : Meaning) :
  migrateMeaning now (encodeMeaning m) = Some (encodeMeaning m).
Proof. reflexivity. Qed.

Lemma validMeanings_encoded (clock : nat -> Z) (ms : list Meaning) :
  validMeanings clock (encodeMeaning <$> ms) = encodeMeaning <$> ms.
Proof.
  unfold validMeanings.
  rewrite (omap_imap_all _ (fun m => m)); [by rewrite list_fmap_id |].
  intros i x Hx. rewrite list_lookup_fmap in Hx.
  destruct (ms !! i) as [m |]; [| done]. injection Hx as <-.
  apply migrateMeaning_encodeMeaning.
Qed.

Lemma encodeItem_meanings (item : VocabData) :
  (<["id" := JStr (id item)]>
     (<["word" := JStr (word item)]>
        (<["meanings" := JArr (encodeMeaning <$> meanings item)]>
           (∅ : gmap string json))))
  !! "meanings" = Some (JArr (encodeMeaning <$> meanings item)).
Proof. reflexivity. Qed.

Lemma migrateItem_encodeItem (clock : nat -> Z) (item : VocabData) :
  migrateItem clock (encodeItem item) = encodeItem item.
Proof.
  unfold migrateItem, encodeItem. rewrite encodeItem_meanings.
  rewrite validMeanings_encoded. reflexivity.
Qed.

Lemma hasMeanings_encodeItem (item : VocabData) :
  hasMeanings (encodeItem item) = (0 <? length (meanings item))%nat.
Proof.
  unfold hasMeanings, encodeItem, prop. rewrite encodeItem_meanings.
  by rewrite length_fmap.
Qed.

Example savedList_sample :
  loadList (fun _ _ => 9000) (savedList sampleList)
  = Some (encodeItem <$> sampleList).
Proof. vm_compute. reflexivity. Qed.

(** X9.  What the application saves it loads back unchanged: the
    migration of a saved list is the saved list, less the items that
    have no meaning, which the last filter drops.  The clock is not
    read. *)
Theorem saved_list_loads_back (clock : nat -> nat -> Z)
    (vocabList : list VocabData) :
  loadList clock (savedList vocabList)
    = Some (encodeItem
              <$> List.filter (fun item => (0 <? length (meanings item))%nat)
                    vocabList) ∧
  (Forall (fun item => meanings item ≠ []) vocabList ->
   loadList clock (savedList vocabList) = Some (encodeItem <$> vocabList)).
Proof.
  assert (Hload : loadList clock (savedList vocabList)
    = Some (encodeItem
              <$> List.filter (fun item => (0 <? length (meanings item))%nat)
                    vocabList)).
  { unfold loadList, savedList, migratedList. f_equal.
    rewrite (filter_all keepItem)
      by (apply Forall_forall; intros x Hx;
          apply list_elem_of_fmap in Hx as (item & -> & _); reflexivity).
    rewrite imap_fixed.
    - rewrite filter_fmap. f_equal.
      induction vocabList as [| item rest IH]; [done |]. simpl.
      rewrite hasMeanings_encodeItem.
      destruct (0 <? length (meanings item))%nat; by rewrite IH.
    - intros i x Hx. rewrite list_lookup_fmap in Hx.
      destruct (vocabList !! i) as [item |]; [| done]. injection Hx as <-.
      apply migrateItem_encodeItem. }
  split; [exact Hload |].
  intros Hall. rewrite Hload. do 2 f_equal. apply filter_all.
  eapply Forall_impl; [exact Hall |]. intros item.
  cbv beta. destruct (meanings item); intros Hne; [done | reflexivity].
Qed.

Lemma saved_list_loads_back_witness :
  loadList (fun _ _ => 9000) (savedList sampleList)
  = Some (encodeItem <$> sampleList).
Proof.
  destruct (saved_list_loads_back (fun _ _ => 9000) sampleList) as [_ Hall].
  apply Hall. repeat constructor; discriminate.
Defined.

(** The guards look at three properties only. *)
Lemma rejected_insert (k : string) (v : json) (o : gmap string json) :
  k ≠ "multiple_choice" -> k ≠ "gap_fill_prompt" -> k ≠ "one_word_arabic" ->
  rejected (JObj (<[k := v]> o)) = rejected (JObj o).
Proof.
  intros H1 H2 H3.
  unfold rejected, notAnObject, badMultipleChoice, missingCritical, prop.
  by rewrite !lookup_insert_ne.
Qed.

Lemma migrateMeaning_loaded (now : Z) (m r : json) :
  migrateMeaning now m = Some r -> loadedMeaning r.
Proof.
  intros Hm.
  destruct (rejected m) eqn:Hrej;
    [by rewrite (migrateMeaning_rejected now m Hrej) in Hm |].
  destruct (migrateMeaning_accepted now m Hrej) as (o & -> & Heq).
  rewrite Heq in Hm. clear Heq.
  destruct (hasKey "srs_level" o && hasKey "next_review_date" o) eqn:Hkeys.
  - injection Hm as <-. apply andb_prop in Hkeys as [Hl Hd].
    split; [exact Hrej |]. by exists o.
  - injection Hm as <-. split.
    + by rewrite !rejected_insert.
    + eexists. split; [reflexivity |]. unfold hasKey. split.
      * apply bool_decide_eq_true_2.
        rewrite lookup_insert_ne by done. rewrite lookup_insert_eq. by eexists.
      * apply bool_decide_eq_true_2. rewrite lookup_insert_eq. by eexists.
Qed.

Lemma loadedMeaning_kept (now : Z) (m : json) :
  loadedMeaning m -> migrateMeaning now m = Some m.
Proof.
  intros (Hrej & o & -> & Hl & Hd).
  destruct (migrateMeaning_accepted now _ Hrej) as (o' & [= <-] & ->).
  by rewrite Hl, Hd.
Qed.

Lemma validMeanings_loaded (clock : nat -> Z) (ms : list json) :
  Forall loadedMeaning (validMeanings clock ms).
Proof.
  apply Forall_forall. intros r Hr.
  apply validMeanings_elem in Hr as (j & m & _ & Hm).
  by eapply migrateMeaning_loaded.
Qed.

Lemma validMeanings_kept (clock : nat -> Z) (ms : list json) :
  Forall loadedMeaning ms -> validMeanings clock ms = ms.
Proof.
  intros Hall. unfold validMeanings.
  rewrite (omap_imap_all _ (fun m => m)); [by rewrite list_fmap_id |].
  intros i x Hx. apply loadedMeaning_kept.
  by eapply Forall_lookup_1.
Qed.

Lemma keepItem_shape (item : json) :
  keepItem item = true ->
  ∃ o ms w, item = JObj o ∧ o !! "meanings" = Some (JArr ms)
            ∧ o !! "word" = Some (JStr w).
Proof.
  unfold keepItem, prop.
  destruct item as [| | | | | o]; try done. simpl.
  destruct (o !! "meanings") as [[| | | | ms |] |] eqn:Hms; try done.
  destruct (o !! "word") as [[| | | w | |] |] eqn:Hw; try done.
  intros _. by exists o, ms, w.
Qed.

Lemma migrateItem_loaded (clock : nat -> Z) (item : json) :
  keepItem item = true ->
  hasMeanings (migrateItem clock item) = true ->
  loadedItem (migrateItem clock item).
Proof.
  intros Hkeep Hhas.
  destruct (keepItem_shape item Hkeep) as (o & ms & w & -> & Hms & Hw).
  unfold migrateItem in *. rewrite Hms in *.
  split.
  - unfold keepItem, prop. simpl.
    rewrite lookup_insert_eq. rewrite lookup_insert_ne by done. by rewrite Hw.
  - eexists _, (validMeanings clock ms).
    split; [reflexivity | split; [apply lookup_insert_eq | split]].
    + unfold hasMeanings, prop in Hhas. rewrite lookup_insert_eq in Hhas.
      destruct (validMeanings clock ms); [done | done].
    + apply validMeanings_loaded.
Qed.

Lemma loadedItem_kept (clock : nat -> Z) (item : json) :
  loadedItem item ->
  migrateItem clock item = item ∧ hasMeanings item = true.
Proof.
  intros (_ & o & ms & -> & Hms & Hne & Hall).
  unfold migrateItem, hasMeanings, prop. rewrite Hms.
  rewrite (validMeanings_kept clock ms Hall). split.
  - f_equal. by apply insert_id.
  - by destruct ms.
Qed.

Lemma migratedList_loaded (clock : nat -> nat -> Z) (parsedList : list json) :
  Forall loadedItem (migratedList clock parsedList).
Proof.
  apply Forall_forall. intros item Hitem. unfold migratedList in Hitem.
  apply list_elem_of_In, filter_In in Hitem as [Hin Hhas].
  apply list_elem_of_In, elem_of_lookup_imap in Hin as (i & x & -> & Hx).
  apply migrateItem_loaded; [| exact Hhas].
  apply list_elem_of_lookup_2, list_elem_of_In, filter_In in Hx. tauto.
Qed.

Lemma migratedList_kept (clock : nat -> nat -> Z) (loaded : list json) :
  Forall loadedItem loaded -> migratedList clock loaded = loaded.
Proof.
  intros Hall. unfold migratedList.
  rewrite (filter_all keepItem)
    by (eapply Forall_impl; [exact Hall |]; by intros item [Hk _]).
  rewrite imap_fixed.
  - apply filter_all. eapply Forall_impl; [exact Hall |].
    intros item Hitem. by destruct (loadedItem_kept (fun _ => 0) item Hitem).
  - intros i item Hitem.
    apply (loadedItem_kept (clock i) item).
    by eapply Forall_lookup_1.
Qed.

(** X10.  Whatever array is read from localStorage, the list the load
    effect stores is well formed: every item has passed the first
    filter and has a non-empty array of meanings, each of which has
    passed the guards and has both scheduling fields.  Loading such a
    list again returns it as it is. *)
Theorem loaded_list_well_formed (clock clock' : nat -> nat -> Z)
    (parsedList : list json) :
  Forall loadedItem (migratedList clock parsedList) ∧
  migratedList clock' (migratedList clock parsedList)
    = migratedList clock parsedList.
Proof.
  split; [apply migratedList_loaded |].
  apply migratedList_kept, migratedList_loaded.
Qed.

(** ** The response of the content service *)

Lemma validateMeaning_not_null (meaning : json) :
  meaning ≠ JNull -> ∃ fixed, validateMeaning meaning = inr fixed.
Proof.
  intros Hne. unfold validateMeaning.
  destruct (isNull (Some meaning)) eqn:Hnull.
  - by destruct meaning.
  - destruct (negb (falsy (prop (Some meaning) "multiple_choice"))
              && isArray (prop (prop (Some meaning) "multiple_choice") "options"));
      [| by eexists].
    destruct (prop (prop (Some meaning) "multiple_choice") "options")
      as [[| | | | |] |]; by eexists.
Qed.

Lemma validateMeaning_inl (meaning : json) (e : ApiError) :
  validateMeaning meaning = inl e -> meaning = JNull ∧ e = PropertyOfNull.
Proof.
  intros H. destruct meaning; [by injection H as <- | ..];
    match goal with
    | H : validateMeaning ?x = _ |- _ =>
        destruct (validateMeaning_not_null x) as [f Hf];
        [discriminate | congruence]
    end.
Qed.

Lemma validateMeanings_inr (meanings : list json)
    (done : list (json * option (list (option json)))) :
  validateMeanings meanings = inr done ->
  fst <$> done = meanings ∧ JNull ∉ meanings.
Proof.
  revert done. induction meanings as [| m rest IH]; intros done; simpl.
  - intros [= <-]. split; [done | apply not_elem_of_nil].
  - destruct (validateMeaning m) as [e | fixed] eqn:Hm; [done |].
    destruct (validateMeanings rest) as [e | done'] eqn:Hrest; [done |].
    intros [= <-]. destruct (IH done' eq_refl) as [Hfst Hnull].
    split; [simpl; f_equal; exact Hfst |].
    apply not_elem_of_cons. split; [| exact Hnull].
    intros <-. discriminate Hm.
Qed.

Lemma validateMeanings_inl (meanings : list json) (e : ApiError) :
  validateMeanings meanings = inl e -> e = PropertyOfNull ∧ JNull ∈ meanings.
Proof.
  induction meanings as [| m rest IH]; simpl; [done |].
  destruct (validateMeaning m) as [e' | fixed] eqn:Hm.
  - intros [= <-]. apply validateMeaning_inl in Hm as [-> ->].
    split; [done | left].
  - destruct (validateMeanings rest) as [e' | done'] eqn:Hrest; [| done].
    intros [= <-]. destruct (IH eq_refl) as [-> Hin]. split; [done | by right].
Qed.

Lemma validateMeanings_total (meanings : list json) :
  JNull ∉ meanings -> ∃ done, validateMeanings meanings = inr done.
Proof.
  intros Hnull. destruct (validateMeanings meanings) as [e | done] eqn:Hv.
  - by destruct (validateMeanings_inl _ _ Hv) as [_ Hin].
  - by exists done.
Qed.

Lemma falsy_no_property (v : json) (k : string) :
  falsy (Some v) = true -> prop (Some v) k = None.
Proof. by destruct v. Qed.

Example validateApiResponse_sample :
  validateApiResponse
    (JObj (<["meanings" :=
               JArr [JObj (<["multiple_choice" :=
                                JObj (<["options" :=
                                          JArr [JStr "car"; JStr "tree"]]>
                                        (<["correct_answer" := JStr "book"]> ∅))]>
                             ∅);
                     JNum 5]]> ∅))
  = inr [ (JObj (<["multiple_choice" :=
                     JObj (<["options" := JArr [JStr "car"; JStr "tree"]]>
                             (<["correct_answer" := JStr "book"]> ∅))]> ∅),
           Some [Some (JStr "car"); Some (JStr "book")]);
          (JNum 5, None) ].
Proof. vm_compute. reflexivity. Qed.

(** X11.  The response is refused with the error about a missing
    [meanings] array exactly when [data.meanings] is not an array
    (which covers a response that is [null], a number, a string or an
    array); it fails on reading a property of [null] exactly when the
    array has a [null] element; otherwise it succeeds, and returns the
    meanings it was given, as many and in the same order. *)
Theorem validateApiResponse_outcome (data : json) :
  (validateApiResponse data = inl MissingMeanings
   ↔ isArray (prop (Some data) "meanings") = false) ∧
  (validateApiResponse data = inl PropertyOfNull
   ↔ ∃ meanings, prop (Some data) "meanings" = Some (JArr meanings)
                 ∧ JNull ∈ meanings) ∧
  (∀ done, validateApiResponse data = inr done ->
           prop (Some data) "meanings" = Some (JArr (fst <$> done))) ∧
  ((∃ done, validateApiResponse data = inr done)
   ↔ ∃ meanings, prop (Some data) "meanings" = Some (JArr meanings)
                 ∧ JNull ∉ meanings).
Proof.
  unfold validateApiResponse.
  pose proof (falsy_no_property data "meanings") as Hnone.
  destruct (prop (Some data) "meanings") as [[| | | | meanings |] |] eqn:Hprop;
    destruct (falsy (Some data)) eqn:Hfalsy;
    try (by specialize (Hnone eq_refl));
    cbn [orb negb isArray];
    try (repeat split;
         first [done | by intros (? & ? & ?) | by intros [? ?]]).
  split; [| split; [| split]].
  - split; [| done]. intros Hv.
    destruct (validateMeanings_inl _ _ Hv) as [Habs _]. discriminate Habs.
  - split.
    + intros Hv. destruct (validateMeanings_inl _ _ Hv) as [_ Hin].
      by exists meanings.
    + intros (ms & [= <-] & Hin).
      destruct (validateMeanings meanings) as [e | done] eqn:Hv.
      * by destruct (validateMeanings_inl _ _ Hv) as [-> _].
      * by destruct (validateMeanings_inr _ _ Hv) as [_ Hnot].
  - intros done Hv. by destruct (validateMeanings_inr _ _ Hv) as [<- _].
  - split.
    + intros [done Hv]. exists meanings. split; [done |].
      by destruct (validateMeanings_inr _ _ Hv) as [_ Hnot].
    + intros (ms & [= <-] & Hnot). by apply validateMeanings_total.
Qed.

Lemma sameValueZero_refl (v : option json) :
  isPrimitive v = true -> sameValueZero v v = true.
Proof.
  destruct v as [[| b | n | s | |] |]; simpl; try done; intros _.
  - by apply bool_decide_eq_true_2.
  - apply Z.eqb_refl.
  - by apply bool_decide_eq_true_2.
Qed.

Lemma assignLast_snoc (init : list (option json)) (y x : option json) :
  assignLast (init ++ [y]) x = init ++ [x].
Proof.
  unfold assignLast. rewrite length_app. simpl.
  replace (length init + 1)%nat with (S (length init)) by lia.
  rewrite insert_app_r_alt by lia.
  by replace (length init - length init)%nat with 0%nat by lia.
Qed.

Lemma includes_snoc (init : list (option json)) (x : option json) :
  isPrimitive x = true -> includes (init ++ [x]) x = true.
Proof.
  intros Hx. unfold includes. rewrite existsb_app. simpl.
  rewrite (sameValueZero_refl x Hx). by rewrite orb_true_r.
Qed.

(** X12.  What the patch does to an [options] array.  The array keeps
    its length.  If it holds the correct answer it is left as it is.
    If not, its last element is replaced by the correct answer and the
    others are kept.  So, for a correct answer that is not itself an
    object or array, the answer is among the options afterwards exactly
    when the array is not empty: an empty array stays empty. *)
Theorem fixOptions_spec (options : list json) (correct_answer : option json) :
  length (fixOptions options correct_answer) = length options ∧
  (includes (Some <$> options) correct_answer = true ->
   fixOptions options correct_answer = Some <$> options) ∧
  (includes (Some <$> options) correct_answer = false ->
   ∀ init lastOption, options = init ++ [lastOption] ->
     fixOptions options correct_answer = (Some <$> init) ++ [correct_answer]) ∧
  (isPrimitive correct_answer = true ->
   (includes (fixOptions options correct_answer) correct_answer = true
    ↔ options ≠ [])).
Proof.
  unfold fixOptions.
  destruct (includes (Some <$> options) correct_answer) eqn:Hinc; simpl.
  - split; [by rewrite length_fmap | split; [done | split; [done |]]].
    intros _. rewrite Hinc. split; [| done].
    intros _ ->. discriminate Hinc.
  - assert (Hsnoc : ∀ init lastOption, options = init ++ [lastOption] ->
              assignLast (Some <$> options) correct_answer
              = (Some <$> init) ++ [correct_answer]).
    { intros init lastOption ->. rewrite fmap_app. apply assignLast_snoc. }
    split; [| split; [done | split; [intros _; exact Hsnoc |]]].
    + unfold assignLast. rewrite length_fmap.
      destruct (length options) eqn:Hlen; simpl;
        rewrite ?length_insert, length_fmap; done.
    + intros Hprim. clear Hinc. revert Hsnoc.
      induction options as [| y init _] using rev_ind; intros Hsnoc.
      * split; [done | by intros H].
      * rewrite (Hsnoc init y eq_refl). rewrite (includes_snoc _ _ Hprim).
        split; [| done]. intros _. by destruct init.
Qed.

(** ** The multiple-choice quiz *)

(** X13.  The options shown are the options of the meaning, rearranged;
    whatever the shuffle, one of them is accepted as correct exactly
    when the correct answer is among the options of the meaning. *)
Theorem correct_option_on_display (draws : nat -> Z) (meaning : Meaning) :
  displayedOptions draws meaning ≡ₚ options (multiple_choice meaning) ∧
  ((∃ o, o ∈ displayedOptions draws meaning ∧ mcIsCorrect meaning o = true)
   ↔ correct_answer (multiple_choice meaning)
       ∈ options (multiple_choice meaning)).
Proof.
  assert (Hperm : displayedOptions draws meaning
                  ≡ₚ options (multiple_choice meaning))
    by apply sortArray_perm.
  split; [exact Hperm |]. unfold mcIsCorrect. split.
  - intros (o & Ho & Hc). apply bool_decide_eq_true_1 in Hc as <-.
    by rewrite <- Hperm.
  - intros Hin. exists (correct_answer (multiple_choice meaning)).
    split; [by rewrite Hperm | by apply bool_decide_eq_true_2].
Qed.

(** ** Adding a word *)

Lemma masteryCounts_eq (vocabList : list VocabData) :
  masteryCounts vocabList
  = (length (List.filter (isMastered MASTERY_THRESHOLD) vocabList),
     (length vocabList
      - length (List.filter (isMastered MASTERY_THRESHOLD) vocabList))%nat).
Proof.
  unfold masteryCounts. destruct vocabList as [| w rest]; [done |].
  change (length (w :: rest) =? 0)%nat with false. cbv iota.
  rewrite mastered_count. done.
Qed.

Lemma newVocab_not_mastered (created : Z) (clock : nat -> Z) (w : string)
    (ms : list Meaning) :
  ms ≠ [] -> isMastered MASTERY_THRESHOLD (newVocab created clock w ms) = false.
Proof. by destruct ms. Qed.

Lemma newVocab_all_due (created : Z) (clock : nat -> Z) (w : string)
    (ms : list Meaning) (t : Z) :
  (∀ j, (j < length ms)%nat -> clock j <= t) ->
  List.filter (isDue t) (meanings (newVocab created clock w ms))
  = meanings (newVocab created clock w ms).
Proof.
  intros Hclock. apply filter_all. apply Forall_forall. intros m Hm.
  simpl in Hm. apply elem_of_lookup_imap in Hm as (j & m0 & -> & Hj).
  unfold isDue. simpl. apply Z.leb_le, Hclock. by apply lookup_lt_Some in Hj.
Qed.

(** X14.  A response without meanings adds nothing and raises the
    error.  Otherwise the word is put in front of the list with every
    meaning at level 0; at any time from the last clock reading on, all
    its meanings are due, so the count for review grows by their
    number; and the word counts as in progress, not as mastered. *)
Theorem learned_word_is_due_and_in_progress (created : Z) (clock : nat -> Z)
    (w : string) (ms : list Meaning) (prev : list VocabData) (t : Z) :
  (ms = [] -> addLearned created clock w ms prev = inl (NoDefinition w)) ∧
  (ms ≠ [] ->
   (∀ j, (j < length ms)%nat -> clock j <= t) ->
   addLearned created clock w ms prev
     = inr (newVocab created clock w ms :: prev) ∧
   Forall (fun m => srs_level m = 0)
     (meanings (newVocab created clock w ms)) ∧
   wordsForReviewCount (newVocab created clock w ms :: prev) t
     = (length ms + wordsForReviewCount prev t)%nat ∧
   (masteryCounts (newVocab created clock w ms :: prev)).1
     = (masteryCounts prev).1 ∧
   (masteryCounts (newVocab created clock w ms :: prev)).2
     = S (masteryCounts prev).2).
Proof.
  split; [by intros -> |].
  intros Hne Hclock.
  split; [by destruct ms | split; [| split]].
  - apply Forall_forall. intros m Hm. simpl in Hm.
    by apply elem_of_lookup_imap in Hm as (j & m0 & -> & _).
  - rewrite !wordsForReviewCount_collectDue, !collectDue_length.
    cbn [sum_list_with].
    rewrite (newVocab_all_due created clock w ms t Hclock). simpl.
    by rewrite length_imap.
  - rewrite !masteryCounts_eq. cbn [fst snd List.filter length].
    rewrite (newVocab_not_mastered created clock w ms Hne).
    pose proof (List.filter_length_le (isMastered MASTERY_THRESHOLD) prev).
    split; lia.
Qed.

Lemma learned_word_is_due_and_in_progress_witness :
  wordsForReviewCount
    (newVocab 7000 (fun _ => 7001) "tree" [sampleMeaning 4 NaN] :: sampleList)
    8000
  = (1 + wordsForReviewCount sampleList 8000)%nat.
Proof.
  destruct (learned_word_is_due_and_in_progress 7000 (fun _ => 7001) "tree"
              [sampleMeaning 4 NaN] sampleList 8000) as [_ Hadd].
  destruct Hadd as (_ & _ & Hcount & _); [discriminate | intros; lia |].
  exact Hcount.
Defined.

(** ** Learning a word twice *)

Section LearnWordFacts.
Variables trim toLowerCase : string -> string.

Lemma handleLearnWord_fetch (word0 : string) (vocabList : list VocabData)
    (w : string) :
  handleLearnWord trim toLowerCase word0 vocabList = Fetch w ->
  w = trim word0 ∧
  toLowerCase (trim word0) ≠ "" ∧
  ∀ item, item ∈ vocabList ->
          toLowerCase (word item) ≠ toLowerCase (trim word0).
Proof.
  unfold handleLearnWord. case_bool_decide as Hblank; [done |].
  destruct (List.find _ vocabList) as [existing |] eqn:Hfind; [done |].
  intros [= <-]. split; [done | split; [done |]].
  intros item Hitem Heq.
  apply list_elem_of_In in Hitem.
  pose proof (List.find_none _ _ Hfind item Hitem) as Hno. simpl in Hno.
  by rewrite bool_decide_eq_true_2 in Hno.
Qed.

Lemma learnWord_step (word0 : string) (vocabList : list VocabData)
    (created : Z) (clock : nat -> Z) (ms : list Meaning)
    (prev : list VocabData) :
  (NoDup ((fun item => toLowerCase (word item)) <$> prev) ->
   (∀ item, item ∈ prev -> ∃ item', item' ∈ vocabList ∧ word item' = word item) ->
   NoDup ((fun item => toLowerCase (word item))
            <$> learnWord trim toLowerCase word0 vocabList created clock ms prev)) ∧
  ((∃ item, item ∈ vocabList
            ∧ toLowerCase (word item) = toLowerCase (trim word0)) ->
   learnWord trim toLowerCase word0 vocabList created clock ms prev = prev) ∧
  (toLowerCase (trim word0) = "" ->
   learnWord trim toLowerCase word0 vocabList created clock ms prev = prev) ∧
  (NoDup (id <$> prev) -> pretty created ∉ id <$> prev ->
   NoDup (id <$> learnWord trim toLowerCase word0 vocabList created clock ms prev)).
Proof.
  unfold learnWord.
  destruct (handleLearnWord trim toLowerCase word0 vocabList) as [| e | w]
    eqn:Haction.
  - repeat split; done.
  - repeat split; done.
  - destruct (handleLearnWord_fetch _ _ _ Haction) as (-> & Hblank & Hfresh).
    unfold addLearned. destruct (length ms =? 0)%nat.
    { split; [done | split; [done | split; done]]. }
    split; [| split; [| split]].
    + intros Hnd Hsame. simpl. apply NoDup_cons. split; [| exact Hnd].
      intros Hin. apply list_elem_of_fmap in Hin as (item & Heq & Hitem).
      destruct (Hsame item Hitem) as (item' & Hitem' & Hword).
      apply (Hfresh item' Hitem'). by rewrite Hword.
    + intros (item & Hitem & Heq). by destruct (Hfresh item Hitem).
    + intros Heq. by destruct Hblank.
    + intros Hnd Hnew. simpl. by apply NoDup_cons.
Qed.

Lemma handleLearnWord_new (word0 : string) (vocabList : list VocabData) :
  toLowerCase (trim word0) ≠ "" ->
  (∀ item, item ∈ vocabList ->
           toLowerCase (word item) ≠ toLowerCase (trim word0)) ->
  handleLearnWord trim toLowerCase word0 vocabList = Fetch (trim word0).
Proof.
  intros Hblank Hnew. unfold handleLearnWord.
  rewrite bool_decide_eq_false_2 by done.
  destruct (List.find _ vocabList) as [existing |] eqn:Hfind; [| done].
  apply List.find_some in Hfind as [Hin Heq].
  apply list_elem_of_In in Hin. apply bool_decide_eq_true in Heq.
  by destruct (Hnew existing Hin).
Qed.

Lemma learnAll_distinct (requests : list LearnRequest)
    (vocabList : list VocabData) :
  NoDup ((fun item => toLowerCase (word item)) <$> vocabList) ->
  NoDup ((fun item => toLowerCase (word item))
           <$> learnAll trim toLowerCase requests vocabList).
Proof.
  revert vocabList. induction requests as [| rq requests IH];
    intros vocabList Hnd; [done |].
  unfold learnAll. cbn [foldl]. apply IH.
  apply (learnWord_step (lr_word rq) vocabList (lr_created rq) (lr_clock rq)
           (lr_meanings rq) vocabList); [exact Hnd |].
  intros item Hitem. by exists item.
Qed.

(** X15.  In the second version, learning a word keeps the words of
    the list pairwise distinct up to case.  If the words of the list
    are pairwise distinct up to case, and the list has gained no word
    while the request was under way, they are pairwise distinct after
    the request.  So they stay pairwise distinct along any sequence of
    requests made one after another, from the empty list or from any
    list without a repeated word; nothing is said of a list that holds
    a repeated word already.  A word that is in the list already, up to
    case and surrounding blanks, or a blank input, leaves the list as
    it is; a word that is not, once the service has answered with at
    least one meaning, is put in front of the list under the trimmed
    text of the input.  The ids stay pairwise distinct when the new
    timestamp is not the id of a word of the list. *)
Theorem learnWord_keeps_words_distinct (word0 : string)
    (vocabList : list VocabData) (created : Z) (clock : nat -> Z)
    (ms : list Meaning) (prev : list VocabData)
    (requests : list LearnRequest) :
  (NoDup ((fun item => toLowerCase (word item)) <$> prev) ->
   (∀ item, item ∈ prev -> ∃ item', item' ∈ vocabList ∧ word item' = word item) ->
   NoDup ((fun item => toLowerCase (word item))
            <$> learnWord trim toLowerCase word0 vocabList created clock ms prev)) ∧
  (NoDup ((fun item => toLowerCase (word item)) <$> vocabList) ->
   NoDup ((fun item => toLowerCase (word item))
            <$> learnAll trim toLowerCase requests vocabList)) ∧
  NoDup ((fun item => toLowerCase (word item))
           <$> learnAll trim toLowerCase requests []) ∧
  ((∃ item, item ∈ vocabList
            ∧ toLowerCase (word item) = toLowerCase (trim word0)) ->
   learnWord trim toLowerCase word0 vocabList created clock ms prev = prev) ∧
  (toLowerCase (trim word0) = "" ->
   learnWord trim toLowerCase word0 vocabList created clock ms prev = prev) ∧
  (toLowerCase (trim word0) ≠ "" ->
   (∀ item, item ∈ vocabList ->
            toLowerCase (word item) ≠ toLowerCase (trim word0)) ->
   ms ≠ [] ->
   learnWord trim toLowerCase word0 vocabList created clock ms prev
   = newVocab created clock (trim word0) ms :: prev) ∧
  (NoDup (id <$> prev) -> pretty created ∉ id <$> prev ->
   NoDup (id <$> learnWord trim toLowerCase word0 vocabList created clock ms prev)).
Proof.
  destruct (learnWord_step word0 vocabList created clock ms prev)
    as (Hstep & Hdup & Hblank & Hids).
  split; [exact Hstep |].
  split; [apply learnAll_distinct |].
  split; [apply learnAll_distinct, NoDup_nil; done |].
  split; [exact Hdup |].
  split; [exact Hblank |].
  split; [| exact Hids].
  intros Hne Hnew Hms. unfold learnWord.
  rewrite (handleLearnWord_new word0 vocabList Hne Hnew).
  unfold addLearned. destruct ms as [| m ms']; [done | reflexivity].
Qed.
End LearnWordFacts.

(** A new word is put in front, and the words stay distinct. *)
Lemma learnWord_keeps_words_distinct_witness :
  learnWord (fun s => s) (fun s => s) "tree" sampleList 7000 (fun _ => 7001)
    [sampleMeaning 0 (Num 0)] sampleList
  = newVocab 7000 (fun _ => 7001) "tree" [sampleMeaning 0 (Num 0)] :: sampleList
  ∧ NoDup (word <$> learnWord (fun s => s) (fun s => s) "tree" sampleList 7000
                      (fun _ => 7001) [sampleMeaning 0 (Num 0)] sampleList).
Proof.
  destruct (learnWord_keeps_words_distinct (fun s => s) (fun s => s) "tree"
              sampleList 7000 (fun _ => 7001) [sampleMeaning 0 (Num 0)]
              sampleList [])
    as (Hstep & _ & _ & _ & _ & Hnew & _).
  split.
  - apply Hnew; [done | | done].
    intros item Hitem.
    apply elem_of_cons in Hitem as [-> | Hitem]; [done |].
    apply elem_of_cons in Hitem as [-> | Hitem]; [done |].
    by apply elem_of_nil in Hitem.
  - apply Hstep.
    + apply (bool_decide_unpack _). vm_compute. reflexivity.
    + intros item Hitem. by exists item.
Defined.

(** The load effect does not look for repeated words: a stored list
    that holds a word twice loads with both entries. *)
Example load_keeps_repeated_word :
  loadList (fun _ _ => 0) (savedList twiceBook)
  = Some (encodeItem <$> twiceBook)
  ∧ ¬ NoDup (word <$> twiceBook).
Proof.
  split; [vm_compute; reflexivity |].
  intros Hnd. apply NoDup_cons in Hnd as [Hnot _].
  apply Hnot. left.
Qed.

Lemma fixOptions_spec_witness :
  fixOptions [JStr "car"; JStr "tree"] (Some (JStr "book"))
  = [Some (JStr "car"); Some (JStr "book")].
Proof.
  destruct (fixOptions_spec [JStr "car"; JStr "tree"] (Some (JStr "book")))
    as (_ & _ & Hreplace & _).
  apply (Hreplace eq_refl [JStr "car"] (JStr "tree")). reflexivity.
Defined.

(** ** The review session *)

Lemma sessionState_eq (i i' c c' : nat) (b b' : bool) :
  i = i' -> c = c' -> b = b' ->
  {| currentIndex := i; correctCount := c; isSessionComplete := b |}
  = {| currentIndex := i'; correctCount := c'; isSessionComplete := b' |}.
Proof. by intros -> -> ->. Qed.

Lemma runSession_from (items : list ReviewItem) (answers : list bool) :
  ∀ i c,
    answers ≠ [] ->
    (i + length answers <= length items)%nat ->
    runSession items answers
      {| currentIndex := i; correctCount := c; isSessionComplete := false |}
    = Some (zip_with reportOf (drop i items) answers,
            {| currentIndex := (i + length answers) `min` (length items - 1);
               correctCount := c + length (List.filter (fun a => a) answers);
               isSessionComplete :=
                 bool_decide ((i + length answers)%nat = length items) |}).
Proof.
  induction answers as [| a rest IH]; intros i c Hne Hlen; [done |].
  simpl in Hlen. cbn [runSession isSessionComplete].
  unfold handleNext. cbn [currentIndex correctCount isSessionComplete].
  destruct (lookup_lt_is_Some_2 items i ltac:(lia)) as [r Hr]. rewrite Hr.
  rewrite (drop_S _ _ _ Hr). cbn [zip_with].
  destruct (Z.of_nat i <? Z.of_nat (length items) - 1) eqn:Hmore.
  - apply Z.ltb_lt in Hmore.
    destruct rest as [| a' rest'].
    + cbn [runSession]. rewrite zip_with_nil_r. do 2 f_equal.
      apply sessionState_eq;
        [cbn [length]; lia | destruct a; cbn [length List.filter]; lia |].
      symmetry. apply bool_decide_eq_false_2. cbn [length]. lia.
    + rewrite (IH (S i) (if a then S c else c)); [| done | simpl in *; lia].
      do 2 f_equal.
      apply sessionState_eq;
        [cbn [length]; lia | destruct a; cbn [length List.filter]; lia |].
      apply bool_decide_ext. cbn [length]. lia.
  - apply Z.ltb_ge in Hmore.
    destruct rest as [| a' rest']; [| simpl in Hlen; lia].
    cbn [runSession]. rewrite zip_with_nil_r. do 2 f_equal.
    apply sessionState_eq;
        [cbn [length]; lia | destruct a; cbn [length List.filter]; lia |].
    symmetry. apply bool_decide_eq_true_2. cbn [length]. lia.
Qed.

Lemma runSession_too_long (items : list ReviewItem) (answers : list bool) :
  ∀ i c,
    (length items < i + length answers)%nat ->
    (i <= length items)%nat ->
    runSession items answers
      {| currentIndex := i; correctCount := c; isSessionComplete := false |}
    = None.
Proof.
  induction answers as [| a rest IH]; intros i c Hlong Hi;
    [simpl in Hlong; lia |].
  cbn [runSession isSessionComplete]. unfold handleNext.
  cbn [currentIndex correctCount isSessionComplete].
  destruct (items !! i) as [r |] eqn:Hr; [| done].
  apply lookup_lt_Some in Hr.
  destruct (Z.of_nat i <? Z.of_nat (length items) - 1) eqn:Hmore.
  - apply Z.ltb_lt in Hmore.
    rewrite (IH (S i) (if a then S c else c)); [done | simpl in *; lia | lia].
  - apply Z.ltb_ge in Hmore.
    destruct rest as [| a' rest']; [simpl in *; lia | done].
Qed.

(** X16.  A session reports every answer once, for the item it was
    given for, in the order of the session.  After as many answers as a
    non-empty prefix of the session has items, [onQuizComplete] has
    been called for these items with these answers, the count of
    correct answers is the number of correct ones, and the session is
    complete exactly when every item has been answered.  No answer can
    be given beyond the last item. *)
Theorem session_reports_each_answer_once (items : list ReviewItem)
    (answers : list bool) :
  (answers ≠ [] -> (length answers <= length items)%nat ->
   runSession items answers sessionStart
   = Some (zip_with reportOf items answers,
           {| currentIndex := length answers `min` (length items - 1);
              correctCount := length (List.filter (fun a => a) answers);
              isSessionComplete :=
                bool_decide (length answers = length items) |})) ∧
  ((length items < length answers)%nat ->
   runSession items answers sessionStart = None).
Proof.
  split.
  - intros Hne Hlen.
    exact (runSession_from items answers 0%nat 0%nat Hne Hlen).
  - intros Hlong. apply runSession_too_long; simpl; lia.
Qed.

Lemma session_reports_each_answer_once_witness :
  runSession threeDue [true; false; true] sessionStart
  = Some ([("a", 0%nat, true); ("b", 0%nat, false); ("c", 0%nat, true)],
          {| currentIndex := 2; correctCount := 2; isSessionComplete := true |}).
Proof.
  destruct (session_reports_each_answer_once threeDue [true; false; true])
    as [Hrun _].
  apply Hrun; [discriminate | simpl; lia].
Defined.

(** ** The CSV export *)

Lemma append_nil (b : string) : EmptyString +:+ b = b.
Proof. reflexivity. Qed.

Lemma append_cons (c : ascii) (a b : string) :
  String c a +:+ b = String c (a +:+ b).
Proof. reflexivity. Qed.

Lemma string_app_assoc (a b c : string) : (a +:+ b) +:+ c = a +:+ (b +:+ c).
Proof.
  induction a as [|x a IH]; [done |]. rewrite !append_cons. by f_equal.
Qed.

Lemma string_app_nil_r (a : string) : a +:+ EmptyString = a.
Proof.
  induction a as [|x a IH]; [done |]. rewrite append_cons. by f_equal.
Qed.

Lemma addString_field (t f : string) fs rest :
  addString t ((f :: fs) :: rest) = ((t +:+ f) :: fs) :: rest.
Proof.
  induction t as [|c t IH]; [done |].
  cbn [addString]. rewrite IH, append_cons. done.
Qed.

Lemma fmap_addChar_addString c t (r : option (list (list string))) :
  addChar c <$> (addString t <$> r) = addString (String c t) <$> r.
Proof. by destruct r. Qed.

(** A field written with its quotes doubled is read back as it was. *)
Lemma doubleQuotes_quotedCode (f : string) : quotedCode (doubleQuotes f) f.
Proof.
  intros s. induction f as [|c f IH]; cbn [doubleQuotes].
  - rewrite append_nil. cbn [parseCsv]. rewrite Ascii.eqb_refl.
    by destruct (parseCsv AfterQuote s).
  - destruct (Ascii.eqb c quoteChar) eqn:Hc; rewrite ?append_cons;
      cbn [parseCsv].
    + rewrite !Ascii.eqb_refl. apply Ascii.eqb_eq in Hc as ->.
      rewrite IH. apply fmap_addChar_addString.
    + rewrite Hc, IH. apply fmap_addChar_addString.
Qed.

Lemma doubleQuotes_id (t : string) :
  hasQuote t = false -> doubleQuotes t = t.
Proof.
  induction t as [|c t IH]; simpl; [done |].
  intros [Hc Ht]%orb_false_iff. rewrite Hc. by rewrite IH.
Qed.

(** A field without quotes is read back as it was. *)
Lemma raw_quotedCode (t : string) : hasQuote t = false -> quotedCode t t.
Proof.
  intros Ht. rewrite <- (doubleQuotes_id t Ht) at 1.
  apply doubleQuotes_quotedCode.
Qed.

Lemma doubleQuotes_quote (f : string) :
  doubleQuotes (String quoteChar f)
  = String quoteChar (String quoteChar (doubleQuotes f)).
Proof. reflexivity. Qed.

Lemma doubleQuotes_other (c : ascii) (f : string) :
  Ascii.eqb c quoteChar = false ->
  doubleQuotes (String c f) = String c (doubleQuotes f).
Proof. intros H. cbn [doubleQuotes]. by rewrite H. Qed.

Lemma newlinesToSpaces_other (c : ascii) (f : string) :
  Ascii.eqb c CR = false -> Ascii.eqb c LF = false ->
  newlinesToSpaces (String c f) = String c (newlinesToSpaces f).
Proof. intros H1 H2. cbn [newlinesToSpaces]. by rewrite H1, H2. Qed.

Lemma newlinesToSpaces_LF (f : string) :
  newlinesToSpaces (String LF f) = String " " (newlinesToSpaces f).
Proof. reflexivity. Qed.

Lemma newlinesToSpaces_CRLF (f : string) :
  newlinesToSpaces (String CR (String LF f)) = String " " (newlinesToSpaces f).
Proof. reflexivity. Qed.

Lemma newlinesToSpaces_CR (c : ascii) (f : string) :
  Ascii.eqb c LF = false ->
  newlinesToSpaces (String CR (String c f))
  = String " " (newlinesToSpaces (String c f)).
Proof.
  intros H. change (newlinesToSpaces (String CR (String c f)))
    with (if Ascii.eqb c LF then String " " (newlinesToSpaces f)
          else String " " (newlinesToSpaces (String c f))).
  by rewrite H.
Qed.

(** The two replacements of [sanitizeField] do not interfere. *)
Lemma newlinesToSpaces_doubleQuotes (f : string) :
  newlinesToSpaces (doubleQuotes f) = doubleQuotes (newlinesToSpaces f).
Proof.
  assert (∀ (n : nat) f, (String.length f <= n)%nat ->
    newlinesToSpaces (doubleQuotes f) = doubleQuotes (newlinesToSpaces f))
    as H; [| by apply (H (String.length f))].
  clear f. induction n as [|n IH]; intros [|c f] Hn; cbn [String.length] in Hn;
    try done; try lia.
  destruct (Ascii.eqb c quoteChar) eqn:Hq.
  { apply Ascii.eqb_eq in Hq as ->.
    rewrite doubleQuotes_quote, !newlinesToSpaces_other by done.
    rewrite doubleQuotes_quote, IH by lia. done. }
  rewrite (doubleQuotes_other c) by done.
  destruct (Ascii.eqb c CR) eqn:Hcr.
  { apply Ascii.eqb_eq in Hcr as ->. destruct f as [|c' f]; [done |].
    cbn [String.length] in Hn.
    destruct (Ascii.eqb c' LF) eqn:Hlf.
    - apply Ascii.eqb_eq in Hlf as ->.
      rewrite (doubleQuotes_other LF), !newlinesToSpaces_CRLF by done.
      rewrite (doubleQuotes_other " ") by done. rewrite IH by lia. done.
    - rewrite (newlinesToSpaces_CR c') by done.
      rewrite (doubleQuotes_other " ") by done.
      rewrite <- (IH (String c' f)) by (cbn [String.length]; lia).
      destruct (Ascii.eqb c' quoteChar) eqn:Hq'.
      + apply Ascii.eqb_eq in Hq' as ->.
        rewrite doubleQuotes_quote. by rewrite newlinesToSpaces_CR.
      + rewrite (doubleQuotes_other c') by done.
        by rewrite newlinesToSpaces_CR. }
  destruct (Ascii.eqb c LF) eqn:Hlf.
  { apply Ascii.eqb_eq in Hlf as ->. rewrite !newlinesToSpaces_LF.
    rewrite (doubleQuotes_other " ") by done. rewrite IH by lia. done. }
  rewrite !newlinesToSpaces_other by done.
  rewrite (doubleQuotes_other c) by done. rewrite IH by lia. done.
Qed.

Lemma sanitize_quotedCode (f : string) :
  quotedCode (newlinesToSpaces (doubleQuotes f)) (newlinesToSpaces f).
Proof.
  rewrite newlinesToSpaces_doubleQuotes. apply doubleQuotes_quotedCode.
Qed.

Lemma inQuotes_app (b s : string) :
  (inQuotes b +:+ s) = String quoteChar (b +:+ String quoteChar s).
Proof. unfold inQuotes. by rewrite append_cons, string_app_assoc. Qed.

Lemma inQuotes_fieldCode (body val : string) :
  quotedCode body val -> fieldCode AfterQuote (inQuotes body) val.
Proof.
  intros H st s Hst. rewrite inQuotes_app, <- H.
  by destruct Hst as [-> | ->].
Qed.

Lemma parseCsv_plain (t s : string) :
  isPlain t = true ->
  parseCsv InPlain (t +:+ s) = addString t <$> parseCsv InPlain s.
Proof.
  induction t as [|c t IH]; intros Ht.
  - rewrite append_nil. by destruct (parseCsv InPlain s).
  - cbn [isPlain] in Ht. apply andb_true_iff in Ht as [Hc Ht].
    unfold plainChar in Hc. rewrite !andb_true_iff, !negb_true_iff in Hc.
    destruct Hc as [[[Hq Hcm] Hlf] Hcr].
    rewrite append_cons. cbn [parseCsv]. rewrite Hq, Hcm, Hlf, Hcr.
    rewrite (IH Ht). apply fmap_addChar_addString.
Qed.

Lemma plain_fieldCode (t : string) :
  t ≠ EmptyString -> isPlain t = true -> fieldCode InPlain t t.
Proof.
  intros Hne Ht st s Hst. destruct t as [|c t]; [done |].
  cbn [isPlain] in Ht. apply andb_true_iff in Ht as [Hc Ht].
  unfold plainChar in Hc. rewrite !andb_true_iff, !negb_true_iff in Hc.
  destruct Hc as [[[Hq Hcm] Hlf] Hcr].
  rewrite append_cons.
  assert (parseCsv st (String c (t +:+ s))
          = addChar c <$> parseCsv InPlain (t +:+ s)) as ->.
  { destruct Hst as [-> | ->]; cbn [parseCsv]; by rewrite Hq, Hcm, Hlf, Hcr. }
  rewrite (parseCsv_plain t s Ht). apply fmap_addChar_addString.
Qed.

(** Fields joined by commas are read as one record. *)
Lemma fields_row (endSt : CsvState) (encs vals : list string) st tail recs :
  endSt = InPlain ∨ endSt = AfterQuote ->
  encs ≠ [] ->
  Forall2 (fieldCode endSt) encs vals ->
  st = RecordStart ∨ st = FieldStart ->
  parseCsv endSt tail = Some ([EmptyString] :: recs) ->
  parseCsv st (join "," encs +:+ tail) = Some (vals :: recs).
Proof.
  intros Hend Hne HF Hst Htail.
  revert st Hst. induction HF as [|b v encs vals Hbv HF IH]; [done |].
  intros st Hst. destruct encs as [|b' encs].
  - apply Forall2_nil_inv_l in HF as ->. cbn [join].
    rewrite (Hbv st tail Hst), Htail. cbn [fmap option_fmap option_map].
    rewrite addString_field. by rewrite string_app_nil_r.
  - change (join "," (b :: b' :: encs))
      with (b +:+ "," +:+ join "," (b' :: encs)).
    rewrite string_app_assoc, (Hbv st _ Hst), !append_cons, append_nil.
    assert (∀ r, parseCsv endSt (String "," r)
                 = newField <$> parseCsv FieldStart r) as ->
      by (by destruct Hend as [-> | ->]).
    rewrite (IH ltac:(done) FieldStart ltac:(by right)).
    destruct vals as [|v' vals]; [by apply Forall2_cons_nil_inv in HF |].
    cbn [fmap option_fmap option_map newField].
    rewrite addString_field. by rewrite string_app_nil_r.
Qed.

Lemma quoted_row (bodies vals : list string) :
  bodies ≠ [] ->
  Forall2 quotedCode bodies vals ->
  rowCode (join "," (inQuotes <$> bodies)) vals.
Proof.
  intros Hne HF st tail recs Hst Htail.
  apply (fields_row AfterQuote); [by right | | | done | done].
  - by destruct bodies.
  - apply Forall2_fmap_l. eapply Forall2_impl; [exact HF |].
    intros b v. apply inQuotes_fieldCode.
Qed.

Lemma join_cons (sep x : string) (l : list string) :
  join sep (x :: l)
  = (x +:+ foldr (fun r acc => sep +:+ r +:+ acc) EmptyString l).
Proof.
  revert x. induction l as [|y l IH]; intros x.
  - cbn [join foldr]. by rewrite string_app_nil_r.
  - change (join sep (x :: y :: l)) with (x +:+ sep +:+ join sep (y :: l)).
    rewrite IH. done.
Qed.

(** Rows that follow a line, each after a line feed. *)
Lemma rows_after_LF (rows : list string) (valss : list (list string)) st :
  st = InPlain ∨ st = AfterQuote ->
  Forall2 rowCode rows valss ->
  parseCsv st
    (foldr (fun r acc => String LF EmptyString +:+ r +:+ acc) EmptyString rows)
  = Some ([EmptyString] :: valss).
Proof.
  intros Hst HF. revert st Hst.
  induction HF as [|r v rows valss Hrv HF IH]; intros st Hst.
  - by destruct Hst as [-> | ->].
  - cbn [foldr]. rewrite append_cons, append_nil.
    assert (∀ x, parseCsv st (String LF x)
                 = endRecord <$> parseCsv RecordStart x) as ->
      by (by destruct Hst as [-> | ->]).
    rewrite (Hrv RecordStart _ valss); [done | by left |].
    apply IH. by right.
Qed.

(** Rows each ended by a carriage return and a line feed. *)
Lemma rows_with_CRLF (rows : list string) (valss : list (list string)) :
  Forall2 rowCode rows valss ->
  parseCsv RecordStart
    (foldr String.append EmptyString ((fun r => r +:+ CRLF) <$> rows))
  = Some valss.
Proof.
  induction 1 as [|r v rows valss Hrv HF IH]; [done |].
  rewrite fmap_cons. cbn [foldr]. rewrite string_app_assoc.
  apply Hrv; [by left |].
  unfold CRLF in *. rewrite !append_cons, append_nil.
  change (parseCsv AfterQuote (String CR (String LF ?x)))
    with (endRecord <$> parseCsv RecordStart x).
  by rewrite IH.
Qed.

Lemma plain_row (fields : list string) st tail recs :
  fields ≠ [] ->
  forallb (fun t => negb (String.eqb t EmptyString) && isPlain t) fields = true ->
  st = RecordStart ∨ st = FieldStart ->
  parseCsv InPlain tail = Some ([EmptyString] :: recs) ->
  parseCsv st (join "," fields +:+ tail) = Some (fields :: recs).
Proof.
  intros Hne Hall Hst Htail.
  apply (fields_row InPlain); [by left | done | | done | done].
  apply Forall_Forall2_diag, Forall_forall. intros t Ht.
  rewrite forallb_forall in Hall.
  specialize (Hall t ltac:(by apply list_elem_of_In)).
  apply andb_true_iff in Hall as [Hne' Hplain].
  apply plain_fieldCode; [| done].
  intros ->. done.
Qed.

Lemma header_V1 (tail : string) recs :
  parseCsv InPlain tail = Some ([EmptyString] :: recs) ->
  parseCsv RecordStart (join "," headersV1 +:+ tail) = Some (headersV1 :: recs).
Proof. intros H. apply plain_row; [done | done | by left | done]. Qed.

Lemma header_V2 (tail : string) recs :
  parseCsv RecordStart tail = Some recs ->
  parseCsv RecordStart (headerLineV2 +:+ tail) = Some (headersV2 :: recs).
Proof.
  intros H.
  change headerLineV2 with (join "," headersV2 +:+ CRLF).
  rewrite string_app_assoc.
  apply plain_row; [done | done | by left |].
  unfold CRLF. rewrite !append_cons, append_nil.
  change (parseCsv InPlain (String CR (String LF tail)))
    with (endRecord <$> parseCsv RecordStart tail).
  by rewrite H.
Qed.

Lemma rows_of_list {A B} (P : A -> B -> Prop) (vocabList : list VocabData)
    (f : VocabData -> Meaning -> A) (g : VocabData -> Meaning -> B) :
  Forall (fun item => Forall (fun m => P (f item m) (g item m)) (meanings item))
    vocabList ->
  Forall2 P (vocabList ≫= fun item => f item <$> meanings item)
            (vocabList ≫= fun item => g item <$> meanings item).
Proof.
  intros H. apply Forall2_bind, Forall_Forall2_diag.
  eapply Forall_impl; [exact H |]. cbv beta. intros item Hitem.
  apply Forall2_fmap, Forall_Forall2_diag. exact Hitem.
Qed.

Lemma rowsV1_rowCode (vocabList : list VocabData) :
  Forall2 rowCode
    (vocabList ≫= fun item =>
       (fun meaning =>
          join ","
            [ sanitizeField (word item);
              sanitizeField (part_of_speech_english meaning);
              sanitizeField (one_word_arabic meaning);
              sanitizeField (explanation_arabic meaning) ])
         <$> meanings item)
    (vocabList ≫= fun item =>
       (fun meaning =>
          [ newlinesToSpaces (word item);
            newlinesToSpaces (part_of_speech_english meaning);
            newlinesToSpaces (one_word_arabic meaning);
            newlinesToSpaces (explanation_arabic meaning) ])
         <$> meanings item).
Proof.
  apply rows_of_list, Forall_forall. intros item _.
  apply Forall_forall. intros m _.
  apply (quoted_row
           [ newlinesToSpaces (doubleQuotes (word item));
             newlinesToSpaces (doubleQuotes (part_of_speech_english m));
             newlinesToSpaces (doubleQuotes (one_word_arabic m));
             newlinesToSpaces (doubleQuotes (explanation_arabic m)) ]);
    [done |].
  repeat constructor; apply sanitize_quotedCode.
Qed.

(** X17.  What the first version exports reads back, as CSV, as the
    header record followed by one record of four fields per meaning, in
    the order of the list: the word, the part of speech, the Arabic
    meaning and the Arabic explanation, each with its line breaks
    turned into spaces and otherwise unchanged, whatever quotes and
    commas the fields contain. *)
Theorem exportV1_reads_back (vocabList : list VocabData) :
  readCsv (csvContentV1 vocabList) = Some (recordsV1 vocabList).
Proof.
  unfold readCsv, csvContentV1, csvRowsV1, recordsV1.
  rewrite join_cons.
  apply header_V1, rows_after_LF; [by left |].
  apply rowsV1_rowCode.
Qed.

Lemma hasLineBreak_app (a b : string) :
  hasLineBreak (a +:+ b) = hasLineBreak a || hasLineBreak b.
Proof.
  induction a as [|c a IH]; [done |].
  rewrite append_cons. cbn [hasLineBreak]. rewrite IH.
  by rewrite orb_assoc.
Qed.

Lemma hasLineBreak_newlinesToSpaces (f : string) :
  hasLineBreak (newlinesToSpaces f) = false.
Proof.
  assert (∀ (n : nat) f, (String.length f <= n)%nat ->
    hasLineBreak (newlinesToSpaces f) = false)
    as H; [| by apply (H (String.length f))].
  clear f. induction n as [|n IH]; intros [|c f] Hn; cbn [String.length] in Hn;
    try done; try lia.
  destruct (Ascii.eqb c CR) eqn:Hcr.
  { apply Ascii.eqb_eq in Hcr as ->. destruct f as [|c' f]; [done |].
    cbn [String.length] in Hn. destruct (Ascii.eqb c' LF) eqn:Hlf.
    - apply Ascii.eqb_eq in Hlf as ->. rewrite newlinesToSpaces_CRLF.
      cbn [hasLineBreak]. rewrite IH by lia. done.
    - rewrite newlinesToSpaces_CR by done. cbn [hasLineBreak].
      rewrite (IH (String c' f)) by (cbn [String.length]; lia). done. }
  destruct (Ascii.eqb c LF) eqn:Hlf.
  { apply Ascii.eqb_eq in Hlf as ->. rewrite newlinesToSpaces_LF.
    cbn [hasLineBreak]. rewrite IH by lia. done. }
  rewrite newlinesToSpaces_other by done. cbn [hasLineBreak].
  rewrite Hcr, Hlf, IH by lia. done.
Qed.

Lemma hasLineBreak_sanitizeField (f : string) :
  hasLineBreak (sanitizeField f) = false.
Proof.
  unfold sanitizeField, inQuotes. cbn [hasLineBreak].
  rewrite hasLineBreak_app, hasLineBreak_newlinesToSpaces. done.
Qed.

(** A field without line breaks is written with its quotes doubled and
    nothing else changed. *)
Lemma newlinesToSpaces_id (f : string) :
  hasLineBreak f = false -> newlinesToSpaces f = f.
Proof.
  induction f as [|c f IH]; [done |]. cbn [hasLineBreak].
  intros [[Hcr Hlf]%orb_false_iff Hf]%orb_false_iff.
  rewrite newlinesToSpaces_other by done. by rewrite IH.
Qed.

Lemma bind_fmap_length {A} (f : VocabData -> Meaning -> A)
    (vocabList : list VocabData) :
  length (vocabList ≫= fun item => f item <$> meanings item)
  = sum_list_with (fun item => length (meanings item)) vocabList.
Proof.
  induction vocabList as [|item l IH]; [done |].
  rewrite bind_cons, length_app, length_fmap, IH. done.
Qed.

(** X18.  The first version writes one line per meaning after the
    header line: no line of the export contains a line break, whatever
    the fields contain, there are as many lines as meanings plus one,
    and a list whose exported fields have no line breaks of their own
    reads back with every field exactly as it was. *)
Theorem exportV1_one_line_per_meaning (vocabList : list VocabData) :
  Forall (fun row => hasLineBreak row = false) (csvRowsV1 vocabList)
  ∧ length (csvRowsV1 vocabList)
    = S (sum_list_with (fun item => length (meanings item)) vocabList)
  ∧ (Forall (fun item =>
        hasLineBreak (word item) = false
        ∧ Forall (fun m =>
            hasLineBreak (part_of_speech_english m) = false
            ∧ hasLineBreak (one_word_arabic m) = false
            ∧ hasLineBreak (explanation_arabic m) = false) (meanings item))
       vocabList ->
     readCsv (csvContentV1 vocabList)
     = Some (headersV1
             :: (vocabList ≫= fun item =>
                   (fun m => [ word item; part_of_speech_english m;
                               one_word_arabic m; explanation_arabic m ])
                     <$> meanings item))).
Proof.
  split; [| split].
  - unfold csvRowsV1. apply Forall_cons. split; [done |].
    apply Forall_forall. intros row Hrow.
    apply list_elem_of_bind in Hrow as (item & Hrow & _).
    apply list_elem_of_fmap in Hrow as (m & -> & _).
    cbn [join]. rewrite !hasLineBreak_app, !hasLineBreak_sanitizeField. done.
  - unfold csvRowsV1. cbn [length]. by rewrite bind_fmap_length.
  - intros Hclean. unfold readCsv, csvContentV1, csvRowsV1.
    rewrite join_cons.
    rewrite (header_V1 _ _ (rows_after_LF _ _ InPlain ltac:(by left)
                              (rowsV1_rowCode vocabList))).
    do 2 f_equal.
    induction Hclean as [|item l [Hw Hms] Hl IH]; [done |].
    rewrite !bind_cons, IH. f_equal.
    induction Hms as [|m ms (Hp & Ho & He) Hms IHms]; [done |].
    rewrite !fmap_cons, IHms.
    by rewrite !newlinesToSpaces_id.
Qed.

Lemma lines_of_list (vocabList : list VocabData)
    (row : VocabData -> Meaning -> string) :
  (vocabList ≫= fun item => (fun m => row item m +:+ CRLF) <$> meanings item)
  = (fun r => r +:+ CRLF)
      <$> (vocabList ≫= fun item => row item <$> meanings item).
Proof.
  induction vocabList as [|item l IH]; [done |].
  rewrite !bind_cons, fmap_app, IH. f_equal.
  by rewrite <- list_fmap_compose.
Qed.

Lemma csvBodyV2_read (vocabList : list VocabData) :
  Forall rawFieldsQuoteFree vocabList ->
  readCsv (csvBodyV2 vocabList) = Some (recordsV2 vocabList).
Proof.
  intros Hraw. unfold readCsv, csvBodyV2, recordsV2.
  apply header_V2. unfold csvLineV2. rewrite lines_of_list.
  apply rows_with_CRLF, rows_of_list.
  eapply Forall_impl; [exact Hraw |]. cbv beta.
  intros item [Hw Hms]. eapply Forall_impl; [exact Hms |]. cbv beta.
  intros m [Hp Ho].
  apply (quoted_row
           [ word item; part_of_speech_english m; one_word_arabic m;
             doubleQuotes (explanation_arabic m);
             doubleQuotes (example_sentence_english m);
             doubleQuotes (example_sentence_arabic m) ]);
    [done |].
  repeat constructor;
    first [ by apply raw_quotedCode | apply doubleQuotes_quotedCode ].
Qed.

(** *** The [data:] URL *)

Lemma encodeURI_app (a b : string) :
  encodeURI (a +:+ b) = encodeURI a +:+ encodeURI b.
Proof.
  induction a as [|c a IH]; [done |].
  rewrite append_cons. cbn [encodeURI]. by rewrite IH, string_app_assoc.
Qed.

(** One character, encoded and read back. *)
Lemma percentDecode_encodeChar (c : ascii) (r : string) :
  percentDecode (encodeChar c +:+ r) = String c (percentDecode r).
Proof. destruct c as [[] [] [] [] [] [] [] []]; reflexivity. Qed.

(** No character is encoded with a hash sign, the hash sign apart. *)
Lemma beforeFragment_encodeChar (c : ascii) (r : string) :
  beforeFragment (encodeChar c +:+ r)
  = if Ascii.eqb c hashChar then EmptyString
    else encodeChar c +:+ beforeFragment r.
Proof. destruct c as [[] [] [] [] [] [] [] []]; reflexivity. Qed.

Lemma percentDecode_encodeURI (s : string) : percentDecode (encodeURI s) = s.
Proof.
  induction s as [|c s IH]; [done |].
  cbn [encodeURI]. by rewrite percentDecode_encodeChar, IH.
Qed.

Lemma beforeFragment_encodeURI (s : string) :
  beforeFragment (encodeURI s) = encodeURI (beforeFragment s).
Proof.
  induction s as [|c s IH]; [done |].
  cbn [encodeURI beforeFragment]. rewrite beforeFragment_encodeChar.
  destruct (Ascii.eqb c hashChar); [done |].
  cbn [encodeURI]. by rewrite IH.
Qed.

(** What is downloaded is the text that was exported, up to its first
    hash sign. *)
Lemma dataUrlBody_encodedUri (vocabList : list VocabData) :
  dataUrlBody (encodedUri vocabList)
  = Some (beforeFragment (csvBodyV2 vocabList)).
Proof.
  unfold encodedUri, csvContentV2.
  rewrite encodeURI_app.
  change (encodeURI "data:text/csv;charset=utf-8,")
    with ("data:text/csv;charset=utf-8," : string).
  change (dataUrlBody ("data:text/csv;charset=utf-8," +:+ ?x))
    with (percentDecode <$> Some (beforeFragment x)).
  cbn [fmap option_fmap option_map].
  by rewrite beforeFragment_encodeURI, percentDecode_encodeURI.
Qed.

Lemma hasHash_app (a b : string) :
  hasHash (a +:+ b) = hasHash a || hasHash b.
Proof.
  induction a as [|c a IH]; [done |].
  rewrite append_cons. cbn [hasHash]. rewrite IH. by rewrite orb_assoc.
Qed.

Lemma hasHash_doubleQuotes (s : string) :
  hasHash (doubleQuotes s) = hasHash s.
Proof.
  induction s as [|c s IH]; [done |].
  destruct (Ascii.eqb c quoteChar) eqn:Hq.
  - apply Ascii.eqb_eq in Hq as ->. rewrite doubleQuotes_quote.
    cbn [hasHash]. by rewrite IH.
  - rewrite doubleQuotes_other by done. cbn [hasHash]. by rewrite IH.
Qed.

Lemma hasHash_inQuotes (s : string) : hasHash (inQuotes s) = hasHash s.
Proof.
  unfold inQuotes. cbn [hasHash]. rewrite hasHash_app. cbn [hasHash].
  change (Ascii.eqb quoteChar hashChar) with false.
  by rewrite !orb_false_r.
Qed.

Lemma hasHash_concat (lines : list string) :
  Forall (fun line => hasHash line = false) lines ->
  hasHash (foldr String.append EmptyString lines) = false.
Proof.
  induction 1 as [|line lines Hline _ IH]; [done |].
  cbn [foldr]. by rewrite hasHash_app, Hline, IH.
Qed.

Lemma beforeFragment_id (s : string) :
  hasHash s = false -> beforeFragment s = s.
Proof.
  induction s as [|c s IH]; [done |]. cbn [hasHash beforeFragment].
  intros [Hc Hs]%orb_false_iff. rewrite Hc. by rewrite IH.
Qed.

Lemma hasHash_csvBodyV2 (vocabList : list VocabData) :
  Forall exportedFieldsHashFree vocabList ->
  hasHash (csvBodyV2 vocabList) = false.
Proof.
  intros Hfree. unfold csvBodyV2. rewrite hasHash_app.
  change (hasHash headerLineV2) with false. cbn [orb].
  apply hasHash_concat, Forall_forall. intros line Hline.
  apply list_elem_of_bind in Hline as (item & Hline & Hitem).
  apply list_elem_of_fmap in Hline as (m & -> & Hm).
  rewrite Forall_forall in Hfree.
  destruct (Hfree item Hitem) as [Hw Hms].
  rewrite Forall_forall in Hms.
  destruct (Hms m Hm) as (Hp & Ho & He & Hx & Hy).
  unfold csvLineV2. cbn [join].
  rewrite !hasHash_app, !hasHash_inQuotes, !hasHash_doubleQuotes.
  rewrite Hw, Hp, Ho, He, Hx, Hy. reflexivity.
Qed.

(** X19.  The second version exports [encodeURI(csvContent)] as a
    [data:] URL.  When no exported field contains a hash sign, and the
    word, the English part of speech and the Arabic translation, which
    are written between quotes as they are, contain no quote, the text
    downloaded from that URL is the text built, and it reads back, as
    CSV, as the header record followed by one record of six fields per
    meaning, in the order of the list, every field exactly as it was,
    line breaks included. *)
Theorem exportV2_reads_back (vocabList : list VocabData) :
  Forall rawFieldsQuoteFree vocabList ->
  Forall exportedFieldsHashFree vocabList ->
  dataUrlBody (encodedUri vocabList) = Some (csvBodyV2 vocabList)
  ∧ (dataUrlBody (encodedUri vocabList) ≫= readCsv)
    = Some (recordsV2 vocabList).
Proof.
  intros Hraw Hfree.
  assert (dataUrlBody (encodedUri vocabList) = Some (csvBodyV2 vocabList))
    as Hbody.
  { rewrite dataUrlBody_encodedUri.
    by rewrite beforeFragment_id by (by apply hasHash_csvBodyV2). }
  split; [exact Hbody |].
  rewrite Hbody. cbn [mbind option_bind]. by apply csvBodyV2_read.
Qed.

Lemma exportV2_reads_back_witness :
  Forall rawFieldsQuoteFree csvSampleList
  ∧ Forall exportedFieldsHashFree csvSampleList
  ∧ (dataUrlBody (encodedUri csvSampleList) ≫= readCsv)
    = Some (recordsV2 csvSampleList).
Proof.
  assert (Forall rawFieldsQuoteFree csvSampleList) as Hraw
    by (repeat constructor).
  assert (Forall exportedFieldsHashFree csvSampleList) as Hfree
    by (repeat constructor).
  split; [exact Hraw | split; [exact Hfree |]].
  apply (exportV2_reads_back csvSampleList Hraw Hfree).
Defined.

(** A hash sign in a field cuts the download short: the URL ends
    there, and what is downloaded is no CSV any more. *)
Example exportV2_hash_in_word :
  dataUrlBody (encodedUri hashWordList)
  = Some (beforeFragment (csvBodyV2 hashWordList))
  ∧ beforeFragment (csvBodyV2 hashWordList) ≠ csvBodyV2 hashWordList
  ∧ (dataUrlBody (encodedUri hashWordList) ≫= readCsv) = None.
Proof.
  split; [apply dataUrlBody_encodedUri | split].
  - vm_compute. discriminate.
  - vm_compute. reflexivity.
Qed.

(** A quote in the word breaks the second version's export: the text
    is no CSV any more. *)
Example exportV2_quote_in_word : readCsv (csvBodyV2 quotedWordList) = None.
Proof. vm_compute. reflexivity. Qed.

Example exportV1_quote_in_word :
  readCsv (csvContentV1 quotedWordList) = Some (recordsV1 quotedWordList).
Proof. vm_compute. reflexivity. Qed.

Example readCsv_sampleV1 :
  readCsv (csvContentV1 csvSampleList) = Some (recordsV1 csvSampleList).
Proof. vm_compute. reflexivity. Qed.
